(* ===== verification/_CoqProject ===== *)
-Q . S2P
Prelude.v
Linalg.v
Sparse.v
Lsq.v
Frame.v
Affine.v
Coeff.v
Transfer.v
Video.v
Script.v
Loaders.v
Run.v
SelfTransfer.v
Invariance.v
Laplacian.v
