(* ===== verification/Prelude.v ===== *)
(** * FaceDeformation: a verification development of [src/DeformationTransfer.py]

    ** The program
    [src/DeformationTransfer.py] (Python 2, numpy, scipy) retargets the
    animation of a source mesh onto a target mesh with the same triangle
    list ("deformation transfer", Sumner and Popovic), and, independently,
    edits a mesh by pinning anchor vertices while keeping its cotangent
    Laplacian coordinates.  Its parts and how they call each other:
    - [DeformationTranferer.get4thVertex] / [getVPos4]: one synthetic vertex
      per triangle (first vertex plus unit face normal), appended to a pose;
    - [DeformationTranferer.getSMatrix]: the per-triangle affine maps
      [S_i = V~_i V_i^-1] between two poses of the source mesh, stacked as a
      [3 x 3F] array;
    - [DeformationTranferer.getAMatrix]: the sparse [3F x (V+F)] operator
      whose rows, applied to unknown target positions, give each triangle's
      edges times the inverse edge matrix of the current target pose;
    - [DeformationTranferer.__init__] / [beginDeformationTransfer]: checks
      the two videos, then for every later source frame extends the source
      poses, builds [S] and [A], calls [lsqr(A, S[k, :])] for the three axes,
      writes the solutions into the extended target pose (which is the
      current pose of the next frame) and emits its first [V] rows;
    - [VideoMesh] (the second class of that name): a one-frame video of a
      loaded mesh, [loadVideo], and [drawFrame]'s frame selection;
    - [getLaplacianMatrixCotangent] / [solveLaplacianMesh]: the cotangent
      Laplacian [L = D - W] with one extra row per anchor, and the per-axis
      least-squares solve of [L x = delta].

    ** The library (files in dependency order, as _CoqProject lists them)
    - [Prelude] (this file): the result monad for Python exceptions
      ([pyerr]: [IndexError], [ValueError], [AssertionError], [LinAlgError],
      [NameError], [TypeError], [KeyError])
      with its [let*] notation in [result_scope]; [get] (an index into a
      numpy array), [check] (an [assert] or a shape check), [mapM] (a
      vectorised gather, raising at the first bad row); the setoid [qleq]
      of rational vectors, [qsum]; [res_rel], the lifting of a relation to
      two computations (the same exception, or related values); the Ltac [inv_ok], [forall_list],
      [decide_nat_eqb]; the [dt] hint database and the shared list lemmas.
    - [Linalg]: [vec3], [mat3] and the numpy operations on them ([np.cross],
      [np.dot], sums of squares, [np.vstack(...).T] as [mcols]); [inv3] is
      [np.linalg.inv] by the adjugate, raising [LinAlgError] exactly on a
      zero determinant; [SqrtOp] is the interface of [np.sqrt] (a class with
      its laws; [Qsqrt_floor] is an executable instance for the examples).
      Proper instances let [Qeq] rewrite under every operation.
    - [Sparse]: scipy sparse matrices as a shape and a triplet list;
      [coo_matrix] with scipy's index check ([ValueError]); [row_dot] /
      [spmv] the dense meaning with duplicates summed; [resid2], and the
      contract of [lsqr] as [is_lsq] (least residual) and [is_minnorm_lsq]
      (least residual, then least norm, as LSQR from a zero start returns).
    - [Lsq]: an exact least-squares solver [gs_lsqr] (Gram-Schmidt on the
      columns of the summed matrix, then projection of the right-hand
      side), the normal-equation criterion [normal_lsq], and the proof that
      [gs_lsqr] meets the [lsqr] contract on every system ([lsq_solver]):
      the hypotheses the theorems place on [lsqr] are satisfiable, and the
      examples run the whole transfer with a real solver.  [lsq_ext] states
      that a solver reads the values of its right-hand side; [gs_lsqr]
      does.
    - [Frame]: the frame extractor ([fourth_vertex], [get4thVertex],
      [getVPos4]), [Tris4] ([tris4]) and the extended edge matrices
      ([edges4]) that [getSMatrix] and [getAMatrix] both gather; [shifted]
      relates a pose to its translate.
    - [Affine]: [getSMatrix] with its [hstack] loop [smat_loop]; on
      shifted poses it raises the same exception or gives equal rows
      ([getSMatrix_rel]).
    - [Coeff]: [getAMatrix] with one face's twelve triplets [a_face] and the
      loop [a_loop].
    - [Transfer]: the [DeformationTranferer] record and [__init__]; one
      iteration of the frame loop as [transfer_step] on the explicit state
      [tstate] (the two extended poses and the emitted frames), the loop
      [transfer_loop], and [beginDeformationTransfer].  [lsqr] is a section
      variable: the theorems hold for every solver that meets the contract
      they state.  [gradient_match] is the specification of a step.
    - [Video]: [VideoMesh.__init__], [loadVideo], [drawFrame], the first
      (shadowed) [VideoMesh] class whose [initStaticVideo] always raises, and
      [transferVideo], the transfer with its final rebinding of
      [self.warpedVideo.Frames] (the target video object the caller passed).
    - [Script]: the ten debug lines [__init__] prints, as output produced
      exactly when the constructor returns ([DeformationTranferer_init_out]),
      and the [__main__] block ([main]), which raises [NameError] at its
      first assignment to [self].
    - [Loaders]: [loadBaselKeypointMesh] and [loadBUTris], with the file
      contents as arguments (the [sio.loadmat] dictionary as a stdpp [gmap];
      a missing ['ITris'] raises [KeyError]).
    - [Run]: the frame loop [for i in range(1, self.NFrames)] as a
      transition relation [tstep] on configurations [(i, tstate)], with its
      runs [tstar] (reflexive-transitive closure) and the shape invariant
      [run_inv] of the output array.
    - [SelfTransfer]: the spec's end-to-end scenario (an animation
      transferred onto its own mesh), the edge vectors [edge_vecs] of a
      triangle and the loop invariant [edges_match].
    - [Invariance]: a source at rest, and a source translated frame by
      frame ([translate_each], [with_origFrames]); the two runs of the
      transfer compared side by side through [tstate_rel].
    - [Laplacian]: the cotangent weights ([cot_entry], [cot_shift],
      [cot_weights]), [D - W] ([dia_minus]), the anchor rows
      ([anchor_trips]), [getLaplacianMatrixCotangent], and
      [solveLaplacianMesh] with [delta] ([spmm], [set_rows_from]) and the
      column writes of [Transfer.set_col].

    ** What the theorems show
    - Refinement of the transfer: if some target pose meets the
      deformation-transfer specification of a step, the pose the code writes
      meets it ([Transfer.transfer_step_exact]); this rests on the meaning
      of [A] ([Coeff.getAMatrix_gradient]: [A] applied to a pose's
      coordinates is that pose's deformation gradients) and of [S]
      ([Affine.getSMatrix_maps_edges]).
    - Safety: on in-range, non-degenerate triangles the extended frames are
      invertible and [getSMatrix] / [getAMatrix] raise nothing; the errors
      each function raises and when ([init_Ok_iff],
      [getLaplacian_invalid_anchor], [drawFrame_empty]).
    - Invariants: rows of [A] and the first [N] rows of the Laplacian sum
      to zero, the Laplacian block is symmetric; [S] does not change when
      the source frame is translated.
    - The frame loop as a state machine ([Run]): an iteration always has a
      successor when the current source frame is non-degenerate and the
      current target pose's extended triangles are invertible
      ([tstep_progress]); lemmas relate the relation to [transfer_loop].
    - Self-transfer ([SelfTransfer.self_transfer]): with the target equal
      to the source mesh and pose, every output frame has the source
      frame's edge vectors on every triangle, for every solver meeting the
      [lsqr] contract; the witness is the spec's bent-quad scenario solved
      by [gs_lsqr].  Such a run always completes when the source frames are
      non-degenerate ([SelfTransfer.self_transfer_completes]): the target's
      extended triangles stay invertible on every iteration.
    - Motion the transfer does not see ([Invariance]): a source at rest
      leaves every output frame with the edge vectors of the target's
      reference pose, for every solver meeting the [lsqr] contract
      ([static_source_rest]); moving each source frame by a vector of its
      own leaves the result of [beginDeformationTransfer] unchanged,
      exceptions included, for every solver that reads values
      ([transfer_source_translation]), so a translating source is not
      transferred.
    - Lemmas the proofs share (not properties of their own): the object
      [__init__] builds has consistent fields ([Transfer.init_wf]); the [Tris4] rows read real
      vertices in their first three columns and the synthetic vertices
      [V, V+1, ...] in the fourth ([Frame.tris4_index_bounds]); the first
      [V] rows of [getVPos4 P] are [P] ([Transfer.take_rows_getVPos4]).
    - Composition: after a completed transfer every index of the target
      video can be drawn and shows a transferred frame of [V] rows
      ([Video.transfer_then_draw]); a second transfer writes the same
      frames, since the loop reads [self.warpedFrames], bound at
      construction ([Video.transferVideo_idempotent]).
    - Behaviour the spec does not expect: the minimum-norm solution of
      either solve is centred at the origin ([getAMatrix_minnorm_centered],
      [solveLaplacianMesh_no_anchors_centered]); the synthetic vertex is
      offset by the unit normal and no degeneracy error is ever raised.
    - Anchor exactness: anchors at their own positions stay exactly in
      place and the Laplacian coordinates are preserved.
    Each theorem with hypotheses has a witness ([..._witness]) that applies
    it to a small concrete mesh, evaluated by [vm_compute].

    ** Modelling choices
    - Numbers: numpy float64 is modelled by exact rationals [Q] compared with
      [Qeq]; rounding, overflow, inf and NaN are not modelled.  Where the
      code divides by zero (the normal of a zero-area triangle in
      [get4thVertex], [NMag] in [getLaplacianMatrixCotangent]) numpy yields
      inf or NaN and the model yields [0] (Q's [x / 0]); the theorems about
      those paths assume non-degenerate triangles, or hold whatever the
      weights are.
    - Errors: each operation returns [result A]; [Err e] is the Python
      exception [e] propagating out of the function.  A vectorised numpy
      expression that would raise on any row raises the same exception in
      the model.
    - Indices are [nat]: numpy's negative indices are not representable.
    - No fuel: every loop of the code runs over a list (faces, frames,
      shifts), so every definition is structurally recursive and total; the
      frame loop's termination as a relation is proved, not assumed.
    - [scipy.sparse.linalg.lsqr] is a parameter specified by its contract
      (LSQR's iteration in floating point is not modelled; [Lsq.gs_lsqr] is
      an exact solver meeting the same contract, not a model of LSQR);
      [PolyMesh] (S3DGLPy) is modelled only by the [VPos] and [ITris] fields
      the code reads; after [.tocsr()]/[.tocoo()] only the summed matrix is
      kept, not the storage order.

    ** Not modelled
    Reading files ([loadOffFileExternal], [PolyMesh.loadFile],
    [sio.loadmat], [mesh.saveFile]): the contents read are arguments of the
    model.  OpenGL rendering, [needsDisplayUpdate] and the bounding boxes of
    [VideoMesh] are display state.  The incident areas [IA], [VA], [VC] that
    [getLaplacianMatrixCotangent] computes and never reads are left out.
    Floating-point rounding, NaN and infinities are not modelled (see
    Numbers above). *)

From Stdlib Require Import Arith QArith Qfield Lqa Lia List Setoid Morphisms.
Import ListNotations.
Open Scope nat_scope.

(** ** Python exceptions and the result monad *)

(** The exceptions the modelled code can raise: numpy/Python [IndexError]
    (fancy indexing out of range), [ValueError] (shape mismatch in an
    assignment, sparse index out of the declared shape), [AssertionError]
    ([assert]), numpy's [LinAlgError] ([np.linalg.inv] of a singular
    matrix), [NameError] (a name that is not bound, as [self] at module
    level in the [__main__] block), [TypeError] (a call with the wrong
    number of arguments) and [KeyError] (a missing key of a dictionary). *)
Inductive pyerr : Type :=
| IndexError
| ValueError
| AssertionError
| LinAlgError
| NameError
| TypeError
| KeyError.

Inductive result (A : Type) : Type :=
| Ok (a : A)
| Err (e : pyerr).
Arguments Ok {A} a.
Arguments Err {A} e.

Definition rbind {A B : Type} (m : result A) (f : A -> result B) : result B :=
  match m with
  | Ok a => f a
  | Err e => Err e
  end.

Declare Scope result_scope.
Delimit Scope result_scope with result.
Notation "'let*' x ':=' c1 'in' c2" := (rbind c1 (fun x => c2))
  (at level 200, x pattern, c1 at level 100, right associativity) : result_scope.
Open Scope result_scope.

(** [assert cond] *)
Definition check (b : bool) (e : pyerr) : result unit :=
  if b then Ok tt else Err e.

(** [a[i]] on a Python list or the first axis of a numpy array. *)
Definition get {A : Type} (l : list A) (i : nat) : result A :=
  match nth_error l i with
  | Some x => Ok x
  | None => Err IndexError
  end.

(** A vectorised computation over the rows of an array: the first failing
    row raises. *)
Fixpoint mapM {A B : Type} (f : A -> result B) (l : list A) : result (list B) :=
  match l with
  | [] => Ok []
  | x :: xs => let* y := f x in let* ys := mapM f xs in Ok (y :: ys)
  end.

(** Two computations that raise the same exception or return related
    values: the relational lifting of [R] to [result], with which two runs
    of the same code on related inputs are compared. *)
Definition res_rel {A B : Type} (R : A -> B -> Prop) (x : result A) (y : result B) : Prop :=
  match x, y with
  | Ok a, Ok b => R a b
  | Err e, Err e' => e = e'
  | _, _ => False
  end.

(** ** Vectors of rationals *)

Definition qsum (l : list Q) : Q := fold_right Qplus 0%Q l.

(** The comparison [x < y] of two floats. *)
Definition Qlt_bool (x y : Q) : bool := negb (Qle_bool y x).

(** Two Q-vectors are equal entrywise, up to [Qeq]. *)
Definition qleq : list Q -> list Q -> Prop := Forall2 Qeq.

Create HintDb dt.

(** ** Lemmas on the result monad *)

Lemma rbind_Ok {A B : Type} (m : result A) (f : A -> result B) (b : B) :
  rbind m f = Ok b <-> exists a, m = Ok a /\ f a = Ok b.
Proof.
  destruct m as [a|e]; simpl; split.
  - intros H. eauto.
  - intros (a' & [= ->] & H). exact H.
  - discriminate.
  - intros (a' & H & _). discriminate.
Qed.

Lemma rbind_Err {A B : Type} (m : result A) (f : A -> result B) e :
  m = Err e -> rbind m f = Err e.
Proof. intros ->. reflexivity. Qed.

Lemma rbind_ok_l {A B : Type} (a : A) (f : A -> result B) :
  rbind (Ok a) f = f a.
Proof. reflexivity. Qed.

(** Splits every [rbind _ _ = Ok _] hypothesis into its two halves. *)
Ltac inv_ok :=
  repeat match goal with
  | H : rbind _ _ = Ok _ |- _ =>
      apply rbind_Ok in H; destruct H as (? & ? & H)
  | H : Ok _ = Ok _ |- _ => injection H as H
  | H : Ok _ = Err _ |- _ => discriminate H
  | H : Err _ = Ok _ |- _ => discriminate H
  end.

(** Proves [Forall P l] for an explicit list [l], closing each element's
    goal with [tac]. *)
Ltac forall_list tac :=
  apply Forall_forall; let x := fresh "x" in let Hx := fresh "Hx" in
  intros x Hx; simpl in Hx;
  repeat (destruct Hx as [<-|Hx]; [simpl; tac|]); contradiction.

(** Decides every [a =? b] on [nat] in the goal, dropping the branches
    whose arithmetic is contradictory. *)
Ltac decide_nat_eqb :=
  repeat match goal with
  | |- context [Nat.eqb ?a ?b] => destruct (Nat.eqb_spec a b); try (exfalso; lia)
  end.

Lemma check_Ok b e : check b e = Ok tt <-> b = true.
Proof. destruct b; simpl; split; congruence. Qed.

Lemma get_Ok {A : Type} (l : list A) i x : get l i = Ok x <-> nth_error l i = Some x.
Proof. unfold get. destruct (nth_error l i); split; congruence. Qed.

Lemma get_lt {A : Type} (l : list A) i : i < length l -> exists x, get l i = Ok x.
Proof.
  intros H. unfold get. destruct (nth_error l i) eqn:E; [eauto|].
  apply nth_error_None in E. lia.
Qed.

Lemma get_app_l {A : Type} (l1 l2 : list A) i :
  i < length l1 -> get (l1 ++ l2) i = get l1 i.
Proof. intros H. unfold get. rewrite nth_error_app1 by exact H. reflexivity. Qed.

Lemma mapM_Ok {A B : Type} (f : A -> result B) l ys :
  mapM f l = Ok ys <-> Forall2 (fun x y => f x = Ok y) l ys.
Proof.
  revert ys. induction l as [|x l IH]; intros ys; simpl.
  - split; [intros [= <-]; constructor | intros H; inversion H; reflexivity].
  - split.
    + intros H. inv_ok. subst. constructor; [assumption | apply IH; assumption].
    + intros H. inversion H as [|? y ? ys' Hy Hys]; subst.
      rewrite Hy. simpl. apply IH in Hys. rewrite Hys. reflexivity.
Qed.

Lemma mapM_length {A B : Type} (f : A -> result B) l ys :
  mapM f l = Ok ys -> length ys = length l.
Proof. intros H. apply mapM_Ok in H. symmetry. eapply Forall2_length. exact H. Qed.

Lemma mapM_total {A B : Type} (f : A -> result B) l :
  (forall x, In x l -> exists y, f x = Ok y) -> exists ys, mapM f l = Ok ys.
Proof.
  induction l as [|x l IH]; intros H; simpl; [eexists; reflexivity|].
  destruct (H x (or_introl eq_refl)) as [y Hy]. rewrite Hy. simpl.
  destruct IH as [ys Hys]; [intros z Hz; apply H; right; exact Hz|].
  rewrite Hys. eexists; reflexivity.
Qed.

(** [mapM] succeeds when [f] succeeds on every element, and the results
    keep any property each success was known to have. *)
Lemma mapM_total_Forall {A B : Type} (f : A -> result B) (Q : B -> Prop) l :
  Forall (fun x => exists y, f x = Ok y /\ Q y) l -> exists ys, mapM f l = Ok ys /\ Forall Q ys.
Proof.
  induction 1 as [|x l (y & Hy & HQ) _ (ys & Hys & HQs)]; [exists []; split; constructor|].
  exists (y :: ys). cbn. rewrite Hy, Hys. split; [reflexivity | constructor; assumption].
Qed.

(** When every failure of [f] is the error [e], a row on which [f] fails
    makes the whole computation raise [e]. *)
Lemma mapM_Err {A B : Type} (f : A -> result B) l e :
  (forall x e', f x = Err e' -> e' = e) -> (exists x, In x l /\ forall y, f x <> Ok y) ->
  mapM f l = Err e.
Proof.
  intros Hf Hx. induction l as [|x l IH]; [destruct Hx as (? & [] & _)|]. simpl.
  destruct (f x) as [y|e'] eqn:Ex; simpl; [|f_equal; exact (Hf _ _ Ex)].
  destruct (mapM f l) as [ys|e'] eqn:El; simpl.
  - exfalso. destruct Hx as (z & [<-|Hz] & Hn); [exact (Hn y Ex)|].
    assert (Hz' : exists z, In z l /\ forall y, f z <> Ok y) by eauto.
    specialize (IH Hz'). discriminate.
  - apply IH. destruct Hx as (z & [<-|Hz] & Hn); [exfalso; exact (Hn y Ex)|eauto].
Qed.

(** A boolean check that fails on a list fails on one of its elements. *)
Lemma not_Forall_true {A : Type} (f : A -> bool) l :
  ~ Forall (fun x => f x = true) l -> exists x, In x l /\ f x = false.
Proof.
  induction l as [|a l IH]; intros H; [exfalso; apply H; constructor|].
  destruct (f a) eqn:E; [|exists a; split; [left; reflexivity | exact E]].
  destruct IH as (x & Hx & Hf); [intros Hl; apply H; constructor; assumption|].
  exists x. split; [right; exact Hx | exact Hf].
Qed.

Lemma mapM_map {A B : Type} (f : A -> B) l : mapM (fun x => Ok (f x)) l = Ok (map f l).
Proof. induction l as [|x l IH]; simpl; [reflexivity|]. rewrite IH. reflexivity. Qed.

Lemma Forall2_nth_l {A B : Type} (R : A -> B -> Prop) l1 l2 i x :
  Forall2 R l1 l2 -> nth_error l1 i = Some x -> exists y, nth_error l2 i = Some y /\ R x y.
Proof.
  intros H. revert i. induction H as [|a b l1 l2 Hab _ IH]; intros [|i] Hi; simpl in *;
    try discriminate; [injection Hi as <-; eauto | apply IH; exact Hi].
Qed.

Lemma Forall2_nth_r {A B : Type} (R : A -> B -> Prop) l1 l2 i y :
  Forall2 R l1 l2 -> nth_error l2 i = Some y -> exists x, nth_error l1 i = Some x /\ R x y.
Proof.
  intros H. revert i. induction H as [|a b l1 l2 Hab _ IH]; intros [|i] Hi; simpl in *;
    try discriminate; [injection Hi as <-; eauto | apply IH; exact Hi].
Qed.

Lemma Forall_combine_fst {A B : Type} (P : A -> Prop) (l1 : list A) (l2 : list B) :
  Forall P l1 -> Forall (fun p => P (fst p)) (combine l1 l2).
Proof.
  intros H. revert l2. induction H as [|x l1 Hx _ IH]; intros [|y l2]; simpl; constructor;
    [exact Hx | apply IH].
Qed.

Lemma nth_error_combine {A B : Type} (l1 : list A) (l2 : list B) i :
  nth_error (combine l1 l2) i =
  match nth_error l1 i, nth_error l2 i with
  | Some a, Some b => Some (a, b)
  | _, _ => None
  end.
Proof.
  revert l2 i. induction l1 as [|a l1 IH]; intros [|b l2] [|i]; simpl; try reflexivity.
  - destruct (nth_error l1 i); reflexivity.
  - apply IH.
Qed.

Lemma map_fst_combine_le {A B : Type} (l1 : list A) (l2 : list B) :
  length l1 <= length l2 -> map fst (combine l1 l2) = l1.
Proof.
  revert l2. induction l1 as [|a l1 IH]; intros [|b l2] H; simpl in *; try reflexivity; [lia|].
  rewrite IH by lia. reflexivity.
Qed.

Lemma nth_map_Some {A B : Type} (f : A -> B) l j x d :
  nth_error l j = Some x -> nth j (map f l) d = f x.
Proof. intros H. apply nth_error_nth. rewrite nth_error_map, H. reflexivity. Qed.

Lemma Forall2_nth_intro {A B : Type} (R : A -> B -> Prop) l1 l2 :
  length l1 = length l2 ->
  (forall i a b, nth_error l1 i = Some a -> nth_error l2 i = Some b -> R a b) ->
  Forall2 R l1 l2.
Proof.
  revert l2. induction l1 as [|a l1 IH]; intros [|b l2] Hl H; simpl in Hl; try discriminate;
    constructor.
  - apply (H 0); reflexivity.
  - apply IH; [congruence|]. intros i x y Hx Hy. apply (H (S i)); assumption.
Qed.

(** [zip(l, range(s, s + len(l)))] *)
Lemma nth_error_combine_seq {A : Type} (l : list A) s i :
  nth_error (combine l (seq s (length l))) i = option_map (fun x => (x, s + i)) (nth_error l i).
Proof.
  revert s i. induction l as [|x l IH]; intros s [|i]; simpl; try reflexivity.
  - rewrite Nat.add_0_r. reflexivity.
  - rewrite IH. destruct (nth_error l i); simpl; [rewrite Nat.add_succ_r|]; reflexivity.
Qed.

(** ** Relating two computations *)

Lemma Forall2_combine {A B C D : Type} (R1 : A -> C -> Prop) (R2 : B -> D -> Prop) l1 l2 l1' l2' :
  Forall2 R1 l1 l1' -> Forall2 R2 l2 l2' ->
  Forall2 (fun p p' => R1 (fst p) (fst p') /\ R2 (snd p) (snd p')) (combine l1 l2) (combine l1' l2').
Proof.
  intros H1. revert l2 l2'. induction H1 as [|a c l1 l1' Ha _ IH]; intros l2 l2' H2; [constructor|].
  destruct H2 as [|b d l2 l2' Hb H2]; cbn; constructor; auto.
Qed.

Lemma res_rel_bind {A B C D : Type} (R : A -> B -> Prop) (R' : C -> D -> Prop) x y f g :
  res_rel R x y -> (forall a b, R a b -> res_rel R' (f a) (g b)) -> res_rel R' (rbind x f) (rbind y g).
Proof. destruct x, y; cbn; intros H Hf; [exact (Hf _ _ H) | contradiction | contradiction | exact H]. Qed.

(** The same continuation on both sides. *)
Lemma res_rel_bind_same {A C D : Type} (R' : C -> D -> Prop) (x : result A) f g :
  (forall a, res_rel R' (f a) (g a)) -> res_rel R' (rbind x f) (rbind x g).
Proof. intros Hf. destruct x; cbn; [apply Hf | reflexivity]. Qed.

Lemma res_rel_refl {A : Type} (R : A -> A -> Prop) x : (forall a, R a a) -> res_rel R x x.
Proof. intros HR. destruct x; cbn; [apply HR | reflexivity]. Qed.

Lemma res_rel_eq {A : Type} (x y : result A) : res_rel eq x y -> x = y.
Proof. destruct x, y; cbn; intros H; try contradiction; subst; reflexivity. Qed.

Lemma res_rel_impl {A B : Type} (R R' : A -> B -> Prop) x y :
  (forall a b, R a b -> R' a b) -> res_rel R x y -> res_rel R' x y.
Proof. destruct x, y; cbn; auto. Qed.

(** Related lists raise on the same index and return related rows. *)
Lemma get_rel {A B : Type} (R : A -> B -> Prop) l1 l2 i :
  Forall2 R l1 l2 -> res_rel R (get l1 i) (get l2 i).
Proof.
  intros HF. unfold get. revert i. induction HF as [|a b l1 l2 Hab _ IH]; intros [|i]; cbn; auto.
Qed.

Lemma mapM_rel {A B C : Type} (f : A -> result B) (g : A -> result C) (R : B -> C -> Prop) l :
  (forall x, In x l -> res_rel R (f x) (g x)) -> res_rel (Forall2 R) (mapM f l) (mapM g l).
Proof.
  induction l as [|x l IH]; intros H; cbn; [constructor|].
  apply (res_rel_bind R); [apply H; left; reflexivity|]. intros a b Hab.
  apply (res_rel_bind (Forall2 R)); [apply IH; intros y Hy; apply H; right; exact Hy|].
  intros as_ bs Hs. cbn. constructor; assumption.
Qed.

(** ** Lemmas on sums and Q-vectors *)

#[export] Instance qleq_Equivalence : Equivalence qleq.
Proof.
  unfold qleq. split.
  - intros l. induction l; constructor; [reflexivity | assumption].
  - intros l1 l2 H. induction H; constructor; [symmetry; assumption | assumption].
  - intros l1 l2 l3 H12. revert l3. induction H12 as [|x y l1 l2 Hxy H IH]; intros l3 H23;
      inversion H23; subst; constructor; [rewrite Hxy; assumption | apply IH; assumption].
Qed.

#[export] Instance qsum_Proper : Proper (qleq ==> Qeq) qsum.
Proof.
  intros l1 l2 H. induction H as [|x y l1 l2 Hxy _ IH]; simpl; [reflexivity|].
  rewrite Hxy, IH. reflexivity.
Qed.

Lemma qsum_app l1 l2 : (qsum (l1 ++ l2) == qsum l1 + qsum l2)%Q.
Proof.
  induction l1 as [|x l1 IH]; simpl.
  - ring.
  - rewrite IH. ring.
Qed.

(** Sums of a function over a list of indices. *)
Lemma qsum_map_ext {A : Type} (f g : A -> Q) l :
  (forall a, In a l -> (f a == g a)%Q) -> (qsum (map f l) == qsum (map g l))%Q.
Proof.
  induction l as [|a l IH]; intros H; simpl; [reflexivity|].
  rewrite (H a (or_introl eq_refl)), IH; [reflexivity|]. intros b Hb. apply H. right. exact Hb.
Qed.

Lemma qsum_map_add {A : Type} (f g : A -> Q) l :
  (qsum (map (fun a => f a + g a) l) == qsum (map f l) + qsum (map g l))%Q.
Proof. induction l as [|a l IH]; simpl; [ring|]. rewrite IH. ring. Qed.

Lemma qsum_map_zero {A : Type} (f : A -> Q) l :
  (forall a, In a l -> (f a == 0)%Q) -> (qsum (map f l) == 0)%Q.
Proof.
  intros H. transitivity (qsum (map (fun _ : A => 0%Q) l)); [apply qsum_map_ext; exact H|].
  clear H. induction l as [|a l IH]; simpl; [reflexivity|]. rewrite IH. ring.
Qed.

(** Over the indices [s .. s+n-1], the sum of a value at one index [j] is
    that value. *)
Lemma qsum_indicator (a : Q) j s n :
  s <= j < s + n -> (qsum (map (fun c => if c =? j then a else 0%Q) (seq s n)) == a)%Q.
Proof.
  revert s. induction n as [|n IH]; intros s Hj; [lia|]. cbn [seq map qsum fold_right].
  destruct (Nat.eqb_spec s j) as [<-|Hne].
  - fold (qsum (map (fun c => if c =? s then a else 0%Q) (seq (S s) n))).
    rewrite qsum_map_zero; [ring|]. intros c Hc%in_seq.
    destruct (Nat.eqb_spec c s); [lia | reflexivity].
  - fold (qsum (map (fun c => if c =? j then a else 0%Q) (seq (S s) n))).
    rewrite IH; [ring | lia].
Qed.

Lemma qleq_app l1 l2 m1 m2 : qleq l1 m1 -> qleq l2 m2 -> qleq (l1 ++ l2) (m1 ++ m2).
Proof. intros H1 H2. apply Forall2_app; assumption. Qed.

Lemma qleq_length l1 l2 : qleq l1 l2 -> length l1 = length l2.
Proof. apply Forall2_length. Qed.

Lemma qleq_nth l1 l2 : qleq l1 l2 -> forall i, (nth i l1 0 == nth i l2 0)%Q.
Proof.
  intros H. induction H as [|x y l1 l2 Hxy _ IH]; intros [|i]; simpl; auto; reflexivity.
Qed.

Lemma Qlt_bool_iff x y : Qlt_bool x y = true <-> (x < y)%Q.
Proof.
  unfold Qlt_bool. rewrite Bool.negb_true_iff. split.
  - intros H. apply Qnot_le_lt. intros Hle. apply Qle_bool_iff in Hle. congruence.
  - intros H. destruct (Qle_bool y x) eqn:E; [|reflexivity].
    apply Qle_bool_iff in E. exfalso. apply (Qlt_not_le _ _ H E).
Qed.

Lemma Qsq_nonneg (d : Q) : (0 <= d * d)%Q.
Proof. nra. Qed.

Lemma Qsq_zero (d : Q) : (d * d == 0)%Q -> (d == 0)%Q.
Proof.
  intros H. destruct (Qeq_dec d 0) as [E|E]; [exact E|].
  destruct (Qlt_le_dec d 0) as [L|L]; [nra|].
  assert (0 < d)%Q by (apply Qle_lt_or_eq in L as [L|L]; [exact L | symmetry in L; contradiction]).
  nra.
Qed.

#[export] Hint Resolve qleq_app Qsq_nonneg : dt.
