(* ===== verification/Linalg.v ===== *)
(** * Linalg: the numpy primitives on 3-vectors and 3x3 matrices

    A row of an [N x 3] numpy array is a [vec3]; a 3x3 array is a [mat3]
    given by its rows.  The operations are the numpy calls of
    [src/DeformationTransfer.py]: [np.cross], the row-wise [np.sum(x*y, 1)],
    [np.vstack(...).T] ([mcols]), [np.dot] ([mmul]) and [np.linalg.inv]
    ([inv3], which raises [LinAlgError] on a singular matrix).  [np.sqrt] is
    the interface [SqrtOp]: the development relies only on its two laws.
    Equality of vectors and matrices is entrywise [Qeq] ([veq], [meq]), with
    the [Proper] instances that let [rewrite] work under every operation. *)

From Stdlib Require Import QArith Qfield Lqa Lia List Setoid Morphisms ZArith.
From S2P Require Import Prelude.
Import ListNotations.
Open Scope Q_scope.

(** ** Vectors *)

Record vec3 : Type := V3 { vx : Q; vy : Q; vz : Q }.

Definition vadd (a b : vec3) : vec3 := V3 (vx a + vx b) (vy a + vy b) (vz a + vz b).
Definition vsub (a b : vec3) : vec3 := V3 (vx a - vx b) (vy a - vy b) (vz a - vz b).
(** [v / s] with a scalar broadcast over the row. *)
Definition vdivs (v : vec3) (s : Q) : vec3 := V3 (vx v / s) (vy v / s) (vz v / s).
Definition vscale (s : Q) (v : vec3) : vec3 := V3 (s * vx v) (s * vy v) (s * vz v).
(** [np.sum(a*b, 1)] on one row. *)
Definition dot (a b : vec3) : Q := vx a * vx b + vy a * vy b + vz a * vz b.
(** [np.sum(a**2, 1)] on one row. *)
Definition sumsq (a : vec3) : Q := vx a ^ 2 + vy a ^ 2 + vz a ^ 2.
(** [np.cross] on one row. *)
Definition cross (a b : vec3) : vec3 :=
  V3 (vy a * vz b - vz a * vy b) (vz a * vx b - vx a * vz b) (vx a * vy b - vy a * vx b).
(** Column [k] of a row ([VPos[:, k]] for one vertex). *)
Definition vcoord (k : nat) (v : vec3) : Q :=
  match k with 0%nat => vx v | 1%nat => vy v | _ => vz v end.

Definition vzero : vec3 := V3 0 0 0.

Definition veq (a b : vec3) : Prop := vx a == vx b /\ vy a == vy b /\ vz a == vz b.

(** ** Matrices *)

Record mat3 : Type := M3 { row0 : vec3; row1 : vec3; row2 : vec3 }.

Definition mrowv (a : nat) (M : mat3) : vec3 :=
  match a with 0%nat => row0 M | 1%nat => row1 M | _ => row2 M end.
Definition mentry (M : mat3) (a k : nat) : Q := vcoord k (mrowv a M).
Arguments vcoord k%_nat v.
Arguments mrowv a%_nat M.
Arguments mentry M (a k)%_nat.

(** Row [a] as a piece of a numpy row ([M[a, :]]). *)
Definition mrow (a : nat) (M : mat3) : list Q := [mentry M a 0; mentry M a 1; mentry M a 2].

(** [np.vstack((c0, c1, c2)).T]: the matrix whose columns are [c0 c1 c2]. *)
Definition mcols (c0 c1 c2 : vec3) : mat3 :=
  M3 (V3 (vx c0) (vx c1) (vx c2)) (V3 (vy c0) (vy c1) (vy c2)) (V3 (vz c0) (vz c1) (vz c2)).

Definition mcol (k : nat) (M : mat3) : vec3 :=
  V3 (mentry M 0 k) (mentry M 1 k) (mentry M 2 k).

(** [np.dot(A, B)] *)
Definition mmul (A B : mat3) : mat3 :=
  let e a k := mentry A a 0 * mentry B 0 k + mentry A a 1 * mentry B 1 k
               + mentry A a 2 * mentry B 2 k in
  (M3 (V3 (e 0 0) (e 0 1) (e 0 2)) (V3 (e 1 0) (e 1 1) (e 1 2))
      (V3 (e 2 0) (e 2 1) (e 2 2)))%nat.

(** [np.dot(M, v)] for a column vector [v]. *)
Definition mvmul (M : mat3) (v : vec3) : vec3 :=
  V3 (dot (row0 M) v) (dot (row1 M) v) (dot (row2 M) v).

Definition mid : mat3 := M3 (V3 1 0 0) (V3 0 1 0) (V3 0 0 1).

Definition mtrans (M : mat3) : mat3 := mcols (row0 M) (row1 M) (row2 M).

Definition mdet (M : mat3) : Q := dot (row0 M) (cross (row1 M) (row2 M)).

(** The adjugate (transposed cofactor matrix). *)
Definition madj (M : mat3) : mat3 :=
  mcols (cross (row1 M) (row2 M)) (cross (row2 M) (row0 M)) (cross (row0 M) (row1 M)).

Definition mscale (s : Q) (M : mat3) : mat3 :=
  M3 (vscale s (row0 M)) (vscale s (row1 M)) (vscale s (row2 M)).

(** [np.linalg.inv]: LAPACK raises [LinAlgError("Singular matrix")] exactly
    when the matrix is singular; in exact arithmetic the inverse is the
    adjugate over the determinant. *)
Definition inv3 (M : mat3) : result mat3 :=
  if Qeq_bool (mdet M) 0 then Err LinAlgError else Ok (mscale (/ mdet M) (madj M)).

Definition meq (A B : mat3) : Prop :=
  veq (row0 A) (row0 B) /\ veq (row1 A) (row1 B) /\ veq (row2 A) (row2 B).

(** ** The [np.sqrt] interface *)

(** numpy's square root, of which the model uses two laws: it respects
    [Qeq], and it is positive on positive arguments.  Exactness on squares
    is a hypothesis of the theorems that need it. *)
Class SqrtOp : Type := {
  qsqrt : Q -> Q;
  qsqrt_proper : Proper (Qeq ==> Qeq) qsqrt;
  qsqrt_pos : forall x, 0 < x -> 0 < qsqrt x
}.

(** An instance used to run the model: the floor of the square root of the
    reduced fraction's numerator times denominator, over the denominator;
    it is exact on squares of rationals. *)
Definition Qsqrt_floor (q : Q) : Q :=
  let r := Qred q in Z.sqrt (Qnum r * Zpos (Qden r)) # Qden r.

(** ** Setoid structure *)

#[export] Instance veq_Equivalence : Equivalence veq.
Proof.
  unfold veq. split.
  - intros a. repeat split; reflexivity.
  - intros a b (? & ? & ?). repeat split; symmetry; assumption.
  - intros a b c (? & ? & ?) (? & ? & ?). repeat split; etransitivity; eassumption.
Qed.

#[export] Instance meq_Equivalence : Equivalence meq.
Proof.
  unfold meq. split.
  - intros A. split; [|split]; reflexivity.
  - intros A B (? & ? & ?). split; [|split]; symmetry; assumption.
  - intros A B C (? & ? & ?) (? & ? & ?). split; [|split]; etransitivity; eassumption.
Qed.

(** Unfolds vectors and matrices into their nine or three rational entries. *)
Ltac vec_unfold :=
  unfold meq, veq, mmul, mcols, mcol, mentry, mrowv, vcoord, mid, mtrans, mdet, madj,
    mscale, mvmul, vscale, vadd, vsub, vdivs, dot, sumsq, cross in *; simpl in *.

Ltac vec_destruct :=
  repeat match goal with
  | M : mat3 |- _ => destruct M
  | v : vec3 |- _ => destruct v
  end.

(** Closes an entrywise identity of vectors and matrices by [ring] after
    rewriting with the hypotheses of entry equalities. *)
Ltac vec_ring :=
  vec_destruct; vec_unfold;
  repeat match goal with H : _ /\ _ |- _ => destruct H end;
  repeat split;
  repeat match goal with H : ?x == _ |- _ => is_var x; rewrite H; clear H end;
  ring.

#[export] Instance vadd_Proper : Proper (veq ==> veq ==> veq) vadd.
Proof. intros a a' Ha b b' Hb. vec_ring. Qed.
#[export] Instance vsub_Proper : Proper (veq ==> veq ==> veq) vsub.
Proof. intros a a' Ha b b' Hb. vec_ring. Qed.
#[export] Instance dot_Proper : Proper (veq ==> veq ==> Qeq) dot.
Proof. intros a a' Ha b b' Hb. vec_ring. Qed.
#[export] Instance cross_Proper : Proper (veq ==> veq ==> veq) cross.
Proof. intros a a' Ha b b' Hb. vec_ring. Qed.
#[export] Instance sumsq_Proper : Proper (veq ==> Qeq) sumsq.
Proof. intros a a' Ha. vec_ring. Qed.
#[export] Instance vcoord_Proper k : Proper (veq ==> Qeq) (vcoord k).
Proof. intros a a' (H1 & H2 & H3). destruct k as [|[|k]]; assumption. Qed.
#[export] Instance vdivs_Proper : Proper (veq ==> Qeq ==> veq) vdivs.
Proof.
  intros a a' (H1 & H2 & H3) s s' Hs. unfold vdivs, veq. simpl.
  rewrite H1, H2, H3, Hs. repeat split; reflexivity.
Qed.
#[export] Instance mcols_Proper : Proper (veq ==> veq ==> veq ==> meq) mcols.
Proof. intros a a' Ha b b' Hb c c' Hc. vec_ring. Qed.
#[export] Instance mmul_Proper : Proper (meq ==> meq ==> meq) mmul.
Proof. intros A A' HA B B' HB. vec_ring. Qed.
#[export] Instance mentry_Proper : Proper (meq ==> eq ==> eq ==> Qeq) mentry.
Proof.
  intros A B (H0 & H1 & H2) a ? <- k ? <-. unfold mentry.
  destruct a as [|[|a]]; simpl; apply vcoord_Proper; assumption.
Qed.
#[export] Instance mdet_Proper : Proper (meq ==> Qeq) mdet.
Proof. intros A B HA. vec_ring. Qed.

(** Two matrices are equal when their nine entries are. *)
Lemma meq_entries A B :
  (forall a k, (a < 3)%nat -> (k < 3)%nat -> mentry A a k == mentry B a k) -> meq A B.
Proof.
  intros H. destruct A as [[] [] []], B as [[] [] []]. unfold meq, veq. simpl.
  assert (H' : forall a k, (a < 3)%nat -> (k < 3)%nat -> mentry (M3 (V3 vx0 vy0 vz0) (V3 vx1 vy1 vz1)
    (V3 vx2 vy2 vz2)) a k == mentry (M3 (V3 vx3 vy3 vz3) (V3 vx4 vy4 vz4) (V3 vx5 vy5 vz5)) a k)
    by exact H.
  clear H. repeat split;
    [ apply (H' O O) | apply (H' O (S O)) | apply (H' O (S (S O))) | apply (H' (S O) O)
    | apply (H' (S O) (S O)) | apply (H' (S O) (S (S O))) | apply (H' (S (S O)) O)
    | apply (H' (S (S O)) (S O)) | apply (H' (S (S O)) (S (S O))) ]; lia.
Qed.

(** ** Algebra *)

Lemma mmul_assoc A B C : meq (mmul A (mmul B C)) (mmul (mmul A B) C).
Proof. vec_ring. Qed.

Lemma mmul_id_l A : meq (mmul mid A) A.
Proof. vec_ring. Qed.

Lemma mmul_id_r A : meq (mmul A mid) A.
Proof. vec_ring. Qed.

(** The determinant of the matrix with columns [a b c] is the triple
    product. *)
Lemma mdet_mcols a b c : mdet (mcols a b c) == dot (cross a b) c.
Proof. vec_ring. Qed.

Lemma inv3_Ok M W :
  inv3 M = Ok W <-> ~ mdet M == 0 /\ W = mscale (/ mdet M) (madj M).
Proof.
  unfold inv3. destruct (Qeq_bool (mdet M) 0) eqn:E.
  - apply Qeq_bool_iff in E. split; [discriminate | intros [H _]; contradiction].
  - apply Qeq_bool_neq in E. split; [intros [= <-]; auto | intros [_ ->]; reflexivity].
Qed.

Lemma inv3_Err M : inv3 M = Err LinAlgError <-> mdet M == 0.
Proof.
  unfold inv3. destruct (Qeq_bool (mdet M) 0) eqn:E.
  - apply Qeq_bool_iff in E. split; auto.
  - apply Qeq_bool_neq in E. split; [discriminate | contradiction].
Qed.

(** [inv3] computes a right inverse ... *)
Lemma inv3_r M W : inv3 M = Ok W -> meq (mmul M W) mid.
Proof.
  intros [Hd ->]%inv3_Ok. revert Hd. vec_destruct. vec_unfold. intros Hd.
  repeat split; field; exact Hd.
Qed.

(** ... which is also a left inverse. *)
Lemma inv3_l M W : inv3 M = Ok W -> meq (mmul W M) mid.
Proof.
  intros [Hd ->]%inv3_Ok. revert Hd. vec_destruct. vec_unfold. intros Hd.
  repeat split; field; exact Hd.
Qed.

Lemma inv3_nonsingular M : ~ mdet M == 0 -> exists W, inv3 M = Ok W.
Proof. intros Hd. eexists. apply inv3_Ok. split; [exact Hd | reflexivity]. Qed.

(** [inv3] depends only on the [Qeq] class of its entries. *)
Lemma inv3_Proper M M' W : meq M M' -> inv3 M = Ok W ->
  exists W', inv3 M' = Ok W' /\ meq W W'.
Proof.
  intros HM HW. pose proof (inv3_r _ _ HW) as HR. apply inv3_Ok in HW as [Hd _].
  destruct (inv3_nonsingular M') as [W' HW']; [rewrite <- HM; exact Hd|].
  exists W'. split; [exact HW'|].
  pose proof (inv3_l _ _ HW') as HL.
  transitivity (mmul (mmul W' M') W); [|rewrite <- mmul_assoc].
  - rewrite HL. symmetry. apply mmul_id_l.
  - rewrite <- HM, HR. apply mmul_id_r.
Qed.

(** A matrix that [W = V^-1] sends to the identity is [V]. *)
Lemma mmul_inv_id E V W : inv3 V = Ok W -> meq (mmul E W) mid -> meq E V.
Proof.
  intros HW HE. rewrite <- (mmul_id_r E), <- (inv3_l _ _ HW), mmul_assoc, HE. apply mmul_id_l.
Qed.

#[export] Hint Resolve inv3_r inv3_l mmul_id_l mmul_id_r : dt.

(** ** The [Qsqrt_floor] instance *)

#[export] Instance Qsqrt_floor_proper : Proper (Qeq ==> Qeq) Qsqrt_floor.
Proof. intros x y Hxy. unfold Qsqrt_floor. rewrite (Qred_complete x y Hxy). reflexivity. Qed.

Lemma Qsqrt_floor_pos x : 0 < x -> 0 < Qsqrt_floor x.
Proof.
  intros Hx. unfold Qsqrt_floor.
  assert (Hr : 0 < Qred x) by (rewrite Qred_correct; exact Hx).
  destruct (Qred x) as [n d]. unfold Qlt in *. simpl in *.
  assert (0 < Z.sqrt (n * Zpos d))%Z; [|lia].
  apply Z.sqrt_pos. nia.
Qed.

#[export] Instance Qsqrt_floor_SqrtOp : SqrtOp :=
  {| qsqrt := Qsqrt_floor; qsqrt_proper := Qsqrt_floor_proper; qsqrt_pos := Qsqrt_floor_pos |}.

#[export] Existing Instance qsqrt_proper.
