(* ===== verification/Sparse.v ===== *)
(** * Sparse: scipy sparse matrices in triplet form and the [lsqr] contract

    [src/DeformationTransfer.py] builds every sparse operator as parallel
    lists [I], [J], [V] of rows, columns and values, handed to
    [sparse.coo_matrix((V, (I, J)), shape=...)] and converted by [.tocsr()],
    which sums duplicate entries.  [spmat] keeps the shape and the triplet
    list (the three parallel lists zipped); [coo_matrix] is the constructor
    with scipy's shape check; [row_dot] and [spmv] give the dense meaning,
    in which duplicates add up.  [resid2] is the squared residual norm that
    [scipy.sparse.linalg.lsqr] minimises, and [is_lsq] is its contract: the
    solver itself is a library primitive and is not modelled.  [spmv_dense]
    proves the triplet product equal to the product with the dense matrix
    of summed entries ([sp_entry], [dense_mv]). *)

From Stdlib Require Import Arith ZArith QArith Qfield Lqa Lia List Setoid Morphisms.
From S2P Require Import Prelude.
Import ListNotations.
Open Scope nat_scope.

(** ** Definitions *)

Definition triplet : Type := (nat * nat * Q)%type.

Record spmat : Type := SpMat {
  sp_rows : nat;
  sp_cols : nat;
  sp_trip : list triplet
}.

Definition trip_row (t : triplet) : nat := fst (fst t).
Definition trip_col (t : triplet) : nat := snd (fst t).
Definition trip_val (t : triplet) : Q := snd t.

(** [sparse.coo_matrix((V, (I, J)), shape=(nr, nc))]: scipy raises
    [ValueError] when a row or column index exceeds the shape. *)
Definition coo_matrix (T : list triplet) (nr nc : nat) : result spmat :=
  if forallb (fun t => (trip_row t <? nr) && (trip_col t <? nc)) T
  then Ok (SpMat nr nc T)
  else Err ValueError.

(** Row [r] of [A.dot(x)]: every stored triplet of row [r] contributes,
    duplicates included. *)
Definition row_dot (T : list triplet) (r : nat) (x : list Q) : Q :=
  fold_right (fun t acc => if trip_row t =? r then (trip_val t * nth (trip_col t) x 0 + acc)%Q
                           else acc) 0%Q T.

(** [A.dot(x)] *)
Definition spmv (A : spmat) (x : list Q) : list Q :=
  map (fun r => row_dot (sp_trip A) r x) (seq 0 (sp_rows A)).

(** The summed entry [(r, c)] of a triplet list: what [.tocsr()] stores. *)
Definition trip_entry (T : list triplet) (r c : nat) : Q :=
  qsum (map trip_val (filter (fun t => (trip_row t =? r) && (trip_col t =? c)) T)).

(** The dense entry [A[r, c]] of the summed matrix. *)
Definition sp_entry (A : spmat) (r c : nat) : Q := trip_entry (sp_trip A) r c.

(** [A.dot(x)] on the dense matrix [A.toarray()]: the reference the triplet
    product [spmv] is proved equal to. *)
Definition dense_mv (A : spmat) (x : list Q) : list Q :=
  map (fun r => qsum (map (fun c => sp_entry A r c * nth c x 0)%Q (seq 0 (sp_cols A))))
      (seq 0 (sp_rows A)).

(** [||A x - b||^2] *)
Definition resid2 (A : spmat) (b x : list Q) : Q :=
  qsum (map (fun p => (fst p - snd p) * (fst p - snd p))%Q (combine (spmv A x) b)).

(** The contract of [lsqr(A, b)[0]]: a vector of the column dimension whose
    residual is least among all such vectors. *)
Definition is_lsq (A : spmat) (b x : list Q) : Prop :=
  length x = sp_cols A /\ forall y, length y = sp_cols A -> (resid2 A b x <= resid2 A b y)%Q.

(** The squared Euclidean norm, minimised by [lsqr] among least-squares
    solutions when it starts from zero. *)
Definition norm2 (x : list Q) : Q := qsum (map (fun q => q * q)%Q x).

Definition is_minnorm_lsq (A : spmat) (b x : list Q) : Prop :=
  is_lsq A b x /\ forall y, is_lsq A b y -> (norm2 x <= norm2 y)%Q.

(** The sum of the stored values of row [r] (the row sum of the summed
    matrix). *)
Definition row_sum (T : list triplet) (r : nat) : Q :=
  fold_right (fun t acc => if trip_row t =? r then (trip_val t + acc)%Q else acc) 0%Q T.

(** The vector [x + c] (every entry shifted by [c]). *)
Definition qshift (c : Q) (x : list Q) : list Q := map (fun q => q + c)%Q x.

(** ** Construction *)

Lemma coo_matrix_Ok T nr nc A :
  coo_matrix T nr nc = Ok A <->
  A = SpMat nr nc T /\ Forall (fun t => trip_row t < nr /\ trip_col t < nc) T.
Proof.
  unfold coo_matrix.
  destruct (forallb _ T) eqn:E.
  - rewrite forallb_forall in E. split.
    + intros [= <-]. split; [reflexivity|]. apply Forall_forall. intros t Ht.
      specialize (E t Ht). apply andb_prop in E as [E1 E2].
      apply Nat.ltb_lt in E1, E2. auto.
    + intros [-> _]. reflexivity.
  - split; [discriminate|]. intros [_ HF]. exfalso.
    assert (forallb (fun t => (trip_row t <? nr) && (trip_col t <? nc)) T = true) as E';
      [|congruence].
    apply forallb_forall. intros t Ht. rewrite Forall_forall in HF.
    destruct (HF t Ht) as [H1 H2]. apply andb_true_intro. split; apply Nat.ltb_lt; assumption.
Qed.

(** ** The dense meaning of a triplet list *)

Lemma row_dot_app T1 T2 r x :
  (row_dot (T1 ++ T2) r x == row_dot T1 r x + row_dot T2 r x)%Q.
Proof.
  induction T1 as [|t T1 IH]; simpl; [ring|].
  destruct (trip_row t =? r); rewrite IH; ring.
Qed.

Lemma row_dot_cons_eq t T r x : trip_row t = r ->
  (row_dot (t :: T) r x == trip_val t * nth (trip_col t) x 0 + row_dot T r x)%Q.
Proof. intros <-. simpl. rewrite Nat.eqb_refl. reflexivity. Qed.

Lemma row_dot_cons_ne t T r x : trip_row t <> r -> row_dot (t :: T) r x = row_dot T r x.
Proof. intros H. simpl. apply Nat.eqb_neq in H. rewrite H. reflexivity. Qed.

(** A row that no triplet touches is zero. *)
Lemma row_dot_none T r x : Forall (fun t => trip_row t <> r) T -> (row_dot T r x == 0)%Q.
Proof.
  induction 1 as [|t T Ht _ IH]; [reflexivity|].
  rewrite row_dot_cons_ne by exact Ht. exact IH.
Qed.

#[export] Instance row_dot_Proper T r : Proper (qleq ==> Qeq) (row_dot T r).
Proof.
  intros x y Hxy. induction T as [|t T IH]; simpl; [reflexivity|].
  destruct (trip_row t =? r); [|exact IH].
  rewrite IH, (qleq_nth _ _ Hxy). reflexivity.
Qed.

#[export] Instance spmv_Proper A : Proper (qleq ==> qleq) (spmv A).
Proof.
  intros x y Hxy. unfold spmv, qleq. induction (seq 0 (sp_rows A)) as [|r rs IH]; simpl;
    constructor; [apply row_dot_Proper; exact Hxy | exact IH].
Qed.

Lemma length_spmv A x : length (spmv A x) = sp_rows A.
Proof. unfold spmv. rewrite length_map, length_seq. reflexivity. Qed.

Lemma nth_spmv A x r : r < sp_rows A -> nth r (spmv A x) 0%Q = row_dot (sp_trip A) r x.
Proof.
  intros H. unfold spmv.
  rewrite nth_indep with (d' := row_dot (sp_trip A) 0 x) by (rewrite length_map, length_seq; exact H).
  rewrite (map_nth (fun r => row_dot (sp_trip A) r x)), seq_nth by exact H. reflexivity.
Qed.

(** Two Q-vectors of equal length are [qleq] when they agree at every index. *)
Lemma qleq_nth_iff l1 l2 : length l1 = length l2 ->
  qleq l1 l2 <-> forall i, i < length l1 -> (nth i l1 0 == nth i l2 0)%Q.
Proof.
  revert l2. induction l1 as [|x l1 IH]; intros [|y l2] Hlen; simpl in *; try discriminate.
  - split; [intros; lia | constructor].
  - injection Hlen as Hlen. split.
    + intros H. inversion H as [|? ? ? ? Hxy Hl]; subst. intros [|i] Hi; [exact Hxy|].
      apply IH; [exact Hlen | exact Hl | lia].
    + intros H. constructor; [apply (H 0); lia|].
      apply IH; [exact Hlen|]. intros i Hi. apply (H (S i)). lia.
Qed.

Lemma row_sum_app T1 T2 r : (row_sum (T1 ++ T2) r == row_sum T1 r + row_sum T2 r)%Q.
Proof.
  induction T1 as [|t T1 IH]; simpl; [ring|].
  destruct (trip_row t =? r); rewrite IH; ring.
Qed.

Lemma row_sum_none T r : Forall (fun t => trip_row t <> r) T -> (row_sum T r == 0)%Q.
Proof.
  induction 1 as [|t T Ht _ IH]; [reflexivity|]. simpl.
  apply Nat.eqb_neq in Ht. rewrite Ht. exact IH.
Qed.

Lemma nth_qshift c x j : j < length x -> (nth j (qshift c x) 0 == nth j x 0 + c)%Q.
Proof.
  intros Hj. unfold qshift.
  rewrite nth_indep with (d' := (0 + c)%Q) by (rewrite length_map; exact Hj).
  rewrite (map_nth (fun q => q + c)%Q). reflexivity.
Qed.

(** Shifting every unknown by [c] shifts row [r] by [c] times its row sum. *)
Lemma row_dot_shift T r c x :
  Forall (fun t => trip_col t < length x) T ->
  (row_dot T r (qshift c x) == row_dot T r x + c * row_sum T r)%Q.
Proof.
  induction 1 as [|t T Ht _ IH]; simpl; [ring|].
  destruct (trip_row t =? r); [|exact IH].
  rewrite IH, (nth_qshift c x _ Ht). ring.
Qed.

(** ** Entries: the triplet product is the dense product *)

Lemma trip_entry_cons t T r c :
  (trip_entry (t :: T) r c ==
   (if (trip_row t =? r) && (trip_col t =? c) then trip_val t else 0) + trip_entry T r c)%Q.
Proof.
  unfold trip_entry. cbn [filter]. destruct (_ && _); cbn [map qsum fold_right]; [reflexivity|ring].
Qed.

Lemma trip_entry_app T1 T2 r c :
  (trip_entry (T1 ++ T2) r c == trip_entry T1 r c + trip_entry T2 r c)%Q.
Proof. unfold trip_entry. rewrite filter_app, map_app. apply qsum_app. Qed.

Lemma trip_entry_none T r c : Forall (fun t => trip_row t <> r) T -> (trip_entry T r c == 0)%Q.
Proof.
  induction 1 as [|t T Ht _ IH]; [reflexivity|]. rewrite trip_entry_cons, IH.
  apply Nat.eqb_neq in Ht. rewrite Ht. reflexivity.
Qed.

(** Row [r] of the triplet product is the sum over the columns of the
    summed entries times [x]. *)
Lemma row_dot_dense T nc r x :
  Forall (fun t => trip_col t < nc) T ->
  (row_dot T r x == qsum (map (fun c => trip_entry T r c * nth c x 0) (seq 0 nc)))%Q.
Proof.
  induction 1 as [|t T Ht _ IH].
  - symmetry. apply qsum_map_zero. intros c _. reflexivity.
  - rewrite (qsum_map_ext _ (fun c => (if c =? trip_col t then
        (if trip_row t =? r then trip_val t * nth (trip_col t) x 0 else 0) else 0) +
        trip_entry T r c * nth c x 0)%Q)
      by (intros c _; rewrite trip_entry_cons;
          destruct (trip_row t =? r), (Nat.eqb_spec (trip_col t) c), (Nat.eqb_spec c (trip_col t));
          subst; cbn; try lia; ring).
    rewrite qsum_map_add, qsum_indicator by lia. rewrite <- IH.
    unfold row_dot at 1. cbn [fold_right]. fold (row_dot T r x).
    destruct (trip_row t =? r); ring.
Qed.

(** The matrix-vector product on the stored triplets, duplicates and
    all, equals the product with the dense matrix [.tocsr()] stands for, in
    which duplicate entries are summed. *)
Lemma spmv_dense T nr nc A x :
  coo_matrix T nr nc = Ok A -> qleq (spmv A x) (dense_mv A x).
Proof.
  intros [-> HT]%coo_matrix_Ok. unfold spmv, dense_mv, sp_entry. cbn [sp_rows sp_cols sp_trip].
  assert (Hc : Forall (fun t => trip_col t < nc) T)
    by (eapply Forall_impl; [|exact HT]; intros t [_ H]; exact H).
  unfold qleq. induction (seq 0 nr) as [|r rs IH]; constructor; [|exact IH].
  apply row_dot_dense. exact Hc.
Qed.

(** ** Residuals *)

Lemma qsum_squares_nonneg l : (0 <= qsum (map (fun p => (fst p - snd p) * (fst p - snd p)) l))%Q.
Proof.
  induction l as [|p l IH]; simpl; [apply Qle_refl|].
  pose proof (Qsq_nonneg (fst p - snd p)). lra.
Qed.

Lemma qsum_squares_zero l :
  (qsum (map (fun p => (fst p - snd p) * (fst p - snd p)) l) == 0)%Q ->
  Forall (fun p => fst p == snd p)%Q l.
Proof.
  induction l as [|p l IH]; simpl; intros H; constructor.
  - pose proof (qsum_squares_nonneg l). pose proof (Qsq_nonneg (fst p - snd p)).
    assert (fst p - snd p == 0)%Q; [apply Qsq_zero; lra | lra].
  - apply IH. pose proof (qsum_squares_nonneg l).
    pose proof (Qsq_nonneg (fst p - snd p)). lra.
Qed.

Lemma resid2_nonneg A b x : (0 <= resid2 A b x)%Q.
Proof. apply qsum_squares_nonneg. Qed.

(** The residual is zero exactly when [A x = b] entrywise. *)
Lemma resid2_zero_iff A b x : length b = sp_rows A ->
  (resid2 A b x == 0)%Q <-> qleq (spmv A x) b.
Proof.
  intros Hb. unfold resid2. split.
  - intros H. apply qsum_squares_zero in H.
    assert (Hl : length (spmv A x) = length b) by (rewrite length_spmv; auto).
    clear Hb. revert b Hl H. generalize (spmv A x) as l.
    induction l as [|u l IH]; intros [|v b] Hl H; simpl in *; try discriminate; constructor.
    + inversion H as [|? ? Hp _]. exact Hp.
    + inversion H as [|? ? _ Hr]. apply IH; [congruence | exact Hr].
  - intros H. clear Hb. induction H as [|u v l b Huv _ IH]; simpl; [reflexivity|].
    rewrite IH, Huv. ring.
Qed.

#[export] Instance resid2_Proper A : Proper (qleq ==> qleq ==> Qeq) (resid2 A).
Proof.
  intros b b' Hb x x' Hx. unfold resid2.
  apply (spmv_Proper A) in Hx. revert Hx Hb.
  generalize (spmv A x) (spmv A x'). intros l l' Hl. revert b b'.
  induction Hl as [|u u' l l' Hu _ IH]; intros b b' Hb; simpl; [reflexivity|].
  inversion Hb as [|v v' b1 b1' Hv Hb1]; subst; simpl; [reflexivity|].
  rewrite Hu, Hv, (IH _ _ Hb1). reflexivity.
Qed.

(** A vector with zero residual is a least-squares solution. *)
Lemma zero_resid_is_lsq A b x :
  length x = sp_cols A -> (resid2 A b x == 0)%Q -> is_lsq A b x.
Proof. intros Hl H. split; [exact Hl|]. intros y _. rewrite H. apply resid2_nonneg. Qed.

(** When the system is consistent, every least-squares solution solves it
    exactly. *)
Lemma lsq_consistent A b x y :
  length b = sp_rows A -> is_lsq A b x -> length y = sp_cols A -> qleq (spmv A y) b ->
  qleq (spmv A x) b.
Proof.
  intros Hb [_ Hmin] Hy Hsol. apply resid2_zero_iff; [exact Hb|].
  apply resid2_zero_iff in Hsol; [|exact Hb].
  specialize (Hmin y Hy). pose proof (resid2_nonneg A b x). lra.
Qed.

Lemma norm2_nonneg x : (0 <= norm2 x)%Q.
Proof.
  unfold norm2. induction x as [|q x IH]; simpl; [apply Qle_refl|].
  pose proof (Qsq_nonneg q). lra.
Qed.

Lemma length_qshift c x : length (qshift c x) = length x.
Proof. apply length_map. Qed.

(** Shifting every entry by [c] changes the squared norm by
    [2 c (sum x) + n c^2]. *)
Lemma norm2_qshift c x :
  (norm2 (qshift c x) == norm2 x + 2 * c * qsum x + inject_Z (Z.of_nat (length x)) * c * c)%Q.
Proof.
  induction x as [|q x IH]; unfold norm2, qshift, qsum in *; cbn [map fold_right length] in *;
    [ring|].
  rewrite IH, Nat2Z.inj_succ, <- Z.add_1_r, inject_Z_plus. ring.
Qed.

Lemma resid2_spmv A b x y : qleq (spmv A x) (spmv A y) -> (resid2 A b x == resid2 A b y)%Q.
Proof.
  unfold resid2. generalize (spmv A x) (spmv A y). intros l l' Hl. revert b.
  induction Hl as [|u u' l l' Hu _ IH]; intros [|v b]; simpl; try reflexivity.
  rewrite Hu, (IH b). reflexivity.
Qed.

(** A minimum-norm least-squares solution of a system that cannot see a
    common shift of the unknowns has entries summing to zero. *)
Lemma minnorm_shift_invariant A b x :
  is_minnorm_lsq A b x ->
  (forall c, qleq (spmv A (qshift c x)) (spmv A x)) ->
  (qsum x == 0)%Q.
Proof.
  intros [[Hlx Hmin] Hnorm] Hsh.
  destruct (Nat.eq_dec (length x) 0) as [E|E];
    [destruct x; [reflexivity | discriminate]|].
  set (n := inject_Z (Z.of_nat (length x))).
  assert (Hn : (0 < n)%Q) by (unfold n, Qlt; cbn [Qnum Qden inject_Z]; lia).
  assert (Hn0 : ~ (n == 0)%Q) by (apply Qnot_eq_sym, Qlt_not_eq; exact Hn).
  set (S0 := qsum x). set (c := (- S0 / n)%Q).
  assert (Hy : is_lsq A b (qshift c x)).
  { split; [rewrite length_qshift; exact Hlx|]. intros z Hz.
    rewrite (resid2_spmv A b _ _ (Hsh c)). apply Hmin. exact Hz. }
  pose proof (Hnorm _ Hy) as Hle. rewrite norm2_qshift in Hle. fold S0 n in Hle.
  assert (Hc : (2 * c * S0 + n * c * c == - (S0 * S0 / n))%Q) by (unfold c; field; exact Hn0).
  assert (Hq : (0 <= S0 * S0 / n)%Q)
    by (apply Qle_shift_div_l; [exact Hn | rewrite Qmult_0_l; apply Qsq_nonneg]).
  assert (Hz : (S0 * S0 / n == 0)%Q) by lra.
  apply Qsq_zero. transitivity (S0 * S0 / n * n)%Q; [field; exact Hn0 | rewrite Hz; ring].
Qed.

#[export] Hint Resolve resid2_nonneg zero_resid_is_lsq : dt.
