(* ===== verification/Lsq.v ===== *)
(** * Lsq: an exact least-squares solver meeting the [lsqr] contract

    [scipy.sparse.linalg.lsqr] is a library routine; everywhere else the
    development takes it as a parameter [lsqr] and states what the theorems
    need of it with [Sparse.is_lsq].  This file shows that contract can be
    met, whatever the system: [gs_lsqr] is an exact solver over [Q]
    (Gram-Schmidt orthogonalisation of the columns of the summed matrix,
    then projection of the right-hand side), and [gs_lsqr_lsq_solver] proves
    that it returns a least-squares solution of every system whose
    right-hand side has one entry per row.  The examples of [SelfTransfer] run
    the whole transfer with it.

    The proof goes through the normal equations: [normal_lsq] shows that a
    vector whose residual is orthogonal to every column has the least
    residual ([||A y - b||^2 = ||A x - b||^2 + ||A (y - x)||^2]). *)

From Stdlib Require Import Arith QArith Qfield Lqa Lia List Setoid Morphisms.
From S2P Require Import Prelude Sparse.
Import ListNotations.
Open Scope nat_scope.

(** ** Finite sums over indices *)

(** [sum_{i < n} f i] *)
Definition qsumn (n : nat) (f : nat -> Q) : Q := qsum (map f (seq 0 n)).

(** A vector given by its entries. *)
Definition vmk (n : nat) (f : nat -> Q) : list Q := map f (seq 0 n).

(** The dot product of the first [m] entries. *)
Definition dotn (m : nat) (u v : list Q) : Q := qsumn m (fun i => nth i u 0 * nth i v 0)%Q.

(** Row [r] of [A.dot(x)] on the summed (dense) matrix. *)
Definition amul (A : spmat) (x : list Q) (r : nat) : Q :=
  qsumn (sp_cols A) (fun c => sp_entry A r c * nth c x 0)%Q.

(** ** The solver *)

(** One vector of the orthogonal basis: [gq] is [A gr] and [gqq] is its
    squared norm. *)
Record gsv : Type := GS { gq : list Q; gr : list Q; gqq : Q }.

Definition gsd : gsv := GS [] [] 0.

(** The coefficient of [v] along the basis vector [g] (zero along a zero
    vector). *)
Definition gcoef (m : nat) (v : list Q) (g : gsv) : Q :=
  if Qeq_bool (gqq g) 0 then 0%Q else Qred (dotn m v (gq g) / gqq g).

(** Entry [k] of [sum_g gcoef v g * sel g]: the projection of [v] on the
    basis [L] ([sel = gq]) or its coefficients over the columns ([sel = gr]). *)
Definition lincomb (m : nat) (v : list Q) (L : list gsv) (sel : gsv -> list Q) (k : nat) : Q :=
  qsum (map (fun g => gcoef m v g * nth k (sel g) 0) L)%Q.

(** Column [c] of the summed matrix. *)
Definition acol (A : spmat) (c : nat) : list Q := vmk (sp_rows A) (fun r => sp_entry A r c).

(** Column [c] minus its projection on the basis built so far.  Every
    stored rational is kept in lowest terms ([Qred]), so that the sizes of
    the numbers stay those of the exact values. *)
Definition gs_step (A : spmat) (L : list gsv) (c : nat) : gsv :=
  let m := sp_rows A in
  let a := acol A c in
  let q := vmk m (fun r => Qred (nth r a 0 - lincomb m a L gq r)%Q) in
  GS q (vmk (sp_cols A) (fun k => Qred ((if k =? c then 1 else 0) - lincomb m a L gr k)%Q))
     (Qred (dotn m q q)).

Definition gs_basis (A : spmat) : list gsv :=
  fold_left (fun L c => L ++ [gs_step A L c]) (seq 0 (sp_cols A)) [].

(** The least-squares solution: the coefficients over the columns of the
    projection of [b] on the column space. *)
Definition gs_lsqr (A : spmat) (b : list Q) : list Q :=
  vmk (sp_cols A) (fun k => Qred (lincomb (sp_rows A) b (gs_basis A) gr k)).

(** The contract of [lsqr(A, b)[0]] as the transfer and the Laplacian solve
    use it: on every system whose right-hand side has one entry per row,
    the solver returns a least-squares solution. *)
Definition lsq_solver (lsqr : spmat -> list Q -> list Q) : Prop :=
  forall A b, length b = sp_rows A -> is_lsq A b (lsqr A b).

(** The solver reads the values of its right-hand side, not the way the
    rationals are written: right-hand sides with equal entries give the
    same solution, as for any function of the real numbers. *)
Definition lsq_ext (lsqr : spmat -> list Q -> list Q) : Prop :=
  forall A b b', qleq b b' -> lsqr A b = lsqr A b'.

(** The invariant of the basis after [length L] columns: each vector is [A]
    times its coefficients, column [i] is its vector plus its projection on
    the earlier ones, the vectors are pairwise orthogonal, and [gqq] is the
    squared norm. *)
Definition gs_inv (A : spmat) (L : list gsv) : Prop :=
  forall i, i < length L ->
    (forall r, r < sp_rows A -> (nth r (gq (nth i L gsd)) 0 == amul A (gr (nth i L gsd)) r)%Q) /\
    (forall r, r < sp_rows A -> (sp_entry A r i == nth r (gq (nth i L gsd)) 0 +
        qsumn i (fun j => gcoef (sp_rows A) (acol A i) (nth j L gsd) * nth r (gq (nth j L gsd)) 0))%Q) /\
    (forall j, j < i -> (dotn (sp_rows A) (gq (nth i L gsd)) (gq (nth j L gsd)) == 0)%Q) /\
    (gqq (nth i L gsd) == dotn (sp_rows A) (gq (nth i L gsd)) (gq (nth i L gsd)))%Q.

Section Sums.

Lemma qsumn_0 f : qsumn 0 f = 0%Q.
Proof. reflexivity. Qed.

Lemma qsumn_S n f : (qsumn (S n) f == qsumn n f + f n)%Q.
Proof. unfold qsumn. rewrite seq_S, map_app, qsum_app. cbn. ring. Qed.

Lemma qsumn_ext n f g : (forall i, i < n -> (f i == g i)%Q) -> (qsumn n f == qsumn n g)%Q.
Proof. intros H. apply qsum_map_ext. intros i Hi%in_seq. apply H. lia. Qed.

Lemma qsumn_zero n f : (forall i, i < n -> (f i == 0)%Q) -> (qsumn n f == 0)%Q.
Proof. intros H. apply qsum_map_zero. intros i Hi%in_seq. apply H. lia. Qed.

Lemma qsumn_add n f g : (qsumn n (fun i => f i + g i) == qsumn n f + qsumn n g)%Q.
Proof. apply qsum_map_add. Qed.

Lemma qsumn_sub n f g : (qsumn n (fun i => f i - g i) == qsumn n f - qsumn n g)%Q.
Proof. induction n as [|n IH]; [reflexivity|]. rewrite !qsumn_S, IH. ring. Qed.

Lemma qsumn_scale n c f : (qsumn n (fun i => c * f i) == c * qsumn n f)%Q.
Proof. induction n as [|n IH]; [cbn; ring|]. rewrite !qsumn_S, IH. ring. Qed.

Lemma qsumn_mult_r n f x : (qsumn n f * x == qsumn n (fun i => f i * x))%Q.
Proof. rewrite Qmult_comm, <- qsumn_scale. apply qsumn_ext. intros; ring. Qed.

(** Finite double sums commute. *)
Lemma qsumn_swap n k f :
  (qsumn n (fun i => qsumn k (fun j => f i j)) == qsumn k (fun j => qsumn n (fun i => f i j)))%Q.
Proof.
  induction n as [|n IH].
  - symmetry. apply qsumn_zero. intros j _. reflexivity.
  - rewrite qsumn_S, IH, <- qsumn_add. apply qsumn_ext. intros j _. rewrite qsumn_S. reflexivity.
Qed.

(** Only the term at [j] of an indicator survives. *)
Lemma qsumn_single n j f : j < n -> (qsumn n (fun i => if i =? j then f i else 0) == f j)%Q.
Proof.
  intros Hj. rewrite (qsumn_ext _ _ (fun i => if i =? j then f j else 0%Q))
    by (intros i _; destruct (Nat.eqb_spec i j); subst; reflexivity).
  apply qsum_indicator. lia.
Qed.

Lemma qsumn_nonneg n f : (forall i, i < n -> (0 <= f i)%Q) -> (0 <= qsumn n f)%Q.
Proof.
  induction n as [|n IH]; intros H; [apply Qle_refl|]. rewrite qsumn_S.
  assert (0 <= qsumn n f)%Q by (apply IH; intros i Hi; apply H; lia).
  assert (0 <= f n)%Q by (apply H; lia). lra.
Qed.

(** A sum of squares is zero only when every term is. *)
Lemma qsumn_sq_zero n f :
  (qsumn n (fun i => f i * f i) == 0)%Q -> forall i, i < n -> (f i == 0)%Q.
Proof.
  induction n as [|n IH]; intros H i Hi; [lia|]. rewrite qsumn_S in H.
  assert (H1 : (0 <= qsumn n (fun i => f i * f i))%Q) by (apply qsumn_nonneg; intros; apply Qsq_nonneg).
  pose proof (Qsq_nonneg (f n)) as H2.
  destruct (Nat.eq_dec i n) as [->|Hne].
  - assert (E : (f n * f n == 0)%Q) by lra. apply Qmult_integral in E. destruct E; assumption.
  - apply IH; [lra | lia].
Qed.

(** A sum over a list is the sum over its positions. *)
Lemma qsum_map_nth {A : Type} (f : A -> Q) (L : list A) (d : A) :
  (qsum (map f L) == qsumn (length L) (fun i => f (nth i L d)))%Q.
Proof.
  induction L as [|a L IH] using rev_ind; [reflexivity|].
  rewrite map_app, qsum_app, length_app, Nat.add_1_r, qsumn_S, IH.
  rewrite app_nth2, Nat.sub_diag by lia.
  rewrite (qsumn_ext (length L) (fun i => f (nth i (L ++ [a]) d)) (fun i => f (nth i L d)))
    by (intros i Hi; rewrite app_nth1 by lia; reflexivity).
  change (qsum (map f [a])) with (f a + 0)%Q. cbn [nth]. ring.
Qed.

Lemma length_vmk n f : length (vmk n f) = n.
Proof. unfold vmk. rewrite length_map, length_seq. reflexivity. Qed.

Lemma nth_vmk n f i : i < n -> nth i (vmk n f) 0%Q = f i.
Proof.
  intros Hi. unfold vmk. rewrite nth_indep with (d' := f 0) by (rewrite length_map, length_seq; exact Hi).
  rewrite map_nth, seq_nth by exact Hi. reflexivity.
Qed.

End Sums.


(** ** The residual on the summed matrix *)

Section Residual.

(** Row [r] of the triplet product reads [x] only below its length: the
    triplets of a column past the end meet a zero. *)
Lemma row_dot_cols T r x :
  (row_dot T r x == qsumn (length x) (fun c => trip_entry T r c * nth c x 0))%Q.
Proof.
  induction T as [|t T IH].
  - symmetry. apply qsumn_zero. intros c _. reflexivity.
  - rewrite (qsumn_ext _ _ (fun c => (if c =? trip_col t then
        (if trip_row t =? r then trip_val t * nth (trip_col t) x 0 else 0) else 0) +
        trip_entry T r c * nth c x 0)%Q)
      by (intros c _; rewrite trip_entry_cons;
          destruct (trip_row t =? r), (Nat.eqb_spec (trip_col t) c), (Nat.eqb_spec c (trip_col t));
          subst; cbn; try lia; ring).
    rewrite qsumn_add, <- IH. unfold row_dot at 1. cbn [fold_right]. fold (row_dot T r x).
    destruct (Nat.ltb_spec (trip_col t) (length x)) as [Hc|Hc].
    + rewrite (qsumn_single _ _ (fun _ => if trip_row t =? r then _ else 0%Q)) by exact Hc.
      destruct (trip_row t =? r); ring.
    + rewrite qsumn_zero by (intros c Hc'; destruct (Nat.eqb_spec c (trip_col t)); [lia | reflexivity]).
      rewrite nth_overflow by exact Hc. destruct (trip_row t =? r); ring.
Qed.

Lemma combine_map_seq {B : Type} (f : nat -> B) (l : list Q) s :
  combine (map f (seq s (length l))) l = map (fun i => (f i, nth (i - s) l 0%Q)) (seq s (length l)).
Proof.
  revert s. induction l as [|a l IH]; intros s; [reflexivity|]. cbn [length seq map combine].
  rewrite IH, Nat.sub_diag. f_equal. apply map_ext_in. intros i Hi%in_seq.
  replace (i - s) with (S (i - S s)) by lia. reflexivity.
Qed.

(** [||A x - b||^2] on the summed matrix. *)
Lemma resid2_dense A b x :
  length b = sp_rows A -> length x = sp_cols A ->
  (resid2 A b x == qsumn (sp_rows A) (fun r => (amul A x r - nth r b 0) * (amul A x r - nth r b 0)))%Q.
Proof.
  intros Hb Hx. unfold resid2, spmv. rewrite <- Hb, combine_map_seq, map_map.
  apply qsum_map_ext. intros r _. cbn [fst snd]. rewrite Nat.sub_0_r, row_dot_cols, Hx.
  reflexivity.
Qed.

End Residual.

(** ** Orthogonal residuals are least *)

(** A vector whose residual [A x - b] is orthogonal to every column of
    [A] (the normal equations [A^T (A x - b) = 0]) is a least-squares
    solution: for every [y], [||A y - b||^2 = ||A x - b||^2 + ||A (y - x)||^2]. *)
Theorem normal_lsq A b x :
  length b = sp_rows A -> length x = sp_cols A ->
  (forall c, c < sp_cols A ->
     (qsumn (sp_rows A) (fun r => sp_entry A r c * (amul A x r - nth r b 0)) == 0)%Q) ->
  is_lsq A b x.
Proof.
  intros Hb Hx Horth. split; [exact Hx|]. intros y Hy. rewrite !resid2_dense by assumption.
  assert (Hw : forall r, (amul A y r - amul A x r ==
            qsumn (sp_cols A) (fun c => sp_entry A r c * (nth c y 0 - nth c x 0)))%Q)
    by (intros r; unfold amul; rewrite <- qsumn_sub; apply qsumn_ext; intros; ring).
  assert (Hcross : (qsumn (sp_rows A) (fun r => (amul A x r - nth r b 0) * (amul A y r - amul A x r)) == 0)%Q).
  { rewrite (qsumn_ext _ _ (fun r => qsumn (sp_cols A)
               (fun c => (nth c y 0 - nth c x 0) * (sp_entry A r c * (amul A x r - nth r b 0)))%Q))
      by (intros r _; rewrite Hw, <- qsumn_scale; apply qsumn_ext; intros; ring).
    rewrite qsumn_swap. apply qsumn_zero. intros c Hc. rewrite qsumn_scale, (Horth c Hc). ring. }
  assert (Hsq : (0 <= qsumn (sp_rows A) (fun r => (amul A y r - amul A x r) * (amul A y r - amul A x r)))%Q)
    by (apply qsumn_nonneg; intros; apply Qsq_nonneg).
  assert (E : (qsumn (sp_rows A) (fun r => (amul A y r - nth r b 0) * (amul A y r - nth r b 0)) ==
               qsumn (sp_rows A) (fun r => (amul A x r - nth r b 0) * (amul A x r - nth r b 0)) +
               2 * qsumn (sp_rows A) (fun r => (amul A x r - nth r b 0) * (amul A y r - amul A x r)) +
               qsumn (sp_rows A) (fun r => (amul A y r - amul A x r) * (amul A y r - amul A x r)))%Q)
    by (rewrite <- qsumn_scale, <- !qsumn_add; apply qsumn_ext; intros; ring).
  rewrite E, Hcross. lra.
Qed.

(** ** Gram-Schmidt *)

Section GramSchmidt.
Variable A : spmat.
Local Abbreviation m := (sp_rows A).
Local Abbreviation n := (sp_cols A).

Lemma dotn_sym u v : (dotn m u v == dotn m v u)%Q.
Proof. apply qsumn_ext. intros; ring. Qed.

Lemma lincomb_nth v L sel k :
  (lincomb m v L sel k ==
   qsumn (length L) (fun j => gcoef m v (nth j L gsd) * nth k (sel (nth j L gsd)) 0))%Q.
Proof. unfold lincomb. apply (qsum_map_nth (fun g => gcoef m v g * nth k (sel g) 0)%Q). Qed.

Lemma gs_inv_orth L i j : gs_inv A L -> i < length L -> j < length L -> i <> j ->
  (dotn m (gq (nth i L gsd)) (gq (nth j L gsd)) == 0)%Q.
Proof.
  intros HL Hi Hj Hne. destruct (Nat.lt_total i j) as [H|[H|H]]; [|contradiction|].
  - rewrite dotn_sym. apply (HL j Hj). exact H.
  - apply (HL i Hi). exact H.
Qed.

(** A basis vector of zero norm is zero. *)
Lemma gs_zero_vec L h r : gs_inv A L -> h < length L -> Qeq_bool (gqq (nth h L gsd)) 0 = true ->
  r < m -> (nth r (gq (nth h L gsd)) 0 == 0)%Q.
Proof.
  intros HL Hh Hz Hr. apply Qeq_bool_eq in Hz. destruct (HL h Hh) as (_ & _ & _ & Hq).
  rewrite Hq in Hz. exact (qsumn_sq_zero m (fun i => nth i (gq (nth h L gsd)) 0%Q) Hz r Hr).
Qed.

(** What is left of [v] after its projection on the basis is orthogonal to
    every basis vector. *)
Lemma gs_proj_orth L v h : gs_inv A L -> h < length L ->
  (qsumn m (fun r => (nth r v 0 - lincomb m v L gq r) * nth r (gq (nth h L gsd)) 0) == 0)%Q.
Proof.
  intros HL Hh.
  rewrite (qsumn_ext m _ (fun r => nth r v 0 * nth r (gq (nth h L gsd)) 0 - qsumn (length L)
             (fun j => gcoef m v (nth j L gsd) * (nth r (gq (nth j L gsd)) 0 * nth r (gq (nth h L gsd)) 0)))%Q).
  2:{ intros r _. rewrite lincomb_nth.
      transitivity (nth r v 0 * nth r (gq (nth h L gsd)) 0 - qsumn (length L)
        (fun j => gcoef m v (nth j L gsd) * nth r (gq (nth j L gsd)) 0) * nth r (gq (nth h L gsd)) 0)%Q; [ring|].
      rewrite qsumn_mult_r. apply Qplus_comp; [reflexivity|]. apply Qopp_comp, qsumn_ext. intros; ring. }
  rewrite qsumn_sub, qsumn_swap.
  rewrite (qsumn_ext (length L) _ (fun j => if j =? h then gcoef m v (nth j L gsd) * dotn m (gq (nth j L gsd)) (gq (nth h L gsd)) else 0)%Q).
  2:{ intros j Hj. rewrite qsumn_scale. destruct (Nat.eqb_spec j h) as [->|Hne]; [reflexivity|].
      rewrite (gs_inv_orth L j h HL Hj Hh Hne). ring. }
  rewrite (qsumn_single _ _ (fun j => gcoef m v (nth j L gsd) * dotn m (gq (nth j L gsd)) (gq (nth h L gsd)))%Q) by exact Hh.
  fold (dotn m v (gq (nth h L gsd))). unfold gcoef. destruct (Qeq_bool (gqq (nth h L gsd)) 0) eqn:Hz.
  - unfold dotn at 1. rewrite qsumn_zero; [ring|]. intros r Hr. rewrite (gs_zero_vec L h r HL Hh Hz Hr). ring.
  - apply Qeq_bool_neq in Hz. destruct (HL h Hh) as (_ & _ & _ & Hq). rewrite Qred_correct, <- Hq. field. exact Hz.
Qed.

(** [A] applied to a combination of the coefficient vectors is the same
    combination of the basis vectors. *)
Lemma amul_lincomb L v r : gs_inv A L -> r < m ->
  (qsumn n (fun k => sp_entry A r k * lincomb m v L gr k) == lincomb m v L gq r)%Q.
Proof.
  intros HL Hr. rewrite (lincomb_nth v L gq r).
  rewrite (qsumn_ext n _ (fun k => qsumn (length L)
             (fun j => gcoef m v (nth j L gsd) * (sp_entry A r k * nth k (gr (nth j L gsd)) 0)))%Q)
    by (intros k _; rewrite lincomb_nth, <- qsumn_scale; apply qsumn_ext; intros; ring).
  rewrite qsumn_swap. apply qsumn_ext. intros j Hj. rewrite qsumn_scale.
  destruct (HL j Hj) as (HA & _). rewrite (HA r Hr). reflexivity.
Qed.

Lemma nth_app_last (L : list gsv) g i : i < length L -> nth i (L ++ [g]) gsd = nth i L gsd.
Proof. apply app_nth1. Qed.

Lemma nth_app_new (L : list gsv) g : nth (length L) (L ++ [g]) gsd = g.
Proof. rewrite app_nth2, Nat.sub_diag by lia. reflexivity. Qed.

(** One step of the orthogonalisation keeps the invariant. *)
Lemma gs_step_inv L : gs_inv A L -> length L < n -> gs_inv A (L ++ [gs_step A L (length L)]).
Proof.
  intros HL Hcn i Hi. rewrite length_app in Hi. cbn in Hi.
  destruct (Nat.lt_ge_cases i (length L)) as [Hlt|Hge].
  - rewrite !nth_app_last by exact Hlt. destruct (HL i Hlt) as (H1 & H2 & H3 & H4).
    split; [exact H1|]. split; [|split; [|exact H4]].
    + intros r Hr. rewrite (H2 r Hr). apply Qplus_comp; [reflexivity|].
      apply qsumn_ext. intros j Hj. rewrite nth_app_last by lia. reflexivity.
    + intros j Hj. rewrite nth_app_last by lia. exact (H3 j Hj).
  - replace i with (length L) by lia. rewrite nth_app_new.
    split; [|split; [|split; [|exact (Qred_correct _)]]].
    + intros r Hr. unfold amul. cbn [gq gr gs_step]. rewrite nth_vmk, Qred_correct by exact Hr.
      rewrite (qsumn_ext n _ (fun k => (if k =? length L then sp_entry A r k else 0) -
                 sp_entry A r k * lincomb m (acol A (length L)) L gr k)%Q)
        by (intros k Hk; rewrite nth_vmk, Qred_correct by exact Hk; destruct (k =? length L); ring).
      rewrite qsumn_sub, qsumn_single by exact Hcn. rewrite amul_lincomb by assumption.
      unfold acol. rewrite nth_vmk by exact Hr. reflexivity.
    + intros r Hr. cbn [gq gs_step]. rewrite nth_vmk, Qred_correct by exact Hr. rewrite lincomb_nth.
      rewrite (qsumn_ext (length L) (fun j => gcoef m (acol A (length L)) (nth j (L ++ [gs_step A L (length L)]) gsd) *
                 nth r (gq (nth j (L ++ [gs_step A L (length L)]) gsd)) 0)
                 (fun j => gcoef m (acol A (length L)) (nth j L gsd) * nth r (gq (nth j L gsd)) 0))%Q
        by (intros j Hj; rewrite nth_app_last by exact Hj; reflexivity).
      unfold acol at 1. rewrite nth_vmk by exact Hr. ring.
    + intros j Hj. rewrite nth_app_last by exact Hj. cbn [gq gs_step]. unfold dotn.
      rewrite (qsumn_ext m _ (fun r => (nth r (acol A (length L)) 0 - lincomb m (acol A (length L)) L gq r) * nth r (gq (nth j L gsd)) 0)%Q)
        by (intros r Hr; rewrite nth_vmk, Qred_correct by exact Hr; reflexivity).
      apply gs_proj_orth; assumption.
Qed.

Lemma gs_fold_inv k : k <= n ->
  length (fold_left (fun L c => L ++ [gs_step A L c]) (seq 0 k) []) = k /\
  gs_inv A (fold_left (fun L c => L ++ [gs_step A L c]) (seq 0 k) []).
Proof.
  induction k as [|k IH]; intros Hk.
  - split; [reflexivity|]. intros i Hi. cbn in Hi. lia.
  - rewrite seq_S, fold_left_app. cbn [fold_left]. rewrite Nat.add_0_l.
    destruct IH as [Hl Hinv]; [lia|].
    remember (fold_left (fun L c => L ++ [gs_step A L c]) (seq 0 k) []) as L eqn:EL.
    rewrite <- Hl. split; [rewrite length_app; cbn; lia|].
    apply gs_step_inv; [exact Hinv | lia].
Qed.

Lemma gs_basis_spec : length (gs_basis A) = n /\ gs_inv A (gs_basis A).
Proof. apply gs_fold_inv. lia. Qed.

End GramSchmidt.

(** The residual of [gs_lsqr] is orthogonal to every column: it solves the
    normal equations [A^T (A x - b) = 0]. *)
Lemma gs_lsqr_normal A b c : c < sp_cols A ->
  (qsumn (sp_rows A) (fun r => sp_entry A r c * (amul A (gs_lsqr A b) r - nth r b 0)) == 0)%Q.
Proof.
  intros Hc. destruct (gs_basis_spec A) as [Hn HL]. set (L := gs_basis A) in *.
  assert (Hax : forall r, r < sp_rows A -> (amul A (gs_lsqr A b) r == lincomb (sp_rows A) b L gq r)%Q).
  { intros r Hr. unfold amul, gs_lsqr.
    rewrite (qsumn_ext _ _ (fun k => sp_entry A r k * lincomb (sp_rows A) b L gr k)%Q)
      by (intros k Hk; rewrite nth_vmk, Qred_correct by exact Hk; reflexivity).
    apply amul_lincomb; assumption. }
  destruct (HL c ltac:(lia)) as (_ & HB & _).
  rewrite (qsumn_ext _ _ (fun r => (-1) * ((nth r b 0 - lincomb (sp_rows A) b L gq r) * nth r (gq (nth c L gsd)) 0) +
             qsumn c (fun j => (-1 * gcoef (sp_rows A) (acol A c) (nth j L gsd)) *
               ((nth r b 0 - lincomb (sp_rows A) b L gq r) * nth r (gq (nth j L gsd)) 0)))%Q)
    by (intros r Hr; rewrite Hax, (HB r Hr), Qmult_plus_distr_l, qsumn_mult_r by exact Hr;
        apply Qplus_comp; [ring|]; apply qsumn_ext; intros; ring).
  rewrite qsumn_add, qsumn_scale, gs_proj_orth by (assumption || lia). rewrite qsumn_swap.
  rewrite qsumn_zero; [ring|]. intros j Hj. rewrite qsumn_scale, gs_proj_orth by (assumption || lia). ring.
Qed.

Lemma gs_lsqr_lsq_solver : lsq_solver gs_lsqr.
Proof. intros A b Hb. apply normal_lsq; [exact Hb | apply length_vmk | apply gs_lsqr_normal]. Qed.

(** [gs_lsqr] reduces every entry it returns, so it depends only on the
    values of the right-hand side. *)
Lemma gs_lsqr_ext : lsq_ext gs_lsqr.
Proof.
  intros A b b' Hb. unfold gs_lsqr, vmk. apply map_ext. intros k. f_equal. unfold lincomb. f_equal.
  apply map_ext. intros g. f_equal. unfold gcoef. destruct (Qeq_bool (gqq g) 0); [reflexivity|].
  apply Qred_complete. apply Qmult_comp; [|reflexivity]. unfold dotn.
  apply qsumn_ext. intros i _. rewrite (qleq_nth _ _ Hb i). reflexivity.
Qed.
