(* ===== verification/Frame.v ===== *)
(** * Frame: the local frame extractor ([get4thVertex], [getVPos4])

    [DeformationTranferer.get4thVertex] computes, for every triangle
    [(v0, v1, v2)] of a pose, the synthetic vertex [v0 + n / |n|] where
    [n = (v1 - v0) x (v2 - v0)]; [getVPos4] appends these [F] vertices after
    the [V] real ones.  [Tris4] (built in [__init__]) extends each triangle
    with the index [V + i] of its synthetic vertex, and [edges4] is the 3x3
    edge matrix [np.vstack((v2-v1, v3-v1, v4-v1)).T] that [getSMatrix] and
    [getAMatrix] invert.

    The theorems: the extractor never raises when the indices are in range,
    in particular not on a degenerate triangle (the source has no
    degeneracy check); the synthetic edge is orthogonal to the triangle and
    of unit length; the extended edge matrix of a non-degenerate triangle
    has determinant [|n|^2 / sqrt |n|^2], so [np.linalg.inv] succeeds on it;
    and the construction commutes with translations. *)

From Stdlib Require Import Arith QArith Qfield Lqa Lia List Setoid Morphisms.
From S2P Require Import Prelude Linalg.
Import ListNotations.
Open Scope nat_scope.

(** ** Data *)

(** A row of [ITris]: the three vertex indices of a triangle. *)
Record tri3 : Type := T3 { ti0 : nat; ti1 : nat; ti2 : nat }.

(** A row of [Tris4]: a triangle and the index of its synthetic vertex. *)
Record tri4 : Type := T4 { tj0 : nat; tj1 : nat; tj2 : nat; tj3 : nat }.

(** A pose: the rows of [VPos]. *)
Definition pose : Type := list vec3.

(** ** Operations *)

Section WithSqrt.
Context `{SqrtOp}.

(** One row of [get4thVertex]. *)
Definition fourth_vertex (VPos3 : pose) (t : tri3) : result vec3 :=
  let* p0 := get VPos3 (ti0 t) in
  let* p1 := get VPos3 (ti1 t) in
  let* p2 := get VPos3 (ti2 t) in
  let V1 := vsub p1 p0 in
  let V2 := vsub p2 p0 in
  let FNormals := cross V1 V2 in
  let FNormalsSqrtLength := qsqrt (sumsq FNormals) in
  let F := vdivs FNormals FNormalsSqrtLength in
  Ok (vadd p0 F).

Definition get4thVertex (VPos3 : pose) (ITris3 : list tri3) : result pose :=
  mapM (fourth_vertex VPos3) ITris3.

(** [np.vstack((VPos3, V4))] *)
Definition getVPos4 (VPos3 : pose) (ITris3 : list tri3) : result pose :=
  let* V4 := get4thVertex VPos3 ITris3 in
  Ok (VPos3 ++ V4).

(** The local frame of a triangle as the code builds it: the two edges and
    the normal divided by its length, as columns. *)
Definition frame_matrix (p0 p1 p2 : vec3) : mat3 :=
  let n := cross (vsub p1 p0) (vsub p2 p0) in
  mcols (vsub p1 p0) (vsub p2 p0) (vdivs n (qsqrt (sumsq n))).

End WithSqrt.

(** [np.hstack((Tris, np.reshape(np.arange(NVertices, NVertices4), (NFaces, 1))))] *)
Definition tris4 (NVertices : nat) (Tris : list tri3) : list tri4 :=
  map (fun p => T4 (ti0 (fst p)) (ti1 (fst p)) (ti2 (fst p)) (snd p))
      (combine Tris (seq NVertices (length Tris))).

(** Row [i] of [np.vstack((v2subv1[i,:], v3subv1[i,:], v4subv1[i,:])).T]. *)
Definition edges4 (VPos4 : pose) (t : tri4) : result mat3 :=
  let* p0 := get VPos4 (tj0 t) in
  let* p1 := get VPos4 (tj1 t) in
  let* p2 := get VPos4 (tj2 t) in
  let* p3 := get VPos4 (tj3 t) in
  Ok (mcols (vsub p1 p0) (vsub p2 p0) (vsub p3 p0)).

(** A triangle is non-degenerate when its face normal is not zero. *)
Definition nondegenerate (p0 p1 p2 : vec3) : Prop :=
  (0 < sumsq (cross (vsub p1 p0) (vsub p2 p0)))%Q.

Definition tri_in_range (NV : nat) (t : tri3) : bool :=
  (ti0 t <? NV) && (ti1 t <? NV) && (ti2 t <? NV).

(** The mesh invariant of the spec, as a boolean check: the indices of the
    triangle are in range and its face normal is not zero. *)
Definition tri_ok (P : pose) (t : tri3) : bool :=
  match nth_error P (ti0 t), nth_error P (ti1 t), nth_error P (ti2 t) with
  | Some p0, Some p1, Some p2 => Qlt_bool 0 (sumsq (cross (vsub p1 p0) (vsub p2 p0)))
  | _, _, _ => false
  end.

(** Every vertex of a pose moved by the same vector. *)
Definition translate (c : vec3) (P : pose) : pose := map (vadd c) P.

(** A pose that is [P] moved by [c], vertex by vertex, up to [veq]. *)
Definition shifted (c : vec3) : pose -> pose -> Prop := Forall2 (fun p q => veq q (vadd c p)).

(** ** Lemmas *)

Lemma tri_in_range_true NV t :
  tri_in_range NV t = true <-> ti0 t < NV /\ ti1 t < NV /\ ti2 t < NV.
Proof.
  unfold tri_in_range. rewrite !andb_true_iff, !Nat.ltb_lt. tauto.
Qed.

Lemma length_tris4 NV Tris : length (tris4 NV Tris) = length Tris.
Proof. unfold tris4. rewrite length_map, length_combine, length_seq. lia. Qed.

Lemma nth_tris4 NV Tris i t : nth_error Tris i = Some t ->
  nth_error (tris4 NV Tris) i = Some (T4 (ti0 t) (ti1 t) (ti2 t) (NV + i)).
Proof.
  intros Ht. unfold tris4. rewrite nth_error_map, nth_error_combine_seq, Ht. reflexivity.
Qed.

Lemma tri_ok_true P t : tri_ok P t = true <->
  exists p0 p1 p2, nth_error P (ti0 t) = Some p0 /\ nth_error P (ti1 t) = Some p1 /\
    nth_error P (ti2 t) = Some p2 /\ nondegenerate p0 p1 p2.
Proof.
  unfold tri_ok, nondegenerate.
  destruct (nth_error P (ti0 t)) as [p0|], (nth_error P (ti1 t)) as [p1|],
    (nth_error P (ti2 t)) as [p2|]; split; try discriminate;
    try (intros (? & ? & ? & ? & ? & ? & _); discriminate).
  - intros H. apply Qlt_bool_iff in H. eauto 8.
  - intros (? & ? & ? & [= <-] & [= <-] & [= <-] & H). apply Qlt_bool_iff. exact H.
Qed.

Lemma tri_ok_in_range P t : tri_ok P t = true -> tri_in_range (length P) t = true.
Proof.
  intros (p0 & p1 & p2 & H0 & H1 & H2 & _)%tri_ok_true. apply tri_in_range_true.
  repeat split; apply nth_error_Some; congruence.
Qed.

Lemma tris_ok_in_range P Tris :
  forallb (tri_ok P) Tris = true -> Forall (fun t => tri_in_range (length P) t = true) Tris.
Proof.
  intros Hok. apply Forall_forall. intros t Ht. apply tri_ok_in_range.
  rewrite forallb_forall in Hok. apply Hok. exact Ht.
Qed.

Lemma In_tris4 NV Tris x : In x (tris4 NV Tris) ->
  exists i t, nth_error Tris i = Some t /\ x = T4 (ti0 t) (ti1 t) (ti2 t) (NV + i).
Proof.
  intros Hx. apply In_nth_error in Hx as [i Hi].
  assert (Hlt : i < length Tris) by (rewrite <- (length_tris4 NV); apply nth_error_Some; congruence).
  destruct (nth_error Tris i) as [t|] eqn:Ht; [|apply nth_error_None in Ht; lia].
  rewrite (nth_tris4 _ _ _ _ Ht) in Hi. injection Hi as <-. eauto.
Qed.

Section Props.
Context `{SqrtOp}.

Lemma fourth_vertex_Ok VPos3 t p3 :
  fourth_vertex VPos3 t = Ok p3 <->
  exists p0 p1 p2, nth_error VPos3 (ti0 t) = Some p0 /\ nth_error VPos3 (ti1 t) = Some p1 /\
    nth_error VPos3 (ti2 t) = Some p2 /\
    p3 = vadd p0 (vdivs (cross (vsub p1 p0) (vsub p2 p0))
                        (qsqrt (sumsq (cross (vsub p1 p0) (vsub p2 p0))))).
Proof.
  unfold fourth_vertex. split.
  - intros Hf. inv_ok. apply get_Ok in H0, H1, H2. subst. eauto 7.
  - intros (p0 & p1 & p2 & H0 & H1 & H2 & ->).
    apply get_Ok in H0, H1, H2. rewrite H0, H1, H2. reflexivity.
Qed.

(** The synthetic edge [v4 - v0] is the normal divided by its length. *)
Lemma fourth_edge p0 p1 p2 :
  let n := cross (vsub p1 p0) (vsub p2 p0) in
  veq (vsub (vadd p0 (vdivs n (qsqrt (sumsq n)))) p0) (vdivs n (qsqrt (sumsq n))).
Proof. intros n. unfold veq, vsub, vadd. simpl. repeat split; ring. Qed.

(** The determinant of the local frame is [|n|^2 / sqrt(|n|^2)]. *)
Lemma frame_matrix_det p0 p1 p2 :
  let n := cross (vsub p1 p0) (vsub p2 p0) in
  (mdet (frame_matrix p0 p1 p2) == sumsq n / qsqrt (sumsq n))%Q.
Proof.
  intros n. unfold frame_matrix. rewrite mdet_mcols. fold n.
  unfold dot, vdivs, sumsq. simpl. unfold Qdiv. ring.
Qed.

Lemma frame_matrix_nonsingular p0 p1 p2 :
  nondegenerate p0 p1 p2 -> ~ (mdet (frame_matrix p0 p1 p2) == 0)%Q.
Proof.
  unfold nondegenerate. intros Hn. rewrite frame_matrix_det.
  set (s := sumsq _) in *. pose proof (qsqrt_pos s Hn) as Hr.
  intros Hz. apply Qeq_sym in Hz. revert Hz. apply Qlt_not_eq.
  apply Qlt_shift_div_l; [exact Hr|]. rewrite Qmult_0_l. exact Hn.
Qed.

Lemma get4thVertex_length VPos3 ITris3 V4 :
  get4thVertex VPos3 ITris3 = Ok V4 -> length V4 = length ITris3.
Proof. apply mapM_length. Qed.

Lemma getVPos4_Ok VPos3 ITris3 VPos4 :
  getVPos4 VPos3 ITris3 = Ok VPos4 <->
  exists V4, get4thVertex VPos3 ITris3 = Ok V4 /\ VPos4 = VPos3 ++ V4.
Proof.
  unfold getVPos4. split.
  - intros Hg. inv_ok. eauto.
  - intros (V4 & HV & ->). rewrite HV. reflexivity.
Qed.

Lemma getVPos4_length VPos3 ITris3 VPos4 :
  getVPos4 VPos3 ITris3 = Ok VPos4 -> length VPos4 = length VPos3 + length ITris3.
Proof.
  intros (V4 & HV & ->)%getVPos4_Ok. rewrite length_app.
  rewrite (get4thVertex_length _ _ _ HV). reflexivity.
Qed.

(** [get4thVertex] succeeds exactly when every index is in range. *)
Lemma get4thVertex_total VPos3 ITris3 :
  Forall (fun t => tri_in_range (length VPos3) t = true) ITris3 ->
  exists V4, get4thVertex VPos3 ITris3 = Ok V4.
Proof.
  intros Hall. apply mapM_total. intros t Ht.
  rewrite Forall_forall in Hall. apply Hall, tri_in_range_true in Ht as (H0 & H1 & H2).
  destruct (get_lt _ _ H0) as [p0 E0], (get_lt _ _ H1) as [p1 E1], (get_lt _ _ H2) as [p2 E2].
  unfold fourth_vertex. rewrite E0, E1, E2. eexists. reflexivity.
Qed.

(** The synthetic vertex of triangle [i] sits at index [NV + i] of the
    extended pose. *)
Lemma getVPos4_nth VPos3 ITris3 VPos4 i t :
  getVPos4 VPos3 ITris3 = Ok VPos4 -> nth_error ITris3 i = Some t ->
  exists p3, nth_error VPos4 (length VPos3 + i) = Some p3 /\ fourth_vertex VPos3 t = Ok p3.
Proof.
  intros (V4 & HV & ->)%getVPos4_Ok Ht. apply mapM_Ok in HV.
  destruct (Forall2_nth_l _ _ _ _ _ HV Ht) as (p3 & Hp3 & Hf).
  exists p3. split; [|exact Hf].
  rewrite nth_error_app2 by lia. rewrite Nat.add_comm, Nat.add_sub. exact Hp3.
Qed.

Lemma getVPos4_prefix VPos3 ITris3 VPos4 j :
  getVPos4 VPos3 ITris3 = Ok VPos4 -> j < length VPos3 ->
  nth_error VPos4 j = nth_error VPos3 j.
Proof. intros (V4 & _ & ->)%getVPos4_Ok Hj. apply nth_error_app1. exact Hj. Qed.

(** The extended edge matrix of triangle [i] is its local frame. *)
Lemma edges4_frame VPos3 ITris3 VPos4 i t :
  getVPos4 VPos3 ITris3 = Ok VPos4 -> nth_error ITris3 i = Some t ->
  exists p0 p1 p2 E,
    nth_error VPos3 (ti0 t) = Some p0 /\ nth_error VPos3 (ti1 t) = Some p1 /\
    nth_error VPos3 (ti2 t) = Some p2 /\
    edges4 VPos4 (T4 (ti0 t) (ti1 t) (ti2 t) (length VPos3 + i)) = Ok E /\
    meq E (frame_matrix p0 p1 p2).
Proof.
  intros HV Ht. destruct (getVPos4_nth _ _ _ _ _ HV Ht) as (p3 & Hp3 & Hf).
  apply fourth_vertex_Ok in Hf as (p0 & p1 & p2 & H0 & H1 & H2 & ->).
  exists p0, p1, p2. eexists. split; [exact H0|]. split; [exact H1|]. split; [exact H2|].
  split.
  - unfold edges4. simpl.
    assert (Hr : forall j p, nth_error VPos3 j = Some p -> get VPos4 j = Ok p).
    { intros j p Hj. apply get_Ok. rewrite (getVPos4_prefix _ _ _ _ HV); [exact Hj|].
      apply nth_error_Some. congruence. }
    rewrite (Hr _ _ H0), (Hr _ _ H1), (Hr _ _ H2). simpl.
    rewrite (proj2 (get_Ok _ _ _) Hp3). reflexivity.
  - unfold frame_matrix. apply mcols_Proper; [reflexivity | reflexivity | apply fourth_edge].
Qed.

(** The synthetic edge is orthogonal to both edges of the triangle. *)
Lemma fourth_edge_orthogonal p0 p1 p2 :
  let n := cross (vsub p1 p0) (vsub p2 p0) in
  (dot (vdivs n (qsqrt (sumsq n))) (vsub p1 p0) == 0 /\
   dot (vdivs n (qsqrt (sumsq n))) (vsub p2 p0) == 0)%Q.
Proof. intros n. unfold n. vec_destruct. vec_unfold. unfold Qdiv. split; ring. Qed.

(** With a square root that is exact at [|n|^2], the synthetic edge has
    length one. *)
Lemma fourth_edge_unit p0 p1 p2 :
  let n := cross (vsub p1 p0) (vsub p2 p0) in
  (0 < sumsq n)%Q -> (qsqrt (sumsq n) * qsqrt (sumsq n) == sumsq n)%Q ->
  (sumsq (vdivs n (qsqrt (sumsq n))) == 1)%Q.
Proof.
  intros n Hn Hsq. set (r := qsqrt (sumsq n)) in *.
  assert (Hr : ~ (r == 0)%Q) by (apply Qnot_eq_sym, Qlt_not_eq, qsqrt_pos; exact Hn).
  transitivity (sumsq n / (r * r))%Q.
  - unfold sumsq, vdivs. simpl. field. exact Hr.
  - rewrite Hsq. field. apply Qnot_eq_sym, Qlt_not_eq. exact Hn.
Qed.

(** Translating the pose translates the synthetic vertex. *)
Lemma fourth_vertex_translate c VPos3 t p3 :
  fourth_vertex VPos3 t = Ok p3 ->
  exists q3, fourth_vertex (translate c VPos3) t = Ok q3 /\ veq q3 (vadd c p3).
Proof.
  intros (p0 & p1 & p2 & H0 & H1 & H2 & ->)%fourth_vertex_Ok.
  eexists. split.
  - apply fourth_vertex_Ok. exists (vadd c p0), (vadd c p1), (vadd c p2).
    unfold translate. rewrite !nth_error_map, H0, H1, H2. repeat split; reflexivity.
  - assert (E : forall a b, veq (vsub (vadd c a) (vadd c b)) (vsub a b)) by (intros; vec_ring).
    rewrite !E. vec_ring.
Qed.

(** Every extended edge matrix of a pose with in-range indices exists. *)
Lemma extended_edges_exist P Tris P4 :
  getVPos4 P Tris = Ok P4 -> Forall (fun t => tri_in_range (length P) t = true) Tris ->
  exists Es, mapM (edges4 P4) (tris4 (length P) Tris) = Ok Es.
Proof.
  intros HP HT. apply mapM_total. intros x Hx.
  apply In_tris4 in Hx as (i & t & Ht & ->).
  pose proof (getVPos4_nth _ _ _ _ _ HP Ht) as (p3 & Hp3 & _).
  rewrite Forall_forall in HT. apply nth_error_In in Ht.
  apply HT, tri_in_range_true in Ht as (H0 & H1 & H2).
  assert (Hg : forall j, j < length P -> exists p, get P4 j = Ok p).
  { intros j Hj. apply get_lt. rewrite (getVPos4_length _ _ _ HP). lia. }
  destruct (Hg _ H0) as [p0 E0], (Hg _ H1) as [p1 E1], (Hg _ H2) as [p2 E2].
  unfold edges4. simpl. rewrite E0, E1, E2. simpl. rewrite (proj2 (get_Ok _ _ _) Hp3).
  eexists. reflexivity.
Qed.

(** On a pose satisfying the mesh invariant every extended edge matrix is
    invertible. *)
Lemma extended_edges_nonsingular P Tris P4 Es :
  getVPos4 P Tris = Ok P4 -> forallb (tri_ok P) Tris = true ->
  mapM (edges4 P4) (tris4 (length P) Tris) = Ok Es ->
  Forall (fun E => ~ (mdet E == 0)%Q) Es.
Proof.
  intros HP HT HE. apply mapM_Ok in HE. apply Forall_forall. intros E HEin.
  apply In_nth_error in HEin as [i Hi].
  destruct (Forall2_nth_r _ _ _ _ _ HE Hi) as (x & Hx & Hxe).
  apply nth_error_In in Hx. apply In_tris4 in Hx as (j & t & Ht & ->).
  destruct (edges4_frame _ _ _ _ _ HP Ht) as (p0 & p1 & p2 & E' & H0 & H1 & H2 & HE' & Hm).
  rewrite HE' in Hxe. injection Hxe as <-. rewrite Hm. apply frame_matrix_nonsingular.
  rewrite forallb_forall in HT. apply nth_error_In in Ht. apply HT, tri_ok_true in Ht
    as (q0 & q1 & q2 & G0 & G1 & G2 & Hnd). congruence.
Qed.

End Props.

(** The edge matrix of a triangle exists in every pose of the same length. *)
Lemma edges4_same_length P P' t E :
  edges4 P t = Ok E -> length P' = length P -> exists E', edges4 P' t = Ok E'.
Proof.
  unfold edges4. intros HE Hl. inv_ok. apply get_Ok in H, H0, H1, H2.
  assert (Hg : forall j p, nth_error P j = Some p -> exists p', get P' j = Ok p').
  { intros j p Hj. apply get_lt. rewrite Hl. apply nth_error_Some. congruence. }
  destruct (Hg _ _ H) as [q0 ->], (Hg _ _ H0) as [q1 ->], (Hg _ _ H1) as [q2 ->],
    (Hg _ _ H2) as [q3 ->]. simpl. eexists. reflexivity.
Qed.

(** A gather that succeeds reads only rows of the pose. *)
Lemma edges4_bounds P t E :
  edges4 P t = Ok E ->
  tj0 t < length P /\ tj1 t < length P /\ tj2 t < length P /\ tj3 t < length P.
Proof.
  unfold edges4. intros HE. inv_ok. apply get_Ok in H, H0, H1, H2.
  repeat split; apply nth_error_Some; congruence.
Qed.

Lemma tris4_bounds NV Tris x :
  Forall (fun t => tri_in_range NV t = true) Tris -> In x (tris4 NV Tris) ->
  tj0 x < NV /\ tj1 x < NV /\ tj2 x < NV /\ tj3 x < NV + length Tris.
Proof.
  intros HT Hx. apply In_tris4 in Hx as (i & t & Ht & ->). simpl.
  assert (Hi : i < length Tris) by (apply nth_error_Some; congruence).
  rewrite Forall_forall in HT. apply nth_error_In, HT, tri_in_range_true in Ht. lia.
Qed.

(** The synthetic-vertex column of [Tris4] is [np.arange(NVertices, NVertices4)]. *)
Lemma map_tj3_tris4 NV Tris : map tj3 (tris4 NV Tris) = seq NV (length Tris).
Proof.
  revert NV. induction Tris as [|t Tris IH]; intros NV; [reflexivity|].
  unfold tris4 in *. cbn. f_equal. apply IH.
Qed.

(** ** Translations *)

(** A pose that is, vertex by vertex, [P] translated by [c] has the same
    extended edge matrices as [P]. *)
Lemma edges4_shift c P P' t E :
  Forall2 veq P' (translate c P) -> edges4 P t = Ok E -> exists E', edges4 P' t = Ok E' /\ meq E' E.
Proof.
  intros HP. unfold edges4.
  assert (Hs : forall j p, get P j = Ok p -> exists q, get P' j = Ok q /\ veq q (vadd c p)).
  { intros j p Hj%get_Ok.
    assert (Ht : nth_error (translate c P) j = Some (vadd c p))
      by (unfold translate; rewrite nth_error_map, Hj; reflexivity).
    destruct (Forall2_nth_r _ _ _ _ _ HP Ht) as (q & Hq & Hv).
    exists q. split; [apply get_Ok; exact Hq | exact Hv]. }
  destruct (get P (tj0 t)) as [p0|] eqn:E0; [|discriminate]. cbn [rbind].
  destruct (get P (tj1 t)) as [p1|] eqn:E1; [|discriminate]. cbn [rbind].
  destruct (get P (tj2 t)) as [p2|] eqn:E2; [|discriminate]. cbn [rbind].
  destruct (get P (tj3 t)) as [p3|] eqn:E3; [|discriminate]. cbn [rbind]. intros [= <-].
  destruct (Hs _ _ E0) as (q0 & -> & H0), (Hs _ _ E1) as (q1 & -> & H1),
    (Hs _ _ E2) as (q2 & -> & H2), (Hs _ _ E3) as (q3 & -> & H3). cbn [rbind].
  eexists. split; [reflexivity|]. rewrite H0, H1, H2, H3.
  assert (E : forall a b, veq (vsub (vadd c a) (vadd c b)) (vsub a b)) by (intros; vec_ring).
  rewrite !E. reflexivity.
Qed.

Lemma mapM_edges4_shift c P P' T Vs :
  Forall2 veq P' (translate c P) -> mapM (edges4 P) T = Ok Vs ->
  exists Vs', mapM (edges4 P') T = Ok Vs' /\ Forall2 meq Vs' Vs.
Proof.
  intros HP HVs. apply mapM_Ok in HVs. induction HVs as [|t E T Vs HE _ IH].
  - exists []. split; [reflexivity | constructor].
  - destruct (edges4_shift _ _ _ _ _ HP HE) as (E' & HE' & Hm).
    destruct IH as (Vs' & HVs' & Hms). exists (E' :: Vs'). split; [|constructor; assumption].
    cbn. rewrite HE', HVs'. reflexivity.
Qed.

(** Translating a pose translates its extension: the synthetic vertices
    move with it. *)
Lemma getVPos4_translate `{SqrtOp} c P3 Tris P4 :
  getVPos4 P3 Tris = Ok P4 ->
  exists P4', getVPos4 (translate c P3) Tris = Ok P4' /\ Forall2 veq P4' (translate c P4).
Proof.
  intros (V4 & HV & ->)%getVPos4_Ok. unfold get4thVertex in HV. apply mapM_Ok in HV.
  assert (HV' : exists V4', mapM (fourth_vertex (translate c P3)) Tris = Ok V4' /\
                           Forall2 veq V4' (map (vadd c) V4)).
  { induction HV as [|t p3 T V4 Hp _ IH]; [exists []; split; [reflexivity | constructor]|].
    destruct (fourth_vertex_translate c _ _ _ Hp) as (q3 & Hq & Hv).
    destruct IH as (V4' & HV4' & Hvs). exists (q3 :: V4'). split; [|constructor; assumption].
    cbn. rewrite Hq, HV4'. reflexivity. }
  destruct HV' as (V4' & HV4' & Hvs). exists (translate c P3 ++ V4'). split.
  - apply getVPos4_Ok. exists V4'. split; [exact HV4' | reflexivity].
  - unfold translate. rewrite map_app. apply Forall2_app; [|exact Hvs].
    assert (Hr : forall l : pose, Forall2 veq l l)
      by (induction l; constructor; [reflexivity | assumption]).
    apply Hr.
Qed.

Lemma shifted_translate c P : shifted c P (translate c P).
Proof. induction P as [|p P IH]; constructor; [reflexivity | exact IH]. Qed.

(** Edge differences do not see a common shift. *)
Lemma vsub_shift c a b a' b' : veq a' (vadd c a) -> veq b' (vadd c b) -> veq (vsub a' b') (vsub a b).
Proof. intros Ha Hb. rewrite Ha, Hb. vec_ring. Qed.

(** The extended edge matrix of a shifted pose: the same indices raise,
    and the matrices agree. *)
Lemma edges4_rel c P P' t : shifted c P P' -> res_rel meq (edges4 P t) (edges4 P' t).
Proof.
  intros HP. unfold edges4.
  apply (res_rel_bind (fun p q => veq q (vadd c p))); [apply get_rel; exact HP|]. intros p0 q0 H0.
  apply (res_rel_bind (fun p q => veq q (vadd c p))); [apply get_rel; exact HP|]. intros p1 q1 H1.
  apply (res_rel_bind (fun p q => veq q (vadd c p))); [apply get_rel; exact HP|]. intros p2 q2 H2.
  apply (res_rel_bind (fun p q => veq q (vadd c p))); [apply get_rel; exact HP|]. intros p3 q3 H3.
  cbn. rewrite (vsub_shift _ _ _ _ _ H1 H0), (vsub_shift _ _ _ _ _ H2 H0), (vsub_shift _ _ _ _ _ H3 H0).
  reflexivity.
Qed.

Lemma mapM_edges4_rel c P P' T : shifted c P P' -> res_rel (Forall2 meq) (mapM (edges4 P) T) (mapM (edges4 P') T).
Proof. intros HP. apply mapM_rel. intros t _. exact (edges4_rel _ _ _ _ HP). Qed.

Section Shift.
Context `{SqrtOp}.

(** The synthetic vertex of a shifted pose is shifted, and the same
    indices raise. *)
Lemma fourth_vertex_rel c P P' t :
  shifted c P P' -> res_rel (fun p q => veq q (vadd c p)) (fourth_vertex P t) (fourth_vertex P' t).
Proof.
  intros HP. unfold fourth_vertex.
  apply (res_rel_bind (fun p q => veq q (vadd c p))); [apply get_rel; exact HP|]. intros p0 q0 H0.
  apply (res_rel_bind (fun p q => veq q (vadd c p))); [apply get_rel; exact HP|]. intros p1 q1 H1.
  apply (res_rel_bind (fun p q => veq q (vadd c p))); [apply get_rel; exact HP|]. intros p2 q2 H2.
  cbn. rewrite (vsub_shift _ _ _ _ _ H1 H0), (vsub_shift _ _ _ _ _ H2 H0), H0. vec_ring.
Qed.

(** Extending a shifted pose gives the shifted extension. *)
Lemma getVPos4_rel c P P' Tris : shifted c P P' -> res_rel (shifted c) (getVPos4 P Tris) (getVPos4 P' Tris).
Proof.
  intros HP. unfold getVPos4, get4thVertex.
  apply (res_rel_bind (Forall2 (fun p q => veq q (vadd c p))));
    [apply mapM_rel; intros t _; exact (fourth_vertex_rel _ _ _ _ HP)|].
  intros V4 V4' HV. cbn. apply Forall2_app; assumption.
Qed.

End Shift.

(** ** Properties *)

Section Claims.
Context `{SqrtOp}.

(** C9: the extended frame of every in-range, non-degenerate triangle of a
    pose is invertible: [np.linalg.inv] on the edge matrix built from
    [getVPos4] and [Tris4] never raises [LinAlgError] for it. *)
Theorem extended_frame_invertible P Tris P4 i t :
  getVPos4 P Tris = Ok P4 -> nth_error Tris i = Some t -> tri_ok P t = true ->
  exists E W, edges4 P4 (T4 (ti0 t) (ti1 t) (ti2 t) (length P + i)) = Ok E /\ inv3 E = Ok W.
Proof.
  intros HP Ht Hok.
  destruct (edges4_frame _ _ _ _ _ HP Ht) as (p0 & p1 & p2 & E & H0 & H1 & H2 & HE & Hm).
  apply tri_ok_true in Hok as (q0 & q1 & q2 & G0 & G1 & G2 & Hnd).
  rewrite H0 in G0. rewrite H1 in G1. rewrite H2 in G2.
  injection G0 as <-. injection G1 as <-. injection G2 as <-.
  destruct (inv3_nonsingular E) as [W HW]; [rewrite Hm; apply frame_matrix_nonsingular; exact Hnd|].
  eauto.
Qed.

(** C26: the synthetic vertex the code computes is the first vertex plus the
    unit normal: its offset is orthogonal to both edges and, where [np.sqrt]
    is exact, of length one, whatever the area of the triangle (the spec
    asks for [n / sqrt |n|], of length [sqrt |n|]). *)
Theorem get4thVertex_unit_normal P Tris V4 i t p0 p1 p2 :
  get4thVertex P Tris = Ok V4 -> nth_error Tris i = Some t ->
  nth_error P (ti0 t) = Some p0 -> nth_error P (ti1 t) = Some p1 ->
  nth_error P (ti2 t) = Some p2 -> nondegenerate p0 p1 p2 ->
  (qsqrt (sumsq (cross (vsub p1 p0) (vsub p2 p0))) * qsqrt (sumsq (cross (vsub p1 p0) (vsub p2 p0)))
     == sumsq (cross (vsub p1 p0) (vsub p2 p0)))%Q ->
  exists p3, nth_error V4 i = Some p3 /\ (sumsq (vsub p3 p0) == 1)%Q /\
    (dot (vsub p3 p0) (vsub p1 p0) == 0)%Q /\ (dot (vsub p3 p0) (vsub p2 p0) == 0)%Q.
Proof.
  intros HV Ht H0 H1 H2 Hnd Hsq. apply mapM_Ok in HV.
  destruct (Forall2_nth_l _ _ _ _ _ HV Ht) as (p3 & Hp3 & Hf).
  apply fourth_vertex_Ok in Hf as (q0 & q1 & q2 & G0 & G1 & G2 & ->).
  rewrite H0 in G0. rewrite H1 in G1. rewrite H2 in G2.
  injection G0 as <-. injection G1 as <-. injection G2 as <-.
  eexists. split; [exact Hp3|]. rewrite fourth_edge.
  destruct (fourth_edge_orthogonal p0 p1 p2) as [O1 O2].
  split; [apply fourth_edge_unit; assumption|]. split; assumption.
Qed.

(** C27: the code has no degeneracy check: [get4thVertex] raises nothing on
    any pose whose indices are in range, zero-area triangles included (the
    spec requires a [DegenerateGeometryError]). *)
Theorem get4thVertex_no_degeneracy_error P Tris :
  forallb (tri_in_range (length P)) Tris = true ->
  exists V4, get4thVertex P Tris = Ok V4.
Proof.
  intros Hr. apply get4thVertex_total. apply Forall_forall. intros t Ht.
  rewrite forallb_forall in Hr. apply Hr. exact Ht.
Qed.

End Claims.

(** Index bounds of [Tris4].  For triangles whose indices are vertices,
    every row of [Tris4] reads its three corners below [NVertices], and the
    synthetic-vertex column is exactly [NVertices, ..., NVertices4 - 1], one
    distinct index per face, in face order. *)
Lemma tris4_index_bounds NV Tris :
  Forall (fun t => tri_in_range NV t = true) Tris ->
  map tj3 (tris4 NV Tris) = seq NV (length Tris) /\
  Forall (fun x => tj0 x < NV /\ tj1 x < NV /\ tj2 x < NV /\ NV <= tj3 x < NV + length Tris)
         (tris4 NV Tris).
Proof.
  intros HT. split; [apply map_tj3_tris4|]. apply Forall_forall. intros x Hx.
  destruct (tris4_bounds _ _ _ HT Hx) as (B0 & B1 & B2 & B3).
  apply In_tris4 in Hx as (i & t & _ & ->). cbn in *. lia.
Qed.

(** ** Example data used by the witnesses *)

(** The value of a computation known to succeed. *)
Definition ok_or {A : Type} (d : A) (r : result A) : A :=
  match r with Ok a => a | Err _ => d end.

(** One right triangle in the plane [z = 0], and a second triangle sharing
    its edge [1-2]: the quad of the spec's end-to-end scenario. *)
Definition ex_pose : pose := [V3 0 0 0; V3 1 0 0; V3 0 1 0; V3 1 1 0].
Definition ex_tris : list tri3 := [T3 0 1 2; T3 1 3 2].
Definition ex_pose4 : pose := ok_or [] (getVPos4 ex_pose ex_tris).

#[export] Hint Resolve frame_matrix_nonsingular getVPos4_length : dt.

(** ** Witnesses *)

Lemma extended_frame_invertible_witness :
  getVPos4 ex_pose ex_tris = Ok ex_pose4 /\ nth_error ex_tris 1 = Some (T3 1 3 2) /\
  tri_ok ex_pose (T3 1 3 2) = true /\
  exists E W, edges4 ex_pose4 (T4 1 3 2 (length ex_pose + 1)) = Ok E /\ inv3 E = Ok W.
Proof.
  assert (HP : getVPos4 ex_pose ex_tris = Ok ex_pose4) by (vm_compute; reflexivity).
  assert (Ht : nth_error ex_tris 1 = Some (T3 1 3 2)) by reflexivity.
  assert (Hok : tri_ok ex_pose (T3 1 3 2) = true) by (vm_compute; reflexivity).
  split; [exact HP|]. split; [exact Ht|]. split; [exact Hok|].
  exact (extended_frame_invertible _ _ _ _ _ HP Ht Hok).
Defined.

Lemma get4thVertex_unit_normal_witness :
  get4thVertex ex_pose ex_tris = Ok (ok_or [] (get4thVertex ex_pose ex_tris)) /\
  exists p3, nth_error (ok_or [] (get4thVertex ex_pose ex_tris)) 0 = Some p3 /\
    (sumsq (vsub p3 (V3 0 0 0)) == 1)%Q /\
    (dot (vsub p3 (V3 0 0 0)) (vsub (V3 1 0 0) (V3 0 0 0)) == 0)%Q /\
    (dot (vsub p3 (V3 0 0 0)) (vsub (V3 0 1 0) (V3 0 0 0)) == 0)%Q.
Proof.
  assert (HV : get4thVertex ex_pose ex_tris = Ok (ok_or [] (get4thVertex ex_pose ex_tris)))
    by (vm_compute; reflexivity).
  split; [exact HV|].
  apply (get4thVertex_unit_normal ex_pose ex_tris _ 0 (T3 0 1 2));
    first [exact HV | reflexivity | unfold nondegenerate; vm_compute; reflexivity].
Defined.

(** Two coincident vertices: a zero-area triangle. *)
Definition ex_degenerate : pose := [V3 0 0 0; V3 0 0 0; V3 1 0 0].

Lemma get4thVertex_no_degeneracy_error_witness :
  forallb (tri_in_range (length ex_degenerate)) [T3 0 1 2] = true /\
  ~ nondegenerate (V3 0 0 0) (V3 0 0 0) (V3 1 0 0) /\
  exists V4, get4thVertex ex_degenerate [T3 0 1 2] = Ok V4.
Proof.
  assert (Hr : forallb (tri_in_range (length ex_degenerate)) [T3 0 1 2] = true) by reflexivity.
  split; [exact Hr|]. split; [unfold nondegenerate; vm_compute; discriminate|].
  exact (get4thVertex_no_degeneracy_error _ _ Hr).
Defined.
