(* ===== verification/Affine.v ===== *)
(** * Affine: the affine transformation builder ([getSMatrix])

    [DeformationTranferer.getSMatrix(oldVPos4, newVPos4, Tris4)] computes the
    old and new edge matrices of every extended triangle, asserts that
    [NFaces] is the number of rows of [Tris4], and then, in a loop over the
    faces, inverts the old edge matrix and appends [tildev . vInv] to the
    [3 x 0] array [S] with [np.hstack].  [smat] is that 3-row array; the loop
    is [smat_loop].

    The theorems: the loop stacks the blocks [S_i = V~_i V_i^-1] in face
    order ([getSMatrix_Ok]); every block maps the old edges to the new ones;
    two identical poses give identity blocks; translating the new source
    frame changes no entry of [S]; a pose whose triangles are all
    non-degenerate never makes [getSMatrix] raise; and [LinAlgError] is
    raised exactly when some old edge matrix is singular. *)

From Stdlib Require Import Arith QArith Qfield Lqa Lia List Setoid Morphisms.
From S2P Require Import Prelude Linalg Frame.
Import ListNotations.
Open Scope nat_scope.

(** ** Data and operations *)

(** A [3 x n] numpy array, by rows. *)
Record smat : Type := SM { srow0 : list Q; srow1 : list Q; srow2 : list Q }.

(** [S[k, :]] *)
Definition srow (k : nat) (S : smat) : list Q :=
  match k with 0 => srow0 S | 1 => srow1 S | _ => srow2 S end.

(** [np.zeros((3, 0))] *)
Definition szero : smat := SM [] [] [].

(** [np.hstack((S, M))] for a 3x3 block [M]. *)
Definition hstack (S : smat) (M : mat3) : smat :=
  SM (srow0 S ++ mrow 0 M) (srow1 S ++ mrow 1 M) (srow2 S ++ mrow 2 M).

(** [for i in range(0, self.NFaces): vInv = ...; tildev = ...;
     S = np.hstack((S, np.dot(tildev, vInv)))] *)
Fixpoint smat_loop (S : smat) (faces : list (mat3 * mat3)) : result smat :=
  match faces with
  | [] => Ok S
  | (v, tildev) :: rest =>
      let* vInv := inv3 v in
      smat_loop (hstack S (mmul tildev vInv)) rest
  end.

Definition getSMatrix (NFaces : nat) (oldVPos4 newVPos4 : pose) (Tris4 : list tri4)
  : result smat :=
  let* V := mapM (edges4 oldVPos4) Tris4 in
  let* tildeV := mapM (edges4 newVPos4) Tris4 in
  let* _ := check (NFaces =? length Tris4) AssertionError in
  smat_loop szero (combine V tildeV).

(** The array whose row [k] concatenates row [k] of each block. *)
Definition stack (Bs : list mat3) : smat :=
  SM (flat_map (mrow 0) Bs) (flat_map (mrow 1) Bs) (flat_map (mrow 2) Bs).

(** The blocks [S_i = V~_i V_i^-1] of a list of old and new edge matrices. *)
Definition affine_blocks (faces : list (mat3 * mat3)) (Bs : list mat3) : Prop :=
  Forall2 (fun p B => exists W, inv3 (fst p) = Ok W /\ B = mmul (snd p) W) faces Bs.

(** Two [3 x n] arrays with equal entries, row by row. *)
Definition smat_rel (S S' : smat) : Prop := forall k, qleq (srow k S) (srow k S').

(** ** The loop *)

Lemma hstack_stack Bs B : hstack (stack Bs) B = stack (Bs ++ [B]).
Proof. unfold hstack, stack. simpl. rewrite !flat_map_app. simpl. rewrite ?app_nil_r. reflexivity. Qed.

Lemma smat_loop_Ok Bs0 faces S :
  smat_loop (stack Bs0) faces = Ok S <->
  exists Bs, affine_blocks faces Bs /\ S = stack (Bs0 ++ Bs).
Proof.
  revert Bs0. induction faces as [|[v tv] faces IH]; intros Bs0; simpl.
  - split.
    + intros [= <-]. exists []. split; [constructor | rewrite app_nil_r; reflexivity].
    + intros ([|B Bs] & HB & ->); [rewrite app_nil_r; reflexivity | inversion HB].
  - split.
    + intros HS. inv_ok. rewrite hstack_stack in HS. apply IH in HS as (Bs & HBs & ->).
      exists (mmul tv x :: Bs). split; [constructor; [eauto | exact HBs]|].
      rewrite <- app_assoc. reflexivity.
    + intros (Bs & HBs & ->). inversion HBs as [|? B ? Bs' (W & HW & ->) HBs']; subst.
      simpl in HW. rewrite HW. simpl. rewrite hstack_stack. apply IH.
      exists Bs'. split; [exact HBs' | rewrite <- app_assoc; reflexivity].
Qed.

Lemma szero_stack : szero = stack [].
Proof. reflexivity. Qed.

(** [getSMatrix] succeeds with the stacked blocks [S_i = V~_i V_i^-1]. *)
Lemma getSMatrix_Ok NFaces old new Tris4 S :
  getSMatrix NFaces old new Tris4 = Ok S <->
  exists V tildeV Bs, mapM (edges4 old) Tris4 = Ok V /\ mapM (edges4 new) Tris4 = Ok tildeV /\
    NFaces = length Tris4 /\ affine_blocks (combine V tildeV) Bs /\ S = stack Bs.
Proof.
  unfold getSMatrix. rewrite szero_stack. split.
  - intros HS. inv_ok. destruct x1. apply check_Ok, Nat.eqb_eq in H1.
    apply smat_loop_Ok in HS as (Bs & HBs & ->). exists x, x0, Bs. auto 6.
  - intros (V & tV & Bs & HV & HtV & HN & HBs & ->). rewrite HV, HtV. simpl.
    apply Nat.eqb_eq in HN. rewrite HN. simpl. apply smat_loop_Ok. eauto.
Qed.

Lemma affine_blocks_length faces Bs : affine_blocks faces Bs -> length Bs = length faces.
Proof. intros H. symmetry. eapply Forall2_length. exact H. Qed.

Lemma length_srow_stack k Bs : length (srow k (stack Bs)) = 3 * length Bs.
Proof.
  induction Bs as [|B Bs IH]; [destruct k as [|[|k]]; reflexivity|].
  destruct k as [|[|k]]; simpl in *; rewrite IH; lia.
Qed.

(** Every block maps the old edge matrix to the new one. *)
Lemma affine_block_correct v tv W : inv3 v = Ok W -> meq (mmul (mmul tv W) v) tv.
Proof.
  intros HW. rewrite <- mmul_assoc, (inv3_l _ _ HW). apply mmul_id_r.
Qed.

(** The block loop runs to completion when every old edge matrix is
    invertible. *)
Lemma smat_loop_total faces :
  Forall (fun p => ~ (mdet (fst p) == 0)%Q) faces ->
  exists Bs, affine_blocks faces Bs.
Proof.
  induction 1 as [|[v tv] faces Hd _ [Bs HBs]].
  - exists []. constructor.
  - destruct (inv3_nonsingular _ Hd) as [W HW].
    exists (mmul tv W :: Bs). constructor; [exists W; split; [exact HW | reflexivity] | exact HBs].
Qed.

(** [LinAlgError] comes out of the loop exactly at a singular old edge
    matrix. *)
Lemma smat_loop_Err S faces e :
  smat_loop S faces = Err e -> e = LinAlgError /\ Exists (fun p => (mdet (fst p) == 0)%Q) faces.
Proof.
  revert S. induction faces as [|[v tv] faces IH]; intros S H; simpl in H; [discriminate|].
  destruct (inv3 v) eqn:Hv; simpl in H.
  - apply IH in H as [He Hex]. split; [exact He | right; exact Hex].
  - unfold inv3 in Hv. destruct (Qeq_bool (mdet v) 0) eqn:E; [|discriminate].
    injection Hv as <-. injection H as <-. split; [reflexivity|]. left. apply Qeq_bool_iff. exact E.
Qed.

Lemma mrow_meq a B C : meq B C -> qleq (mrow a B) (mrow a C).
Proof. intros HBC. unfold mrow. repeat constructor; apply mentry_Proper; auto. Qed.

Lemma srow_stack_meq k Bs Cs : Forall2 meq Bs Cs -> qleq (srow k (stack Bs)) (srow k (stack Cs)).
Proof.
  induction 1 as [|B C Bs Cs HBC _ IH]; [destruct k as [|[|k]]; constructor|].
  destruct k as [|[|k]]; cbn [srow stack srow0 srow1 srow2 flat_map] in *;
    (apply qleq_app; [apply mrow_meq; exact HBC | exact IH]).
Qed.

(** ** Related inputs *)

Lemma hstack_rel S S' B B' : smat_rel S S' -> meq B B' -> smat_rel (hstack S B) (hstack S' B').
Proof.
  intros HS HB [|[|k]]; cbn; apply qleq_app; [exact (HS 0) | apply mrow_meq; exact HB
    | exact (HS 1) | apply mrow_meq; exact HB | exact (HS 2) | apply mrow_meq; exact HB].
Qed.

(** [np.linalg.inv] raises on both of two equal matrices or on neither. *)
Lemma inv3_rel M M' : meq M M' -> res_rel meq (inv3 M) (inv3 M').
Proof.
  intros HM. destruct (inv3 M) as [W|e] eqn:HW.
  - destruct (inv3_Proper _ _ _ HM HW) as (W' & -> & HWW). exact HWW.
  - destruct (inv3 M') as [W'|e'] eqn:HW'.
    + destruct (inv3_Proper M' M W' (symmetry HM) HW') as (W & HW2 & _). congruence.
    + unfold inv3 in HW, HW'. destruct (Qeq_bool (mdet M) 0), (Qeq_bool (mdet M') 0); congruence.
Qed.

Lemma smat_loop_rel S S' faces faces' : smat_rel S S' ->
  Forall2 (fun p p' => meq (fst p) (fst p') /\ meq (snd p) (snd p')) faces faces' ->
  res_rel smat_rel (smat_loop S faces) (smat_loop S' faces').
Proof.
  intros HS HF. revert S S' HS. induction HF as [|[v tv] [v' tv'] faces faces' [Hv Htv] _ IH];
    intros S S' HS; cbn; [exact HS|].
  apply (res_rel_bind meq); [apply inv3_rel; exact Hv|]. intros W W' HW.
  apply IH. apply hstack_rel; [exact HS | cbn in Htv; rewrite Htv, HW; reflexivity].
Qed.

(** [getSMatrix] of shifted old and new poses: the same exceptions, and
    equal rows of [S]. *)
Lemma getSMatrix_rel NF c d old old' new new' T4 : shifted c old old' -> shifted d new new' ->
  res_rel smat_rel (getSMatrix NF old new T4) (getSMatrix NF old' new' T4).
Proof.
  intros Ho Hn. unfold getSMatrix.
  apply (res_rel_bind (Forall2 meq)); [exact (mapM_edges4_rel _ _ _ _ Ho)|]. intros V V' HV.
  apply (res_rel_bind (Forall2 meq)); [exact (mapM_edges4_rel _ _ _ _ Hn)|]. intros tV tV' HtV.
  apply res_rel_bind_same. intros _.
  apply smat_loop_rel; [intros k; reflexivity | apply Forall2_combine; assumption].
Qed.

Lemma srow_stack_repeat k B n : srow k (stack (repeat B n)) = concat (repeat (mrow k B) n).
Proof. induction n as [|n IH]; destruct k as [|[|k]]; simpl in *; try rewrite IH; reflexivity. Qed.

(** Identical old and new edge matrices give identity blocks. *)
Lemma affine_blocks_diag Vs Bs : affine_blocks (combine Vs Vs) Bs -> Forall2 meq Bs (repeat mid (length Bs)).
Proof.
  revert Bs. induction Vs as [|v Vs IH]; intros Bs HB; inversion HB as [|? B ? Bs' (W & HW & ->) HBs']; subst;
    simpl; constructor; [exact (inv3_r _ _ HW) | apply IH; exact HBs'].
Qed.

(** Each row of [S] has three entries per face. *)
Lemma getSMatrix_srow_length NF old new T4 S k :
  getSMatrix NF old new T4 = Ok S -> length (srow k S) = 3 * length T4.
Proof.
  intros (V & tV & Bs & HV & HtV & _ & HBs & ->)%getSMatrix_Ok.
  rewrite length_srow_stack, (affine_blocks_length _ _ HBs), length_combine,
    (mapM_length _ _ _ HV), (mapM_length _ _ _ HtV). lia.
Qed.

(** [getSMatrix] on a well-formed old pose runs to completion. *)
Lemma getSMatrix_total_blocks NF old new Tris4 V tV :
  mapM (edges4 old) Tris4 = Ok V -> mapM (edges4 new) Tris4 = Ok tV -> NF = length Tris4 ->
  Forall (fun E => ~ (mdet E == 0)%Q) V ->
  exists S, getSMatrix NF old new Tris4 = Ok S.
Proof.
  intros HV HtV HN HnS. destruct (smat_loop_total (combine V tV)) as [Bs HBs].
  - apply (Forall_combine_fst (fun E => ~ (mdet E == 0)%Q)). exact HnS.
  - eexists. apply getSMatrix_Ok. exists V, tV, Bs. auto 6.
Qed.

Lemma nth_srow_stack a Bs i B k : nth_error Bs i = Some B -> k < 3 ->
  nth (i * 3 + k) (srow a (stack Bs)) 0%Q = mentry B a k.
Proof.
  revert i. induction Bs as [|B' Bs IH]; intros [|i] HB Hk; simpl in HB; try discriminate.
  - injection HB as <-. destruct a as [|[|a]], k as [|[|[|k]]]; try lia; reflexivity.
  - replace (S i * 3 + k) with (3 + (i * 3 + k)) by lia.
    destruct a as [|[|a]]; cbn [srow stack srow0 srow1 srow2 flat_map];
      rewrite app_nth2 by (unfold mrow; simpl; lia); unfold mrow; simpl length;
      rewrite Nat.add_comm, Nat.add_sub; apply (IH i HB Hk).
Qed.

(** Block [i] of the blocks built from the edge matrices of two poses. *)
Lemma affine_blocks_nth old new Tris4 V tV Bs i t :
  mapM (edges4 old) Tris4 = Ok V -> mapM (edges4 new) Tris4 = Ok tV ->
  affine_blocks (combine V tV) Bs -> nth_error Tris4 i = Some t ->
  exists v W tv B, edges4 old t = Ok v /\ inv3 v = Ok W /\ edges4 new t = Ok tv /\
    nth_error Bs i = Some B /\ B = mmul tv W.
Proof.
  intros HV HtV HBs Ht. apply mapM_Ok in HV, HtV.
  destruct (Forall2_nth_l _ _ _ _ _ HV Ht) as (v & Hv & Hvt).
  destruct (Forall2_nth_l _ _ _ _ _ HtV Ht) as (tv & Htv & Htvt).
  assert (Hc : nth_error (combine V tV) i = Some (v, tv)) by (rewrite nth_error_combine, Hv, Htv; reflexivity).
  destruct (Forall2_nth_l _ _ _ _ _ HBs Hc) as (B & HB & W & HW & ->).
  exists v, W, tv, (mmul tv W). auto.
Qed.

(** The block of face [i] in terms of its old and new edge matrices. *)
Lemma getSMatrix_block NF old new Tris4 S i t :
  getSMatrix NF old new Tris4 = Ok S -> nth_error Tris4 i = Some t ->
  exists Bs V W tV B, S = stack Bs /\ length Bs = length Tris4 /\ NF = length Tris4 /\
    edges4 old t = Ok V /\ inv3 V = Ok W /\ edges4 new t = Ok tV /\
    nth_error Bs i = Some B /\ B = mmul tV W.
Proof.
  intros (Vs & tVs & Bs & HV & HtV & HN & HBs & ->)%getSMatrix_Ok Ht.
  pose proof (mapM_length _ _ _ HV) as HlV. pose proof (mapM_length _ _ _ HtV) as HltV.
  apply mapM_Ok in HV, HtV.
  destruct (Forall2_nth_l _ _ _ _ _ HV Ht) as (v & Hv & Hvt).
  destruct (Forall2_nth_l _ _ _ _ _ HtV Ht) as (tv & Htv & Htvt).
  assert (Hc : nth_error (combine Vs tVs) i = Some (v, tv)) by (rewrite nth_error_combine, Hv, Htv; reflexivity).
  destruct (Forall2_nth_l _ _ _ _ _ HBs Hc) as (B & HB & W & HW & ->).
  exists Bs, v, W, tv, (mmul tv W). repeat split; try assumption.
  rewrite (affine_blocks_length _ _ HBs), length_combine. lia.
Qed.

(** ** Properties *)

(** C7: every block [S_i] that [getSMatrix] stacks maps the old extended
    edge matrix of triangle [i] to the new one: [S_i V_i = V~_i], the
    defining equation of the affine map [S_i = V~_i V_i^-1]. *)
Theorem getSMatrix_maps_edges NF old new Tris4 S :
  getSMatrix NF old new Tris4 = Ok S ->
  exists Bs, S = stack Bs /\ length Bs = length Tris4 /\
    forall i t B, nth_error Tris4 i = Some t -> nth_error Bs i = Some B ->
      exists V tV, edges4 old t = Ok V /\ edges4 new t = Ok tV /\ meq (mmul B V) tV.
Proof.
  intros (V & tV & Bs & HV & HtV & _ & HBs & ->)%getSMatrix_Ok.
  apply mapM_Ok in HV, HtV. exists Bs. split; [reflexivity|].
  split; [rewrite (affine_blocks_length _ _ HBs), length_combine;
          rewrite <- (Forall2_length HV), <- (Forall2_length HtV); lia|].
  intros i t B Ht HB.
  destruct (Forall2_nth_l _ _ _ _ _ HV Ht) as (v & Hv & Hvt).
  destruct (Forall2_nth_l _ _ _ _ _ HtV Ht) as (tv & Htv & Htvt).
  destruct (Forall2_nth_r _ _ _ _ _ HBs HB) as (p & Hp & W & HW & ->).
  rewrite nth_error_combine, Hv, Htv in Hp. injection Hp as <-. simpl in *.
  exists v, tv. split; [exact Hvt|]. split; [exact Htvt|]. apply affine_block_correct. exact HW.
Qed.

Lemma getSMatrix_maps_edges_witness :
  getSMatrix 2 ex_pose4 ex_pose4 (tris4 4 ex_tris) = Ok (ok_or szero (getSMatrix 2 ex_pose4 ex_pose4 (tris4 4 ex_tris))) /\
  exists Bs, ok_or szero (getSMatrix 2 ex_pose4 ex_pose4 (tris4 4 ex_tris)) = stack Bs /\
    length Bs = length (tris4 4 ex_tris) /\
    forall i t B, nth_error (tris4 4 ex_tris) i = Some t -> nth_error Bs i = Some B ->
      exists V tV, edges4 ex_pose4 t = Ok V /\ edges4 ex_pose4 t = Ok tV /\ meq (mmul B V) tV.
Proof.
  assert (H : getSMatrix 2 ex_pose4 ex_pose4 (tris4 4 ex_tris)
              = Ok (ok_or szero (getSMatrix 2 ex_pose4 ex_pose4 (tris4 4 ex_tris))))
    by (vm_compute; reflexivity).
  split; [exact H | exact (getSMatrix_maps_edges _ _ _ _ _ H)].
Defined.

(** C17: identity step.  When the new source pose equals the old one, every
    row of [S] is the corresponding row of the 3x3 identity repeated once
    per face. *)
Theorem getSMatrix_identity_step NF P4 Tris4 S :
  getSMatrix NF P4 P4 Tris4 = Ok S ->
  forall k, qleq (srow k S) (concat (repeat (mrow k mid) (length Tris4))).
Proof.
  intros (V & tV & Bs & HV & HtV & _ & HBs & ->)%getSMatrix_Ok k.
  rewrite HV in HtV. injection HtV as <-.
  pose proof (affine_blocks_length _ _ HBs) as HL.
  rewrite length_combine, Nat.min_id, (mapM_length _ _ _ HV) in HL.
  rewrite <- HL, <- srow_stack_repeat. apply srow_stack_meq. exact (affine_blocks_diag _ _ HBs).
Qed.

Lemma getSMatrix_identity_step_witness :
  getSMatrix 2 ex_pose4 ex_pose4 (tris4 4 ex_tris) = Ok (ok_or szero (getSMatrix 2 ex_pose4 ex_pose4 (tris4 4 ex_tris))) /\
  qleq (srow 0 (ok_or szero (getSMatrix 2 ex_pose4 ex_pose4 (tris4 4 ex_tris))))
       (concat (repeat (mrow 0 mid) (length (tris4 4 ex_tris)))).
Proof.
  assert (H : getSMatrix 2 ex_pose4 ex_pose4 (tris4 4 ex_tris)
              = Ok (ok_or szero (getSMatrix 2 ex_pose4 ex_pose4 (tris4 4 ex_tris))))
    by (vm_compute; reflexivity).
  split; [exact H | exact (getSMatrix_identity_step _ _ _ _ H 0)].
Defined.

(** C20: on an old source pose whose triangles are in range and
    non-degenerate, and a new pose with as many vertices, [getSMatrix]
    raises no exception: no [LinAlgError], [IndexError] or [AssertionError]. *)
Theorem getSMatrix_total `{SqrtOp} P Pn Tris P4 Pn4 :
  getVPos4 P Tris = Ok P4 -> getVPos4 Pn Tris = Ok Pn4 -> length Pn = length P ->
  forallb (tri_ok P) Tris = true ->
  exists S, getSMatrix (length Tris) P4 Pn4 (tris4 (length P) Tris) = Ok S.
Proof.
  intros HP HPn Hlen Hok.
  pose proof (tris_ok_in_range _ _ Hok) as Hr.
  destruct (extended_edges_exist _ _ _ HP Hr) as [V HV].
  destruct (extended_edges_exist Pn Tris Pn4 HPn) as [tV HtV]; [rewrite Hlen; exact Hr|].
  rewrite Hlen in HtV.
  apply (getSMatrix_total_blocks _ _ _ _ V tV HV HtV); [rewrite length_tris4; reflexivity|].
  exact (extended_edges_nonsingular _ _ _ _ HP Hok HV).
Qed.

Lemma getSMatrix_total_witness :
  getVPos4 ex_pose ex_tris = Ok ex_pose4 /\ length ex_pose = length ex_pose /\
  forallb (tri_ok ex_pose) ex_tris = true /\
  exists S, getSMatrix (length ex_tris) ex_pose4 ex_pose4 (tris4 (length ex_pose) ex_tris) = Ok S.
Proof.
  assert (HP : getVPos4 ex_pose ex_tris = Ok ex_pose4) by (vm_compute; reflexivity).
  assert (Hok : forallb (tri_ok ex_pose) ex_tris = true) by (vm_compute; reflexivity).
  split; [exact HP|]. split; [reflexivity|]. split; [exact Hok|].
  exact (getSMatrix_total _ _ _ _ _ HP HP eq_refl Hok).
Defined.

(** New edge matrices that agree up to [meq] give blocks that agree. *)
Lemma affine_blocks_meq V tV tV' Bs :
  affine_blocks (combine V tV) Bs -> Forall2 meq tV' tV -> length V = length tV ->
  exists Bs', affine_blocks (combine V tV') Bs' /\ Forall2 meq Bs' Bs.
Proof.
  intros HB Hm. revert V Bs HB. induction Hm as [|E' E tV' tV HE _ IH]; intros V Bs HB Hl.
  - exists []. destruct V; [|discriminate]. inversion HB. split; constructor.
  - destruct V as [|v V]; [discriminate|]. cbn in Hl, HB.
    inversion HB as [|? B ? Bs0 (W & HW & ->) HBs]; subst.
    destruct (IH V Bs0 HBs ltac:(lia)) as (Bs' & HBs' & Hms).
    exists (mmul E' W :: Bs'). split.
    + constructor; [exists W; split; [exact HW | reflexivity] | exact HBs'].
    + constructor; [rewrite HE; reflexivity | exact Hms].
Qed.

(** C13: translating the new source frame leaves [S] unchanged.  If the
    frame [P3] extends to [P4] and gives [S], the frame translated by any
    vector [c] extends, gives an [S'], and every entry of [S'] equals the
    entry of [S]: [S] sees only the shape of the source, not where it is, so
    a translation of the source motion is not transferred. *)
Theorem getSMatrix_source_translation `{SqrtOp} NF old P3 Tris Tris4 P4 S c :
  getVPos4 P3 Tris = Ok P4 -> getSMatrix NF old P4 Tris4 = Ok S ->
  exists P4' S', getVPos4 (translate c P3) Tris = Ok P4' /\ getSMatrix NF old P4' Tris4 = Ok S' /\
    forall k, qleq (srow k S') (srow k S).
Proof.
  intros HP HS. destruct (getVPos4_translate c _ _ _ HP) as (P4' & HP' & Heq).
  apply getSMatrix_Ok in HS as (V & tV & Bs & HV & HtV & HN & HB & ->).
  destruct (mapM_edges4_shift _ _ _ _ _ Heq HtV) as (tV' & HtV' & Hm).
  destruct (affine_blocks_meq V tV tV' Bs HB Hm) as (Bs' & HB' & Hms);
    [rewrite (mapM_length _ _ _ HV), (mapM_length _ _ _ HtV); reflexivity|].
  exists P4', (stack Bs'). split; [exact HP'|]. split.
  - apply getSMatrix_Ok. exists V, tV', Bs'. auto.
  - intros k. apply srow_stack_meq. exact Hms.
Qed.

Lemma getSMatrix_source_translation_witness :
  getVPos4 ex_pose ex_tris = Ok ex_pose4 /\
  getSMatrix 2 ex_pose4 ex_pose4 (tris4 4 ex_tris)
    = Ok (ok_or szero (getSMatrix 2 ex_pose4 ex_pose4 (tris4 4 ex_tris))) /\
  exists P4' S', getVPos4 (translate (V3 1 2 3) ex_pose) ex_tris = Ok P4' /\
    getSMatrix 2 ex_pose4 P4' (tris4 4 ex_tris) = Ok S' /\
    forall k, qleq (srow k S') (srow k (ok_or szero (getSMatrix 2 ex_pose4 ex_pose4 (tris4 4 ex_tris)))).
Proof.
  assert (HP : getVPos4 ex_pose ex_tris = Ok ex_pose4) by (vm_compute; reflexivity).
  assert (HS : getSMatrix 2 ex_pose4 ex_pose4 (tris4 4 ex_tris)
               = Ok (ok_or szero (getSMatrix 2 ex_pose4 ex_pose4 (tris4 4 ex_tris))))
    by (vm_compute; reflexivity).
  split; [exact HP|]. split; [exact HS|].
  exact (getSMatrix_source_translation _ _ _ _ _ _ _ (V3 1 2 3) HP HS).
Defined.

#[export] Hint Resolve affine_block_correct : dt.
