(* ===== verification/Coeff.v ===== *)
(** * Coeff: the transfer coefficient builder ([getAMatrix])

    [DeformationTranferer.getAMatrix(VPos4, Tris4)] computes the extended
    edge matrix of every triangle of the current target pose, asserts that
    [NFaces] is the number of rows of [Tris4], and, in a loop over the faces,
    inverts the edge matrix and appends twelve triplets to the parallel
    lists [I], [J], [V]: at rows [3i + j] the negated column sums of [vInv]
    against the first vertex, and at row [3i + k] the entry [vInv[j, k]]
    against vertex [j + 1].  [a_face] is one iteration, [a_loop] the loop,
    [getAMatrix] the whole method with its [coo_matrix] of shape
    [(3 NFaces, NVertices4)].

    The theorems: row [3i + k] of [A x] is [sum_j vInv[j,k] (x[t_j+1] - x[t_0])]
    ([getAMatrix_row_value]); applied to the coordinates of any pose [X] it is row
    [a] of [E_i(X) . V_i^-1], the deformation gradient of triangle [i] from
    the current pose to [X] ([getAMatrix_gradient]); every row sums to zero,
    so a common translation of all unknowns is invisible to [A]
    ([getAMatrix_translation]); and on a well-formed pose [getAMatrix] raises
    nothing. *)

From Stdlib Require Import Arith QArith Qfield Lqa Lia List Setoid Morphisms.
From S2P Require Import Prelude Linalg Sparse Frame Affine.
Import ListNotations.
Open Scope nat_scope.

(** ** Operations *)

(** [Tris4[i, n]] *)
Definition tjn (n : nat) (t : tri4) : nat :=
  match n with 0 => tj0 t | 1 => tj1 t | 2 => tj2 t | _ => tj3 t end.

(** [np.sum(-1 * vInv, axis = 0)[k]] *)
Definition sumOfNegativevInv (vInv : mat3) (k : nat) : Q :=
  (-1 * mentry vInv 0 k + -1 * mentry vInv 1 k + -1 * mentry vInv 2 k)%Q.

(** The body of [for i in range(0, self.NFaces)] after [vInv] is known:
    [for j in range(0, 3): I.append(idxRow + j); J.append(Tris4[i, 0]);
     V.append(sumOfNegativevInv[j])] and then
    [for j in range(0, 3): for k in range(0, 3): I.append(idxRow + k);
     J.append(Tris4[i, j + 1]); V.append(vInv[j, k])]. *)
Definition a_face (idxRow : nat) (t : tri4) (vInv : mat3) : list triplet :=
  map (fun j => (idxRow + j, tj0 t, sumOfNegativevInv vInv j)) [0; 1; 2] ++
  flat_map (fun j => map (fun k => (idxRow + k, tjn (j + 1) t, mentry vInv j k)) [0; 1; 2])
           [0; 1; 2].

Fixpoint a_loop (i : nat) (IJV : list triplet) (faces : list (tri4 * mat3))
  : result (list triplet) :=
  match faces with
  | [] => Ok IJV
  | (t, v) :: rest =>
      let idxRow := i * 3 in
      let* vInv := inv3 v in
      a_loop (S i) (IJV ++ a_face idxRow t vInv) rest
  end.

Definition getAMatrix (NFaces NVertices4 : nat) (VPos4 : pose) (Tris4 : list tri4)
  : result spmat :=
  let* V := mapM (edges4 VPos4) Tris4 in
  let* _ := check (NFaces =? length Tris4) AssertionError in
  let* IJV := a_loop 0 [] (combine Tris4 V) in
  coo_matrix IJV (3 * NFaces) NVertices4.

(** The triplets of the faces from [i] on, given their inverses. *)
Fixpoint a_all (i : nat) (fs : list (tri4 * mat3)) : list triplet :=
  match fs with
  | [] => []
  | (t, W) :: rest => a_face (i * 3) t W ++ a_all (S i) rest
  end.

Lemma a_all_cons i t W fs : a_all i ((t, W) :: fs) = a_face (i * 3) t W ++ a_all (S i) fs.
Proof. reflexivity. Qed.

(** The value of row [3i + k] of [A x] as the code means it. *)
Definition face_row (t : tri4) (W : mat3) (k : nat) (x : list Q) : Q :=
  (mentry W 0 k * (nth (tj1 t) x 0 - nth (tj0 t) x 0) +
   mentry W 1 k * (nth (tj2 t) x 0 - nth (tj0 t) x 0) +
   mentry W 2 k * (nth (tj3 t) x 0 - nth (tj0 t) x 0))%Q.

(** ** One face *)

Lemma eqb_add_l n a b : (n + a =? n + b) = (a =? b).
Proof. destruct (Nat.eqb_spec a b), (Nat.eqb_spec (n + a) (n + b)); auto; lia. Qed.

Lemma a_face_row i t W k x : k < 3 ->
  (row_dot (a_face (i * 3) t W) (i * 3 + k) x == face_row t W k x)%Q.
Proof.
  intros Hk. unfold a_face, face_row, sumOfNegativevInv, row_dot, trip_row, trip_col, trip_val.
  simpl. destruct k as [|[|[|k]]]; [| | |lia]; decide_nat_eqb; unfold mentry, mrowv, vcoord; simpl; ring.
Qed.

Lemma a_face_rows i t W : Forall (fun tr => i * 3 <= trip_row tr < i * 3 + 3) (a_face (i * 3) t W).
Proof. unfold a_face. forall_list ltac:(unfold trip_row; simpl; lia). Qed.

Lemma a_face_cols i t W : Forall (fun tr => trip_col tr = tj0 t \/ trip_col tr = tj1 t \/
  trip_col tr = tj2 t \/ trip_col tr = tj3 t) (a_face (i * 3) t W).
Proof. unfold a_face. forall_list ltac:(unfold trip_col; simpl; tauto). Qed.

Lemma a_face_row_sum i t W r : (row_sum (a_face (i * 3) t W) r == 0)%Q.
Proof.
  unfold a_face, sumOfNegativevInv, row_sum, trip_row, trip_val. simpl.
  decide_nat_eqb; ring.
Qed.

(** ** The loop *)

Lemma a_loop_Ok i acc faces T :
  a_loop i acc faces = Ok T <->
  exists Ws, Forall2 (fun p W => inv3 (snd p) = Ok W) faces Ws /\
    T = acc ++ a_all i (combine (map fst faces) Ws).
Proof.
  revert i acc. induction faces as [|[t v] faces IH]; intros i acc; simpl.
  - split.
    + intros [= <-]. exists []. split; [constructor | rewrite app_nil_r; reflexivity].
    + intros ([|W Ws] & HW & ->); [rewrite app_nil_r; reflexivity | inversion HW].
  - split.
    + intros HT. inv_ok. apply IH in HT as (Ws & HWs & ->).
      exists (x :: Ws). split; [constructor; assumption|]. rewrite <- app_assoc. reflexivity.
    + intros (Ws & HWs & ->). inversion HWs as [|? W ? Ws' HW HWs']; subst.
      simpl in HW. rewrite HW. simpl. apply IH. exists Ws'. split; [exact HWs'|].
      rewrite <- app_assoc. reflexivity.
Qed.

Lemma a_all_rows i fs : Forall (fun tr => i * 3 <= trip_row tr) (a_all i fs).
Proof.
  revert i. induction fs as [|[t W] fs IH]; intros i; [constructor|]. rewrite a_all_cons.
  apply Forall_app. split.
  - eapply Forall_impl; [|apply a_face_rows]. simpl. lia.
  - eapply Forall_impl; [|apply IH]. simpl. lia.
Qed.

Lemma a_all_row i fs m t W k x : nth_error fs m = Some (t, W) -> k < 3 ->
  (row_dot (a_all i fs) ((i + m) * 3 + k) x == face_row t W k x)%Q.
Proof.
  revert i m. induction fs as [|[t' W'] fs IH]; intros i [|m] Hm Hk; simpl in Hm; try discriminate.
  - injection Hm as <- <-. rewrite a_all_cons, row_dot_app, Nat.add_0_r, a_face_row by exact Hk.
    rewrite row_dot_none; [ring|].
    eapply Forall_impl; [|apply a_all_rows]. simpl. lia.
  - rewrite a_all_cons, row_dot_app, row_dot_none.
    + replace ((i + S m) * 3 + k) with ((S i + m) * 3 + k) by lia. rewrite IH by assumption. ring.
    + eapply Forall_impl; [|apply a_face_rows]. simpl. lia.
Qed.

Lemma a_all_row_sum i fs r : (row_sum (a_all i fs) r == 0)%Q.
Proof.
  revert i. induction fs as [|[t W] fs IH]; intros i; [reflexivity|].
  rewrite a_all_cons, row_sum_app, a_face_row_sum, IH. reflexivity.
Qed.

Lemma a_all_cols i fs : Forall (fun tr => exists p, In p fs /\ (trip_col tr = tj0 (fst p) \/
  trip_col tr = tj1 (fst p) \/ trip_col tr = tj2 (fst p) \/ trip_col tr = tj3 (fst p))) (a_all i fs).
Proof.
  revert i. induction fs as [|[t W] fs IH]; intros i; [constructor|]. rewrite a_all_cons.
  apply Forall_app. split.
  - eapply Forall_impl; [|apply a_face_cols]. intros tr Htr.
    exists (t, W). split; [left; reflexivity | exact Htr].
  - eapply Forall_impl; [|apply IH]. intros tr (p & Hp & Hc).
    exists p. split; [right; exact Hp | exact Hc].
Qed.

(** [getAMatrix] succeeds with the triplets of every face. *)
Lemma getAMatrix_Ok NF NV4 P4 Tris4 A :
  getAMatrix NF NV4 P4 Tris4 = Ok A <->
  exists V Ws, mapM (edges4 P4) Tris4 = Ok V /\ NF = length Tris4 /\
    Forall2 (fun p W => inv3 (snd p) = Ok W) (combine Tris4 V) Ws /\
    coo_matrix (a_all 0 (combine Tris4 Ws)) (3 * NF) NV4 = Ok A.
Proof.
  assert (Hfst : forall V : list mat3, length V = length Tris4 -> map fst (combine Tris4 V) = Tris4).
  { intros V HV. apply map_fst_combine_le. lia. }
  unfold getAMatrix. split.
  - intros HA. inv_ok. destruct x0. apply check_Ok, Nat.eqb_eq in H0.
    apply a_loop_Ok in H1 as (Ws & HWs & ->). exists x, Ws.
    rewrite Hfst in * by exact (mapM_length _ _ _ H). auto.
  - intros (V & Ws & HV & HN & HWs & HA). rewrite HV. simpl. apply Nat.eqb_eq in HN.
    rewrite HN. simpl.
    replace (a_loop 0 [] (combine Tris4 V)) with (Ok (a_all 0 (combine Tris4 Ws))); [exact HA|].
    symmetry. apply a_loop_Ok. exists Ws. split; [exact HWs|].
    rewrite Hfst by exact (mapM_length _ _ _ HV). reflexivity.
Qed.

Lemma a_all_rows_upper i fs : Forall (fun tr => trip_row tr < (i + length fs) * 3) (a_all i fs).
Proof.
  revert i. induction fs as [|[t W] fs IH]; intros i; [constructor|]. rewrite a_all_cons.
  apply Forall_app. split.
  - eapply Forall_impl; [|apply a_face_rows]. simpl. lia.
  - eapply Forall_impl; [|apply IH]. simpl. lia.
Qed.

(** The row of a face, read on the coordinates of a pose, is an entry of its
    edge matrix times [vInv]. *)
Lemma face_row_gradient X t E W a k :
  edges4 X t = Ok E -> (face_row t W k (map (vcoord a) X) == mentry (mmul E W) a k)%Q.
Proof.
  unfold edges4. intros HE. inv_ok. subst. apply get_Ok in H, H0, H1, H2.
  unfold face_row. rewrite !(nth_map_Some (vcoord a) _ _ _ _ H), !(nth_map_Some (vcoord a) _ _ _ _ H0),
    !(nth_map_Some (vcoord a) _ _ _ _ H1), !(nth_map_Some (vcoord a) _ _ _ _ H2).
  destruct a as [|[|a]], k as [|[|k]]; vec_unfold; ring.
Qed.

Lemma getAMatrix_shape NF NV4 P4 Tris4 A :
  getAMatrix NF NV4 P4 Tris4 = Ok A -> sp_rows A = 3 * length Tris4 /\ sp_cols A = NV4.
Proof.
  intros (V & Ws & _ & HN & _ & HA)%getAMatrix_Ok. apply coo_matrix_Ok in HA as [-> _].
  simpl. split; [rewrite HN|]; reflexivity.
Qed.

(** ** Properties *)

Lemma getAMatrix_row_value NF NV4 P4 Tris4 A :
  getAMatrix NF NV4 P4 Tris4 = Ok A ->
  forall i t k x, nth_error Tris4 i = Some t -> k < 3 ->
  exists V W, edges4 P4 t = Ok V /\ inv3 V = Ok W /\
    (nth (i * 3 + k) (spmv A x) 0 == face_row t W k x)%Q.
Proof.
  intros (V & Ws & HV & HN & HWs & HA)%getAMatrix_Ok i t k x Ht Hk.
  apply coo_matrix_Ok in HA as [-> _]. apply mapM_Ok in HV.
  destruct (Forall2_nth_l _ _ _ _ _ HV Ht) as (v & Hv & Hvt).
  assert (Hc : nth_error (combine Tris4 V) i = Some (t, v)) by (rewrite nth_error_combine, Ht, Hv; reflexivity).
  destruct (Forall2_nth_l _ _ _ _ _ HWs Hc) as (W & HW & HWi).
  exists v, W. split; [exact Hvt|]. split; [exact HWi|].
  assert (Hi : i < length Tris4) by (apply nth_error_Some; congruence).
  rewrite nth_spmv by (simpl; lia). simpl.
  apply (a_all_row 0 _ i); [|exact Hk].
  assert (HWl : nth_error (combine Tris4 Ws) i = Some (t, W)) by (rewrite nth_error_combine, Ht, HW; reflexivity).
  exact HWl.
Qed.

Lemma getAMatrix_gradient_value NF NV4 P4 Tris4 A X :
  getAMatrix NF NV4 P4 Tris4 = Ok A ->
  forall i t E, nth_error Tris4 i = Some t -> edges4 X t = Ok E ->
  exists V W, edges4 P4 t = Ok V /\ inv3 V = Ok W /\
    forall a k, k < 3 -> (nth (i * 3 + k) (spmv A (map (vcoord a) X)) 0 == mentry (mmul E W) a k)%Q.
Proof.
  intros HA i t E Ht HE.
  destruct (getAMatrix_row_value _ _ _ _ _ HA i t 0 [] Ht) as (V & W & HV & HW & _); [lia|].
  exists V, W. split; [exact HV|]. split; [exact HW|]. intros a k Hk.
  destruct (getAMatrix_row_value _ _ _ _ _ HA i t k (map (vcoord a) X) Ht Hk) as (V' & W' & HV' & HW' & Hrow).
  rewrite HV in HV'. injection HV' as <-. rewrite HW in HW'. injection HW' as <-.
  rewrite Hrow. apply face_row_gradient. exact HE.
Qed.

(** C6: refinement.  Applied to the coordinates (axis [a]) of any pose [X],
    [A] gives at the three rows of triangle [i] row [a] of
    [E_i(X) . V_i^-1]: the deformation gradient that takes triangle [i] of
    the pose [A] was built from to triangle [i] of [X]. *)
Theorem getAMatrix_gradient NF NV4 P4 Tris4 A X :
  getAMatrix NF NV4 P4 Tris4 = Ok A ->
  forall i t E, nth_error Tris4 i = Some t -> edges4 X t = Ok E ->
  exists V W, edges4 P4 t = Ok V /\ inv3 V = Ok W /\
    forall a k, k < 3 -> (nth (i * 3 + k) (spmv A (map (vcoord a) X)) 0 == mentry (mmul E W) a k)%Q.
Proof. exact (getAMatrix_gradient_value NF NV4 P4 Tris4 A X). Qed.

Lemma getAMatrix_shift NF NV4 P4 Tris4 A x c :
  getAMatrix NF NV4 P4 Tris4 = Ok A -> length x = sp_cols A ->
  qleq (spmv A (qshift c x)) (spmv A x).
Proof.
  intros (V & Ws & _ & _ & _ & HA)%getAMatrix_Ok Hx.
  apply coo_matrix_Ok in HA as [-> Hb]. cbn [sp_cols] in Hx. unfold spmv. cbn [sp_rows sp_trip].
  unfold qleq. induction (seq 0 (3 * NF)) as [|r rs IH]; simpl; constructor; [|exact IH].
  rewrite row_dot_shift, a_all_row_sum; [ring|].
  eapply Forall_impl; [|exact Hb]. simpl. lia.
Qed.

(** C16: every row of [A] sums to zero, so shifting all unknowns by the
    same amount leaves [A x] unchanged: the target positions the solve
    produces are determined at best up to a common translation. *)
Theorem getAMatrix_translation NF NV4 P4 Tris4 A x c :
  getAMatrix NF NV4 P4 Tris4 = Ok A -> length x = sp_cols A ->
  qleq (spmv A (qshift c x)) (spmv A x).
Proof. exact (getAMatrix_shift NF NV4 P4 Tris4 A x c). Qed.

(** [getAMatrix] raises nothing when every extended triangle of the pose
    has an invertible edge matrix and reads only columns below [NV4]. *)
Lemma getAMatrix_total_edges NF NV4 P4 Tris4 V :
  mapM (edges4 P4) Tris4 = Ok V -> Forall (fun E => ~ (mdet E == 0)%Q) V -> NF = length Tris4 ->
  Forall (fun t => tj0 t < NV4 /\ tj1 t < NV4 /\ tj2 t < NV4 /\ tj3 t < NV4) Tris4 ->
  exists A, getAMatrix NF NV4 P4 Tris4 = Ok A.
Proof.
  intros HV HnS HN Hb.
  destruct (mapM_total (fun p => inv3 (snd p)) (combine Tris4 V)) as [Ws HWs].
  { intros [t v] Htv. apply in_combine_r in Htv. rewrite Forall_forall in HnS.
    apply inv3_nonsingular, HnS. exact Htv. }
  apply mapM_Ok in HWs. pose proof (mapM_length _ _ _ HV) as HlV.
  assert (HlW : length Ws = length Tris4) by (rewrite <- (Forall2_length HWs), length_combine; lia).
  exists (SpMat (3 * NF) NV4 (a_all 0 (combine Tris4 Ws))).
  apply getAMatrix_Ok. exists V, Ws. split; [exact HV|]. split; [exact HN|].
  split; [exact HWs|]. apply coo_matrix_Ok. split; [reflexivity|].
  pose proof (a_all_rows_upper 0 (combine Tris4 Ws)) as Hrows.
  pose proof (a_all_cols 0 (combine Tris4 Ws)) as Hcols.
  rewrite length_combine, HlW, Nat.min_id in Hrows.
  rewrite Forall_forall in Hrows, Hcols, Hb |- *. intros tr Htr. split; [specialize (Hrows tr Htr); lia|].
  destruct (Hcols tr Htr) as ([t W] & Hp & Hc). apply in_combine_l in Hp.
  destruct (Hb t Hp) as (B0 & B1 & B2 & B3). simpl in Hc. lia.
Qed.

(** C21: on a target pose whose triangles are in range and non-degenerate,
    [getAMatrix] raises nothing and returns an operator of shape
    [(3 F, V + F)]: one column per vertex of the extended pose, synthetic
    vertices included, where the comment at the call site (line 144) says
    [3NFaces x NVertices]. *)
Theorem getAMatrix_total `{SqrtOp} P Tris P4 :
  getVPos4 P Tris = Ok P4 -> forallb (tri_ok P) Tris = true ->
  exists A, getAMatrix (length Tris) (length P + length Tris) P4 (tris4 (length P) Tris) = Ok A /\
    sp_rows A = 3 * length Tris /\ sp_cols A = length P + length Tris.
Proof.
  intros HP Hok.
  pose proof (tris_ok_in_range _ _ Hok) as Hr.
  destruct (extended_edges_exist _ _ _ HP Hr) as [V HV].
  destruct (getAMatrix_total_edges (length Tris) (length P + length Tris) P4 _ V HV
              (extended_edges_nonsingular _ _ _ _ HP Hok HV)) as [A HA].
  - rewrite length_tris4. reflexivity.
  - apply Forall_forall. intros x Hx. destruct (tris4_bounds _ _ _ Hr Hx) as (B0 & B1 & B2 & B3). lia.
  - exists A. split; [exact HA|]. destruct (getAMatrix_shape _ _ _ _ _ HA) as [-> ->].
    rewrite length_tris4. split; reflexivity.
Qed.

(** ** Witnesses *)

Definition ex_A : spmat :=
  ok_or (SpMat 0 0 []) (getAMatrix 2 6 ex_pose4 (tris4 4 ex_tris)).

(** The current pose itself, extended, on axis [x]. *)
Definition ex_x : list Q := map (vcoord 0) ex_pose4.

Lemma getAMatrix_gradient_witness :
  getAMatrix 2 6 ex_pose4 (tris4 4 ex_tris) = Ok ex_A /\
  nth_error (tris4 4 ex_tris) 0 = Some (T4 0 1 2 4) /\
  edges4 ex_pose4 (T4 0 1 2 4) = Ok (ok_or mid (edges4 ex_pose4 (T4 0 1 2 4))) /\
  exists V W, edges4 ex_pose4 (T4 0 1 2 4) = Ok V /\ inv3 V = Ok W /\
    forall a k, k < 3 -> (nth (0 * 3 + k) (spmv ex_A (map (vcoord a) ex_pose4)) 0
                          == mentry (mmul (ok_or mid (edges4 ex_pose4 (T4 0 1 2 4))) W) a k)%Q.
Proof.
  assert (HA : getAMatrix 2 6 ex_pose4 (tris4 4 ex_tris) = Ok ex_A) by (vm_compute; reflexivity).
  assert (Ht : nth_error (tris4 4 ex_tris) 0 = Some (T4 0 1 2 4)) by reflexivity.
  assert (HE : edges4 ex_pose4 (T4 0 1 2 4) = Ok (ok_or mid (edges4 ex_pose4 (T4 0 1 2 4))))
    by (vm_compute; reflexivity).
  split; [exact HA|]. split; [exact Ht|]. split; [exact HE|].
  exact (getAMatrix_gradient _ _ _ _ _ ex_pose4 HA 0 _ _ Ht HE).
Defined.

Lemma getAMatrix_translation_witness :
  getAMatrix 2 6 ex_pose4 (tris4 4 ex_tris) = Ok ex_A /\ length ex_x = sp_cols ex_A /\
  qleq (spmv ex_A (qshift 5 ex_x)) (spmv ex_A ex_x).
Proof.
  assert (HA : getAMatrix 2 6 ex_pose4 (tris4 4 ex_tris) = Ok ex_A) by (vm_compute; reflexivity).
  assert (Hl : length ex_x = sp_cols ex_A) by (vm_compute; reflexivity).
  split; [exact HA|]. split; [exact Hl|].
  exact (getAMatrix_translation _ _ _ _ _ _ 5 HA Hl).
Defined.

Lemma getAMatrix_total_witness :
  getVPos4 ex_pose ex_tris = Ok ex_pose4 /\ forallb (tri_ok ex_pose) ex_tris = true /\
  exists A, getAMatrix (length ex_tris) (length ex_pose + length ex_tris) ex_pose4
              (tris4 (length ex_pose) ex_tris) = Ok A /\
    sp_rows A = 3 * length ex_tris /\ sp_cols A = length ex_pose + length ex_tris.
Proof.
  assert (HP : getVPos4 ex_pose ex_tris = Ok ex_pose4) by (vm_compute; reflexivity).
  assert (Hok : forallb (tri_ok ex_pose) ex_tris = true) by (vm_compute; reflexivity).
  split; [exact HP|]. split; [exact Hok|]. exact (getAMatrix_total _ _ _ HP Hok).
Defined.

(** The system [A x_a = b_a] on the three axes of a pose [X], for a
    right-hand side stacked from blocks [B_i], says exactly that the
    deformation gradient of every triangle from the current pose to [X] is
    [B_i]. *)
Lemma getAMatrix_solves_iff NF NV4 P4 Tris4 A X Bs :
  getAMatrix NF NV4 P4 Tris4 = Ok A -> length Bs = length Tris4 ->
  (forall i t, nth_error Tris4 i = Some t -> exists E, edges4 X t = Ok E) ->
  (forall a, a < 3 -> qleq (spmv A (map (vcoord a) X)) (srow a (stack Bs))) <->
  (forall i t B, nth_error Tris4 i = Some t -> nth_error Bs i = Some B ->
     exists V W E, edges4 P4 t = Ok V /\ inv3 V = Ok W /\ edges4 X t = Ok E /\ meq (mmul E W) B).
Proof.
  intros HA HlB HX. pose proof (getAMatrix_shape _ _ _ _ _ HA) as [Hrows _].
  assert (Hlen : forall a, length (spmv A (map (vcoord a) X)) = length (srow a (stack Bs)))
    by (intros a; rewrite length_spmv, length_srow_stack; lia).
  split.
  - intros Hsys i t B Ht HB. destruct (HX i t Ht) as [E HE].
    destruct (getAMatrix_gradient_value _ _ _ _ _ X HA i t E Ht HE) as (V & W & HV & HW & Hg).
    exists V, W, E. split; [exact HV|]. split; [exact HW|]. split; [exact HE|].
    apply meq_entries. intros a k Ha Hk.
    rewrite <- Hg by exact Hk. rewrite <- (nth_srow_stack a Bs i B k HB Hk).
    apply qleq_nth, Hsys. exact Ha.
  - intros Hgr a Ha. apply qleq_nth_iff; [apply Hlen|]. intros r Hr.
    rewrite length_spmv, Hrows in Hr.
    rewrite (Nat.div_mod_eq r 3), Nat.mul_comm.
    assert (Hk : r mod 3 < 3) by (apply Nat.mod_upper_bound; lia).
    assert (Hi : r / 3 < length Tris4) by (apply Nat.Div0.div_lt_upper_bound; lia).
    destruct (nth_error Tris4 (r / 3)) as [t|] eqn:Ht; [|apply nth_error_None in Ht; lia].
    destruct (nth_error Bs (r / 3)) as [B|] eqn:HB; [|apply nth_error_None in HB; lia].
    destruct (HX _ _ Ht) as [E HE].
    destruct (getAMatrix_gradient_value _ _ _ _ _ X HA _ t E Ht HE) as (V & W & HV & HW & Hg).
    destruct (Hgr _ _ _ Ht HB) as (V' & W' & E' & HV' & HW' & HE' & Hm).
    rewrite HV in HV'. injection HV' as <-. rewrite HW in HW'. injection HW' as <-.
    rewrite HE in HE'. injection HE' as <-.
    rewrite Hg by exact Hk. rewrite (nth_srow_stack a Bs _ B _ HB Hk). apply mentry_Proper; auto.
Qed.

(** C12: centring.  The solver [lsqr], started from zero as the code calls
    it, returns the minimum-norm least-squares solution; for the operator of
    [getAMatrix] that solution always has coordinates summing to zero.  Every
    solved extended target pose therefore has its centroid (over the real
    and the synthetic vertices) at the origin on each axis, whatever the
    translation of the source or of the previous target frame. *)
Theorem getAMatrix_minnorm_centered NF NV4 P4 Tris4 A b x :
  getAMatrix NF NV4 P4 Tris4 = Ok A -> is_minnorm_lsq A b x -> (qsum x == 0)%Q.
Proof.
  intros HA Hx. apply (minnorm_shift_invariant A b x Hx).
  intros c. apply (getAMatrix_shift _ _ _ _ _ _ c HA). apply (proj1 (proj1 Hx)).
Qed.

Lemma getAMatrix_minnorm_centered_witness :
  getAMatrix 2 6 ex_pose4 (tris4 4 ex_tris) = Ok ex_A /\
  is_minnorm_lsq ex_A (repeat 0%Q 6) (repeat 0%Q 6) /\ (qsum (repeat 0%Q 6) == 0)%Q.
Proof.
  assert (HA : getAMatrix 2 6 ex_pose4 (tris4 4 ex_tris) = Ok ex_A) by (vm_compute; reflexivity).
  assert (Hx : is_minnorm_lsq ex_A (repeat 0%Q 6) (repeat 0%Q 6)).
  { split; [apply zero_resid_is_lsq; vm_compute; reflexivity|].
    intros y _. assert (E : (norm2 (repeat 0%Q 6) == 0)%Q) by reflexivity.
    rewrite E. apply norm2_nonneg. }
  split; [exact HA|]. split; [exact Hx|]. exact (getAMatrix_minnorm_centered _ _ _ _ _ _ _ HA Hx).
Defined.
