(* ===== verification/Transfer.v ===== *)
(** * Transfer: the per-frame transfer solver ([DeformationTranferer])

    [DeformationTranferer.__init__(origVideo, warpedVideo)] reads the two
    videos, asserts that their shapes agree, and builds the index arrays
    [Tris4]; [beginDeformationTransfer] then copies the target reference pose
    into frame 0 and, for every later source frame, extends the new source
    pose, builds [S] from the old and new source poses and [A] from the
    current extended target pose, solves [A x = S[k, :]] with [lsqr] for the
    three axes, writes the solutions into the columns of the extended target
    pose (which becomes the current pose of the next iteration, synthetic
    vertices included) and emits its first [NVertices] rows as the frame.

    [lsqr] is the parameter [lsqr] of the section: the model holds for any
    solver, and the theorems state what they need of it ([Sparse.is_lsq]).
    The state of the loop is [tstate]; one iteration is [transfer_step]; the
    loop is [transfer_loop]. *)

From Stdlib Require Import Arith QArith Qfield Lqa Lia List Setoid Morphisms.
From S2P Require Import Prelude Linalg Sparse Frame Affine Coeff.
Import ListNotations.
Open Scope nat_scope.

(** ** Data *)

(** The part of an S3DGLPy [PolyMesh] the code reads: [VPos] (one row per
    vertex, so [len(mesh.vertices)] is its length) and [ITris] (one row per
    face after [updateTris()]). *)
Record PolyMesh : Type := MkMesh { VPos : pose; ITris : list tri3 }.

(** An [NFrames x NVertices x 3] array: its second dimension and its frames. *)
Record frames3 : Type := MkFrames { shape1 : nat; frames : list pose }.

Record VideoMesh : Type := MkVideo { Frames : frames3; m : PolyMesh }.

Record DeformationTranferer : Type := MkDT {
  origVideo : VideoMesh;
  warpedVideo : VideoMesh;
  origFrames : frames3;
  warpedFrames : frames3;
  NFrames : nat;
  NFaces : nat;
  count : nat;
  NVertices : nat;
  NVertices4 : nat;
  origTris : list tri3;
  warpedTris : list tri3;
  origTris4 : list tri4;
  warpedTris4 : list tri4
}.

(** ** The constructor *)

Definition DeformationTranferer_init (ov wv : VideoMesh) : result DeformationTranferer :=
  let oF := Frames ov in
  let wF := Frames wv in
  let om := m ov in
  let wm := m wv in
  let nframes := length (frames oF) in
  let nfaces := length (ITris om) in
  let* _ := check ((shape1 oF =? length (VPos om)) && (length (VPos om) =? length (VPos wm))
                   && (length (VPos wm) =? shape1 wF) && (length (ITris om) =? length (ITris wm)))
                  AssertionError in
  let nv := shape1 oF in
  let nv4 := nv + nfaces in
  let* _ := check (length (ITris om) =? length (ITris wm)) AssertionError in
  Ok {| origVideo := ov; warpedVideo := wv; origFrames := oF; warpedFrames := wF;
        NFrames := nframes; NFaces := nfaces; count := 0; NVertices := nv; NVertices4 := nv4;
        origTris := ITris om; warpedTris := ITris wm;
        origTris4 := tris4 nv (ITris om); warpedTris4 := tris4 nv (ITris wm) |}.

(** The typing invariant of a constructed transferer: the fields that
    [__init__] derives agree with each other and with the videos. *)
Definition dt_wf (dt : DeformationTranferer) : Prop :=
  NVertices dt = shape1 (origFrames dt) /\ shape1 (warpedFrames dt) = NVertices dt /\
  NFrames dt = length (frames (origFrames dt)) /\
  length (origTris dt) = NFaces dt /\ length (warpedTris dt) = NFaces dt /\
  NVertices4 dt = NVertices dt + NFaces dt /\
  origTris4 dt = tris4 (NVertices dt) (origTris dt) /\
  warpedTris4 dt = tris4 (NVertices dt) (warpedTris dt) /\ count dt = 0.

(** ** Column assignment and row selection *)

(** [v[k] = q] on one row. *)
Definition vset (k : nat) (q : Q) (v : vec3) : vec3 :=
  match k with
  | 0 => V3 q (vy v) (vz v)
  | 1 => V3 (vx v) q (vz v)
  | _ => V3 (vx v) (vy v) q
  end.

(** [P[:, k] = x]: numpy accepts a vector of the column's length, broadcasts
    a vector of length one, and raises [ValueError] otherwise. *)
Definition set_col (k : nat) (x : list Q) (P : pose) : result pose :=
  if length x =? length P then Ok (map (fun p => vset k (snd p) (fst p)) (combine P x))
  else if length x =? 1 then Ok (map (vset k (hd 0%Q x)) P)
  else Err ValueError.

(** [F[0, :, :] = X] into an array whose frames have [n] rows: numpy
    takes [X] of [n] rows, broadcasts a single row, and raises [ValueError]
    otherwise. *)
Definition assign_frame (n : nat) (X : pose) : result pose :=
  if length X =? n then Ok X
  else if length X =? 1 then Ok (repeat (hd vzero X) n)
  else Err ValueError.

(** [P[np.arange(n), :]] *)
Definition take_rows (n : nat) (P : pose) : result pose :=
  if n <=? length P then Ok (firstn n P) else Err IndexError.

(** ** The specification of a transfer step *)

(** Deformation transfer (Sumner and Popovic): the deformation gradient of
    every target triangle, from the current target pose [to] to the new one
    [tn], is the affine map of the corresponding source triangle from [so]
    to [sn]; triangle [i] of the source corresponds to triangle [i] of the
    target. *)
Definition gradient_match (Ts Tt : list tri4) (so sn to tn : pose) : Prop :=
  Forall2 (fun ts tt => exists Vs Ws Vn Vt Wt Et,
     edges4 so ts = Ok Vs /\ inv3 Vs = Ok Ws /\ edges4 sn ts = Ok Vn /\
     edges4 to tt = Ok Vt /\ inv3 Vt = Ok Wt /\ edges4 tn tt = Ok Et /\
     meq (mmul Et Wt) (mmul Vn Ws)) Ts Tt.

(** ** The frame loop *)

Record tstate : Type := MkState {
  origOldVPos4 : pose;
  warpedOldVPos4 : pose;
  resultFrames : list pose
}.

Section Loop.
Context `{SqrtOp}.
Variable lsqr : spmat -> list Q -> list Q.
Variable dt : DeformationTranferer.

(** One iteration of [for i in range(1, self.NFrames)] on the source frame
    [origFrame = self.origFrames[i, :, :]]. *)
Definition transfer_step (st : tstate) (origFrame : pose) : result tstate :=
  let* origNewVPos4 := getVPos4 origFrame (origTris dt) in
  let* S_ := getSMatrix (NFaces dt) (origOldVPos4 st) origNewVPos4 (origTris4 dt) in
  let* A := getAMatrix (NFaces dt) (NVertices4 dt) (warpedOldVPos4 st) (warpedTris4 dt) in
  let* W0 := set_col 0 (lsqr A (srow 0 S_)) (warpedOldVPos4 st) in
  let* W1 := set_col 1 (lsqr A (srow 1 S_)) W0 in
  let* W2 := set_col 2 (lsqr A (srow 2 S_)) W1 in
  let* frame := take_rows (NVertices dt) W2 in
  Ok (MkState origNewVPos4 W2 (resultFrames st ++ [frame])).

(** [for i in range(1, self.NFrames)], over the list of indices [i]: each
    iteration reads [self.origFrames[i, :, :]]. *)
Fixpoint transfer_loop (st : tstate) (idxs : list nat) : result tstate :=
  match idxs with
  | [] => Ok st
  | i :: rest =>
      let* origFrame := get (frames (origFrames dt)) i in
      let* st' := transfer_step st origFrame in
      transfer_loop st' rest
  end.

(** [beginDeformationTransfer]: the result is the new [warpedVideo.Frames].
    [resultFrames[0, :, :] = self.warpedFrames[0, :, :]] reads frame 0 of
    the target (an [IndexError] on an empty video), then writes it into
    frame 0 of an array of [NFrames] frames (an [IndexError] when
    [NFrames = 0]) of [NVertices] rows ([assign_frame]). *)
Definition beginDeformationTransfer : result frames3 :=
  let* wf0 := get (frames (warpedFrames dt)) 0 in
  let* _ := check (1 <=? NFrames dt) IndexError in
  let* r0 := assign_frame (NVertices dt) wf0 in
  let* of0 := get (frames (origFrames dt)) 0 in
  let* origOld := getVPos4 of0 (origTris dt) in
  let* warpedOld := getVPos4 wf0 (warpedTris dt) in
  let* st := transfer_loop (MkState origOld warpedOld [r0]) (seq 1 (NFrames dt - 1)) in
  Ok (MkFrames (NVertices dt) (resultFrames st)).

End Loop.

(** ** Shapes *)

Lemma set_col_exact k x P : length x = length P ->
  set_col k x P = Ok (map (fun p => vset k (snd p) (fst p)) (combine P x)).
Proof. intros Hl. unfold set_col. rewrite Hl, Nat.eqb_refl. reflexivity. Qed.

Lemma set_col_length k x P P' : set_col k x P = Ok P' -> length P' = length P.
Proof.
  unfold set_col. destruct (Nat.eqb_spec (length x) (length P)) as [E|E].
  - intros [= <-]. rewrite length_map, length_combine. lia.
  - destruct (length x =? 1); [intros [= <-]; apply length_map | discriminate].
Qed.

Lemma set_col_total k x P : length x = length P -> exists P', set_col k x P = Ok P' /\ length P' = length P.
Proof. intros Hl. eexists. split; [exact (set_col_exact k x P Hl)|]. rewrite length_map, length_combine. lia. Qed.

(** The column written is the solution ... *)
Lemma set_col_same k x P : length x = length P ->
  map (vcoord k) (map (fun p => vset k (snd p) (fst p)) (combine P x)) = x.
Proof.
  revert x. induction P as [|p P IH]; intros [|q x] Hl; simpl in Hl; try discriminate; [reflexivity|].
  injection Hl as Hl. simpl. rewrite IH by exact Hl. destruct k as [|[|k]]; reflexivity.
Qed.

(** ... and the other columns are kept. *)
Lemma set_col_other j k x P : length x = length P -> j <> k -> j < 3 -> k < 3 ->
  map (vcoord j) (map (fun p => vset k (snd p) (fst p)) (combine P x)) = map (vcoord j) P.
Proof.
  intros Hl Hjk Hj Hk. revert x Hl. induction P as [|p P IH]; intros [|q x] Hl; simpl in Hl;
    try discriminate; [reflexivity|].
  injection Hl as Hl. simpl. rewrite IH by exact Hl. f_equal.
  destruct j as [|[|[|j]]], k as [|[|[|k]]]; try lia; reflexivity.
Qed.

Lemma take_rows_Ok n P P' : take_rows n P = Ok P' <-> n <= length P /\ P' = firstn n P.
Proof.
  unfold take_rows. destruct (Nat.leb_spec n (length P)); split.
  - intros [= <-]. auto.
  - intros [_ ->]. reflexivity.
  - discriminate.
  - intros [Hn _]. lia.
Qed.

Section Shapes.
Context `{SqrtOp}.
Variable lsqr : spmat -> list Q -> list Q.
Variable dt : DeformationTranferer.

(** One iteration appends one frame of [NVertices] rows and keeps the
    length of the extended target pose. *)
Lemma transfer_step_shape st f st' :
  transfer_step lsqr dt st f = Ok st' ->
  length (warpedOldVPos4 st') = length (warpedOldVPos4 st) /\
  exists frame, resultFrames st' = resultFrames st ++ [frame] /\ length frame = NVertices dt.
Proof.
  unfold transfer_step. intros Hs. inv_ok. subst. simpl.
  apply take_rows_Ok in H6 as [Hn ->].
  pose proof (set_col_length _ _ _ _ H3). pose proof (set_col_length _ _ _ _ H4).
  pose proof (set_col_length _ _ _ _ H5).
  split; [lia|]. eexists. split; [reflexivity|]. rewrite length_firstn. lia.
Qed.

Lemma transfer_loop_cons st i rest :
  transfer_loop lsqr dt st (i :: rest) =
  let* origFrame := get (frames (origFrames dt)) i in
  let* st' := transfer_step lsqr dt st origFrame in
  transfer_loop lsqr dt st' rest.
Proof. reflexivity. Qed.

Lemma transfer_loop_shape st rest st' :
  transfer_loop lsqr dt st rest = Ok st' ->
  exists fs, resultFrames st' = resultFrames st ++ fs /\ length fs = length rest /\
    Forall (fun f => length f = NVertices dt) fs.
Proof.
  revert st. induction rest as [|i rest IH]; intros st Hl.
  - injection Hl as <-. exists []. rewrite app_nil_r. auto.
  - rewrite transfer_loop_cons in Hl.
    destruct (get _ i) as [f|]; [|discriminate]. cbn [rbind] in Hl.
    destruct (transfer_step lsqr dt st f) as [st1|] eqn:Hs; [|discriminate]. cbn [rbind] in Hl.
    destruct (transfer_step_shape _ _ _ Hs) as (_ & frame & Hfr & Hlen).
    destruct (IH _ Hl) as (fs & Hfs & Hl' & HF). exists (frame :: fs).
    rewrite Hfs, Hfr, <- app_assoc. simpl. auto.
Qed.

(** Induction over the frame loop: an invariant of the loop state that
    every iteration keeps, with a property [R fr i] of the frame emitted for
    index [i], holds at the end, and the emitted frames satisfy [R] in
    order. *)
Lemma transfer_loop_inv (Inv : tstate -> Prop) (R : pose -> nat -> Prop) idxs st st' :
  (forall st i f st1, Inv st -> nth_error (frames (origFrames dt)) i = Some f ->
     transfer_step lsqr dt st f = Ok st1 ->
     Inv st1 /\ exists fr, resultFrames st1 = resultFrames st ++ [fr] /\ R fr i) ->
  Inv st -> transfer_loop lsqr dt st idxs = Ok st' ->
  Inv st' /\ exists frs, resultFrames st' = resultFrames st ++ frs /\ Forall2 R frs idxs.
Proof.
  intros Hstep. revert st. induction idxs as [|i idxs IH]; intros st Hst Hl.
  - injection Hl as <-. split; [exact Hst|]. exists []. rewrite app_nil_r. split; [reflexivity | constructor].
  - rewrite transfer_loop_cons in Hl. destruct (get _ i) as [f|] eqn:Hf; [|discriminate]. cbn [rbind] in Hl.
    destruct (transfer_step lsqr dt st f) as [st1|] eqn:Hs; [|discriminate]. cbn [rbind] in Hl.
    apply get_Ok in Hf. destruct (Hstep st i f st1 Hst Hf Hs) as (Hst1 & fr & Hfr & HR).
    destruct (IH st1 Hst1 Hl) as (Hst' & frs & Hfrs & HF). split; [exact Hst'|].
    exists (fr :: frs). split; [rewrite Hfrs, Hfr, <- app_assoc; reflexivity | constructor; assumption].
Qed.

Lemma assign_frame_Ok n X r : assign_frame n X = Ok r -> length r = n.
Proof.
  unfold assign_frame. destruct (Nat.eqb_spec (length X) n); [congruence|].
  destruct (length X =? 1); [intros [= <-]; apply repeat_length | discriminate].
Qed.

Lemma beginDeformationTransfer_Ok out :
  beginDeformationTransfer lsqr dt = Ok out ->
  exists wf0 r0 of0 origOld warpedOld st,
    nth_error (frames (warpedFrames dt)) 0 = Some wf0 /\ 1 <= NFrames dt /\
    assign_frame (NVertices dt) wf0 = Ok r0 /\ nth_error (frames (origFrames dt)) 0 = Some of0 /\
    getVPos4 of0 (origTris dt) = Ok origOld /\ getVPos4 wf0 (warpedTris dt) = Ok warpedOld /\
    transfer_loop lsqr dt (MkState origOld warpedOld [r0]) (seq 1 (NFrames dt - 1)) = Ok st /\
    out = MkFrames (NVertices dt) (resultFrames st).
Proof.
  unfold beginDeformationTransfer, check.
  destruct (get (frames (warpedFrames dt)) 0) as [wf0|] eqn:Hw; [|intros [=]]. cbn [rbind].
  destruct (Nat.leb_spec 1 (NFrames dt)) as [HN|]; [|intros [=]]. cbn [rbind].
  destruct (assign_frame (NVertices dt) wf0) as [r0|] eqn:Hr; [|intros [=]]. cbn [rbind].
  destruct (get (frames (origFrames dt)) 0) as [of0|] eqn:Ho; [|intros [=]]. cbn [rbind].
  destruct (getVPos4 of0 (origTris dt)) as [oo|] eqn:Hoo; [|intros [=]]. cbn [rbind].
  destruct (getVPos4 wf0 (warpedTris dt)) as [wo|] eqn:Hwo; [|intros [=]]. cbn [rbind].
  destruct (transfer_loop _ _ _ _) as [st|] eqn:Hloop; [|intros [=]]. cbn [rbind].
  intros [= <-]. apply get_Ok in Hw, Ho. exists wf0, r0, of0, oo, wo, st. auto 10.
Qed.

End Shapes.

(** ** Properties *)

Lemma init_NFrames ov wv dt : DeformationTranferer_init ov wv = Ok dt ->
  NFrames dt = length (frames (origFrames dt)).
Proof. unfold DeformationTranferer_init. intros Hi. inv_ok. subst. reflexivity. Qed.

Lemma beginDeformationTransfer_shape `{SqrtOp} lsqr dt out :
  beginDeformationTransfer lsqr dt = Ok out ->
  length (frames out) = NFrames dt /\ Forall (fun f => length f = NVertices dt) (frames out) /\
  shape1 out = NVertices dt.
Proof.
  intros Hb.
  destruct (beginDeformationTransfer_Ok _ _ _ Hb)
    as (wf0 & r0 & of0 & oo & wo & st & Hw & HN & Hr0 & Ho & _ & _ & Hloop & ->).
  destruct (transfer_loop_shape _ _ _ _ _ Hloop) as (fs & Hfs & Hlen & HF). cbn [frames shape1].
  rewrite Hfs, length_seq in *. split; [cbn; lia|].
  split; [constructor; [exact (assign_frame_Ok _ _ _ Hr0) | exact HF] | reflexivity].
Qed.

Lemma beginDeformationTransfer_frame0 `{SqrtOp} lsqr dt out wf0 :
  beginDeformationTransfer lsqr dt = Ok out ->
  nth_error (frames (warpedFrames dt)) 0 = Some wf0 -> length wf0 = NVertices dt ->
  nth_error (frames out) 0 = Some wf0.
Proof.
  intros Hb Hw0 Hl0.
  destruct (beginDeformationTransfer_Ok _ _ _ Hb)
    as (wf0' & r0 & of0 & oo & wo & st & Hw & _ & Hr0 & _ & _ & _ & Hloop & ->).
  rewrite Hw0 in Hw. injection Hw as <-.
  unfold assign_frame in Hr0. rewrite Hl0, Nat.eqb_refl in Hr0. injection Hr0 as <-.
  destruct (transfer_loop_shape _ _ _ _ _ Hloop) as (fs & Hfs & _). cbn [frames].
  rewrite Hfs. reflexivity.
Qed.

(** C18: frame 0 of the output is the target reference pose, unchanged,
    when that pose has [NVertices] rows (numpy would broadcast a one-row
    pose over all rows). *)
Theorem transfer_frame0 `{SqrtOp} lsqr dt out wf0 :
  beginDeformationTransfer lsqr dt = Ok out ->
  nth_error (frames (warpedFrames dt)) 0 = Some wf0 -> length wf0 = NVertices dt ->
  nth_error (frames out) 0 = Some wf0.
Proof. exact (beginDeformationTransfer_frame0 lsqr dt out wf0). Qed.

(** ** The refinement of a transfer step *)

Lemma set_cols_coords x0 x1 x2 P W0 W1 W2 :
  length x0 = length P -> length x1 = length P -> length x2 = length P ->
  set_col 0 x0 P = Ok W0 -> set_col 1 x1 W0 = Ok W1 -> set_col 2 x2 W1 = Ok W2 ->
  length W2 = length P /\ map (vcoord 0) W2 = x0 /\ map (vcoord 1) W2 = x1 /\ map (vcoord 2) W2 = x2.
Proof.
  intros L0 L1 L2 H0 H1 H2.
  pose proof (set_col_length _ _ _ _ H0) as E0. pose proof (set_col_length _ _ _ _ H1) as E1.
  pose proof (set_col_length _ _ _ _ H2) as E2.
  rewrite set_col_exact in H0, H1, H2 by lia.
  assert (F2 : W2 = map (fun p => vset 2 (snd p) (fst p)) (combine W1 x2)) by congruence.
  assert (F1 : W1 = map (fun p => vset 1 (snd p) (fst p)) (combine W0 x1)) by congruence.
  assert (F0 : W0 = map (fun p => vset 0 (snd p) (fst p)) (combine P x0)) by congruence.
  clear H0 H1 H2. split; [lia|]. subst W2 W1 W0.
  repeat first [ rewrite set_col_same by (rewrite ?length_map, ?length_combine; lia)
               | rewrite set_col_other by (rewrite ?length_map, ?length_combine; lia) ].
  auto.
Qed.

(** [gradient_match] against the new pose [X], read on the blocks of [S]. *)
Lemma gradient_match_blocks Ts Tt so sn to X V tV Bs :
  mapM (edges4 so) Ts = Ok V -> mapM (edges4 sn) Ts = Ok tV ->
  affine_blocks (combine V tV) Bs -> length Ts = length Tt ->
  gradient_match Ts Tt so sn to X <->
  (forall i t B, nth_error Tt i = Some t -> nth_error Bs i = Some B ->
     exists Vt Wt Et, edges4 to t = Ok Vt /\ inv3 Vt = Ok Wt /\ edges4 X t = Ok Et /\
       meq (mmul Et Wt) B).
Proof.
  intros HV HtV HBs Hl. split.
  - intros HG i t B Ht HB.
    assert (Hi : i < length Ts) by (rewrite Hl; apply nth_error_Some; congruence).
    destruct (nth_error Ts i) as [ts|] eqn:Hts; [|apply nth_error_None in Hts; lia].
    destruct (Forall2_nth_l _ _ _ _ _ HG Hts) as (t' & Ht' & Vs & Ws & Vn & Vt & Wt & Et & E1 & E2 & E3 & E4 & E5 & E6 & Hm).
    rewrite Ht in Ht'. injection Ht' as <-.
    destruct (affine_blocks_nth _ _ _ _ _ _ _ _ HV HtV HBs Hts) as (v & W & tv & B' & F1 & F2 & F3 & F4 & ->).
    rewrite HB in F4. injection F4 as F4. rewrite E1 in F1. injection F1 as <-.
    rewrite E2 in F2. injection F2 as <-. rewrite E3 in F3. injection F3 as <-.
    exists Vt, Wt, Et. rewrite F4. auto.
  - intros Hb. apply Forall2_nth_intro; [exact Hl|]. intros i ts t Hts Ht.
    destruct (affine_blocks_nth _ _ _ _ _ _ _ _ HV HtV HBs Hts) as (v & W & tv & B & F1 & F2 & F3 & F4 & ->).
    destruct (Hb i t _ Ht F4) as (Vt & Wt & Et & G1 & G2 & G3 & Hm). eauto 13.
Qed.

(** The three solves of a step, unfolded. *)
Lemma transfer_step_Ok `{SqrtOp} lsqr dt st f st' :
  transfer_step lsqr dt st f = Ok st' ->
  exists sn S_ A W0 W1 fr,
    getVPos4 f (origTris dt) = Ok sn /\
    getSMatrix (NFaces dt) (origOldVPos4 st) sn (origTris4 dt) = Ok S_ /\
    getAMatrix (NFaces dt) (NVertices4 dt) (warpedOldVPos4 st) (warpedTris4 dt) = Ok A /\
    set_col 0 (lsqr A (srow 0 S_)) (warpedOldVPos4 st) = Ok W0 /\
    set_col 1 (lsqr A (srow 1 S_)) W0 = Ok W1 /\
    set_col 2 (lsqr A (srow 2 S_)) W1 = Ok (warpedOldVPos4 st') /\
    take_rows (NVertices dt) (warpedOldVPos4 st') = Ok fr /\
    origOldVPos4 st' = sn /\ resultFrames st' = resultFrames st ++ [fr].
Proof.
  unfold transfer_step. intros Hs. inv_ok. subst. simpl. exists x, x0, x1, x2, x3, x5. auto 10.
Qed.

(** One iteration raises nothing when the previous source frame extended
    without error and is non-degenerate, the new frame has [NVertices] rows,
    every extended target triangle of the current pose has an invertible
    edge matrix, and [lsqr] returns one value per unknown. *)
Lemma transfer_step_total `{SqrtOp} lsqr dt st f P :
  dt_wf dt ->
  (forall A b, sp_cols A = NVertices4 dt -> length b = sp_rows A -> length (lsqr A b) = NVertices4 dt) ->
  length P = NVertices dt -> length f = NVertices dt -> forallb (tri_ok P) (origTris dt) = true ->
  getVPos4 P (origTris dt) = Ok (origOldVPos4 st) ->
  length (warpedOldVPos4 st) = NVertices4 dt ->
  Forall (fun t => exists E, edges4 (warpedOldVPos4 st) t = Ok E /\ ~ (mdet E == 0)%Q) (warpedTris4 dt) ->
  exists st', transfer_step lsqr dt st f = Ok st'.
Proof.
  intros (_ & _ & _ & HF & HFw & HN4 & HT4 & HTw4 & _) Hl HP Hf Hok HO HW HE.
  pose proof (tris_ok_in_range _ _ Hok) as Hr.
  assert (Hrf : Forall (fun t => tri_in_range (length f) t = true) (origTris dt)) by (rewrite Hf, <- HP; exact Hr).
  destruct (get4thVertex_total _ _ Hrf) as [V4 HV4].
  assert (Hsn : getVPos4 f (origTris dt) = Ok (f ++ V4)) by (apply getVPos4_Ok; eauto).
  destruct (extended_edges_exist _ _ _ HO Hr) as [V HV].
  destruct (extended_edges_exist _ _ _ Hsn Hrf) as [tV HtV]. rewrite Hf, <- HP in HtV.
  destruct (getSMatrix_total_blocks (NFaces dt) _ _ _ V tV HV HtV) as [S_ HS];
    [rewrite length_tris4; lia | exact (extended_edges_nonsingular _ _ _ _ HO Hok HV)|].
  rewrite HP, <- HT4 in HS.
  destruct (mapM_total_Forall _ _ _ HE) as (Vw & HVw & HnSw).
  destruct (getAMatrix_total_edges (NFaces dt) (NVertices4 dt) _ _ Vw HVw HnSw) as [A HA].
  { rewrite HTw4, length_tris4. lia. }
  { rewrite Forall_forall in HE |- *. intros t Ht. destruct (HE t Ht) as (E & HEt & _).
    rewrite <- HW. exact (edges4_bounds _ _ _ HEt). }
  assert (Hx : forall a, length (lsqr A (srow a S_)) = NVertices4 dt).
  { intros a. destruct (getAMatrix_shape _ _ _ _ _ HA) as [Hrw Hc]. apply Hl; [exact Hc|].
    rewrite Hrw, (getSMatrix_srow_length _ _ _ _ _ a HS), HT4, HTw4, !length_tris4. lia. }
  destruct (set_col_total 0 (lsqr A (srow 0 S_)) (warpedOldVPos4 st)) as (W0 & H0 & L0); [rewrite Hx; lia|].
  destruct (set_col_total 1 (lsqr A (srow 1 S_)) W0) as (W1 & H1 & L1); [rewrite Hx; lia|].
  destruct (set_col_total 2 (lsqr A (srow 2 S_)) W1) as (W2 & H2 & L2); [rewrite Hx; lia|].
  unfold transfer_step. rewrite Hsn. cbn [rbind]. rewrite HS. cbn [rbind]. rewrite HA. cbn [rbind].
  rewrite H0. cbn [rbind]. rewrite H1. cbn [rbind]. rewrite H2. cbn [rbind].
  rewrite (proj2 (take_rows_Ok (NVertices dt) W2 (firstn (NVertices dt) W2))) by (split; [lia | reflexivity]).
  eexists. reflexivity.
Qed.

Lemma transfer_step_meets_spec `{SqrtOp} lsqr dt st f st' :
  transfer_step lsqr dt st f = Ok st' ->
  length (warpedOldVPos4 st) = NVertices4 dt ->
  (forall A S_, getAMatrix (NFaces dt) (NVertices4 dt) (warpedOldVPos4 st) (warpedTris4 dt) = Ok A ->
     getSMatrix (NFaces dt) (origOldVPos4 st) (origOldVPos4 st') (origTris4 dt) = Ok S_ ->
     forall a, a < 3 -> is_lsq A (srow a S_) (lsqr A (srow a S_))) ->
  (exists Y, length Y = NVertices4 dt /\
     gradient_match (origTris4 dt) (warpedTris4 dt) (origOldVPos4 st) (origOldVPos4 st')
                    (warpedOldVPos4 st) Y) ->
  gradient_match (origTris4 dt) (warpedTris4 dt) (origOldVPos4 st) (origOldVPos4 st')
                 (warpedOldVPos4 st) (warpedOldVPos4 st').
Proof.
  intros Hstep HlP Hls (Y & HYl & HY).
  destruct (transfer_step_Ok _ _ _ _ _ Hstep) as (sn & S_ & A & W0 & W1 & fr & _ & HS & HA & H0 & H1 & H2 & _ & Hsn & _).
  rewrite Hsn in *. specialize (Hls A S_ HA HS).
  pose proof (getAMatrix_shape _ _ _ _ _ HA) as [Hrows Hcols].
  pose proof (HS) as (V & tV & Bs & HV & HtV & HNs & HBs & HSB)%getSMatrix_Ok.
  apply getAMatrix_Ok in HA as HA'. destruct HA' as (_ & _ & _ & HNt & _).
  assert (HlT : length (origTris4 dt) = length (warpedTris4 dt)) by lia.
  assert (HlB : length Bs = length (warpedTris4 dt))
    by (rewrite (affine_blocks_length _ _ HBs), length_combine, (mapM_length _ _ _ HV),
          (mapM_length _ _ _ HtV); lia).
  assert (Hlx : forall a, a < 3 -> length (lsqr A (srow a S_)) = length (warpedOldVPos4 st))
    by (intros a Ha; destruct (Hls a Ha) as [Hl _]; lia).
  destruct (set_cols_coords _ _ _ _ _ _ _ (Hlx 0 ltac:(lia)) (Hlx 1 ltac:(lia)) (Hlx 2 ltac:(lia))
              H0 H1 H2) as (HlW & C0 & C1 & C2).
  assert (Hex : forall X, length X = length (warpedOldVPos4 st) ->
            forall i t, nth_error (warpedTris4 dt) i = Some t -> exists E, edges4 X t = Ok E).
  { intros X HX i t Ht. destruct (getAMatrix_row_value _ _ _ _ _ HA i t 0 [] Ht) as (Vt & _ & HVt & _); [lia|].
    exact (edges4_same_length _ _ _ _ HVt HX). }
  pose proof (proj1 (gradient_match_blocks _ _ _ _ (warpedOldVPos4 st) Y _ _ _ HV HtV HBs HlT) HY)
    as HYb.
  apply (proj2 (gradient_match_blocks _ _ _ _ (warpedOldVPos4 st) _ _ _ _ HV HtV HBs HlT)).
  rewrite HSB in *.
  apply (proj1 (getAMatrix_solves_iff _ _ _ _ _ _ _ HA HlB (Hex _ HlW))).
  clear HY. pose proof (proj2 (getAMatrix_solves_iff _ _ _ _ _ Y _ HA HlB (Hex Y ltac:(lia))) HYb)
    as HY.
  intros a Ha. specialize (Hls a Ha). specialize (HY a Ha).
  replace (map (vcoord a) (warpedOldVPos4 st')) with (lsqr A (srow a (stack Bs)))
    by (destruct a as [|[|[|a]]]; [symmetry; assumption.. | lia]).
  apply (lsq_consistent _ _ _ (map (vcoord a) Y)); [| exact Hls | rewrite length_map; lia | exact HY].
  rewrite length_srow_stack. lia.
Qed.

(** C1: refinement of a transfer step.  If [lsqr] returns a least-squares
    solution of each of the three systems of the step, and the step's
    specification can be met at all (some pose [Y] matches every source
    gradient), then the pose the step produces meets it: the deformation
    gradient of every target triangle, from the previous target pose to the
    solved one, equals the affine map of the corresponding source triangle. *)
Theorem transfer_step_exact `{SqrtOp} lsqr dt st f st' :
  transfer_step lsqr dt st f = Ok st' ->
  length (warpedOldVPos4 st) = NVertices4 dt ->
  (forall A S_, getAMatrix (NFaces dt) (NVertices4 dt) (warpedOldVPos4 st) (warpedTris4 dt) = Ok A ->
     getSMatrix (NFaces dt) (origOldVPos4 st) (origOldVPos4 st') (origTris4 dt) = Ok S_ ->
     forall a, a < 3 -> is_lsq A (srow a S_) (lsqr A (srow a S_))) ->
  (exists Y, length Y = NVertices4 dt /\
     gradient_match (origTris4 dt) (warpedTris4 dt) (origOldVPos4 st) (origOldVPos4 st')
                    (warpedOldVPos4 st) Y) ->
  gradient_match (origTris4 dt) (warpedTris4 dt) (origOldVPos4 st) (origOldVPos4 st')
                 (warpedOldVPos4 st) (warpedOldVPos4 st').
Proof. exact (transfer_step_meets_spec lsqr dt st f st'). Qed.

(** When the source does not move, the current target pose meets the
    specification of the step. *)
Lemma gradient_match_self NF NF' NV4 so Ts Tt to S_ A :
  getSMatrix NF so so Ts = Ok S_ -> getAMatrix NF' NV4 to Tt = Ok A -> length Ts = length Tt ->
  gradient_match Ts Tt so so to to.
Proof.
  intros HS HA Hl. apply Forall2_nth_intro; [exact Hl|]. intros i ts tt Hts Htt.
  destruct (getSMatrix_block _ _ _ _ _ _ _ HS Hts) as (Bs & V & W & tV & B & _ & _ & _ & HV & HW & HtV & _ & _).
  rewrite HV in HtV. injection HtV as <-.
  destruct (getAMatrix_row_value _ _ _ _ _ HA i tt 0 [] Htt) as (Vt & Wt & HVt & HWt & _); [lia|].
  exists V, W, V, Vt, Wt, Vt. repeat (split; [assumption|]).
  rewrite (inv3_r _ _ HWt), (inv3_r _ _ HW). reflexivity.
Qed.

(** The target edge matrices after a step whose source does not move. *)
Lemma transfer_step_keeps_edges `{SqrtOp} lsqr dt st f st' :
  transfer_step lsqr dt st f = Ok st' -> origOldVPos4 st' = origOldVPos4 st ->
  length (warpedOldVPos4 st) = NVertices4 dt ->
  (forall A S_, getAMatrix (NFaces dt) (NVertices4 dt) (warpedOldVPos4 st) (warpedTris4 dt) = Ok A ->
     getSMatrix (NFaces dt) (origOldVPos4 st) (origOldVPos4 st') (origTris4 dt) = Ok S_ ->
     forall a, a < 3 -> is_lsq A (srow a S_) (lsqr A (srow a S_))) ->
  forall i t, nth_error (warpedTris4 dt) i = Some t ->
  exists E E', edges4 (warpedOldVPos4 st) t = Ok E /\ edges4 (warpedOldVPos4 st') t = Ok E' /\
    meq E' E.
Proof.
  intros Hstep Hsame HlP Hls i t Ht.
  destruct (transfer_step_Ok _ _ _ _ _ Hstep)
    as (sn & S_ & A & _ & _ & _ & _ & HS & HA & _ & _ & _ & _ & Hsn & _).
  assert (Esn : sn = origOldVPos4 st) by congruence. subst sn.
  pose proof HS as HS'. rewrite Hsame in HS'.
  pose proof (HS) as (_ & _ & _ & _ & _ & HNs & _)%getSMatrix_Ok.
  pose proof (HA) as (_ & _ & _ & HNt & _)%getAMatrix_Ok.
  assert (Hl : length (origTris4 dt) = length (warpedTris4 dt)) by lia.
  assert (HG := transfer_step_meets_spec lsqr dt st f st' Hstep HlP Hls).
  rewrite Hsame in HG.
  specialize (HG (ex_intro _ (warpedOldVPos4 st) (conj HlP (gradient_match_self _ _ _ _ _ _ _ _ _ HS' HA Hl)))).
  destruct (Forall2_nth_r _ _ _ _ _ HG Ht)
    as (ts & Hts & Vs & Ws & Vn & Vt & Wt & Et & E1 & E2 & E3 & E4 & E5 & E6 & Hm).
  rewrite E1 in E3. injection E3 as <-. rewrite (inv3_r _ _ E2) in Hm.
  exists Vt, Et. split; [exact E4|]. split; [exact E6|]. exact (mmul_inv_id _ _ _ E5 Hm).
Qed.

(** C15: identity step.  If the new source frame extends to the same pose
    as the old one and [lsqr] returns least-squares solutions, every target
    triangle keeps its extended edge matrix: the solved pose differs from
    the previous one by at most a common translation per connected piece. *)
Theorem transfer_step_identity `{SqrtOp} lsqr dt st f st' :
  transfer_step lsqr dt st f = Ok st' -> origOldVPos4 st' = origOldVPos4 st ->
  length (warpedOldVPos4 st) = NVertices4 dt ->
  (forall A S_, getAMatrix (NFaces dt) (NVertices4 dt) (warpedOldVPos4 st) (warpedTris4 dt) = Ok A ->
     getSMatrix (NFaces dt) (origOldVPos4 st) (origOldVPos4 st') (origTris4 dt) = Ok S_ ->
     forall a, a < 3 -> is_lsq A (srow a S_) (lsqr A (srow a S_))) ->
  forall i t, nth_error (warpedTris4 dt) i = Some t ->
  exists E E', edges4 (warpedOldVPos4 st) t = Ok E /\ edges4 (warpedOldVPos4 st') t = Ok E' /\
    meq E' E.
Proof. exact (transfer_step_keeps_edges lsqr dt st f st'). Qed.

(** ** Validation and ordering *)

Lemma init_Ok_spec ov wv :
  (exists dt, DeformationTranferer_init ov wv = Ok dt) <->
  shape1 (Frames ov) = length (VPos (m ov)) /\ length (VPos (m ov)) = length (VPos (m wv)) /\
  length (VPos (m wv)) = shape1 (Frames wv) /\ length (ITris (m ov)) = length (ITris (m wv)).
Proof.
  unfold DeformationTranferer_init, check.
  destruct (Nat.eqb_spec (shape1 (Frames ov)) (length (VPos (m ov)))),
    (Nat.eqb_spec (length (VPos (m ov))) (length (VPos (m wv)))),
    (Nat.eqb_spec (length (VPos (m wv))) (shape1 (Frames wv))),
    (Nat.eqb_spec (length (ITris (m ov))) (length (ITris (m wv)))); simpl;
    (split; [intros [dt Hdt]; try discriminate; auto | intros (? & ? & ? & ?); try contradiction]).
  eexists. reflexivity.
Qed.

(** C25: [__init__] accepts two videos exactly when the source frames, the
    source mesh, the target mesh and the target frames all have the same
    number of vertices and the two meshes the same number of faces; any
    other input raises [AssertionError].  (The spec asks only for equal
    triangle counts: a target mesh with a different vertex count is
    rejected.) *)
Theorem init_Ok_iff ov wv :
  (exists dt, DeformationTranferer_init ov wv = Ok dt) <->
  shape1 (Frames ov) = length (VPos (m ov)) /\ length (VPos (m ov)) = length (VPos (m wv)) /\
  length (VPos (m wv)) = shape1 (Frames wv) /\ length (ITris (m ov)) = length (ITris (m wv)).
Proof. exact (init_Ok_spec ov wv). Qed.

(** The object [__init__] builds is well typed: [NVertices4] is
    [NVertices + NFaces], both triangle lists have [NFaces] rows, [Tris4]
    extends them with the synthetic indices, the target frames have
    [NVertices] rows per frame and [NFrames] counts the source frames. *)
Lemma init_wf ov wv dt : DeformationTranferer_init ov wv = Ok dt -> dt_wf dt.
Proof.
  unfold DeformationTranferer_init, check.
  destruct (_ && _) eqn:E; cbn [rbind]; [|discriminate].
  destruct (Nat.eqb_spec (length (ITris (m ov))) (length (ITris (m wv)))) as [Ht|]; cbn [rbind];
    [|discriminate].
  intros [= <-]. apply andb_prop in E as [E E3]. apply andb_prop in E as [E E2].
  apply andb_prop in E as [E1 E4]. apply Nat.eqb_eq in E1, E2, E4.
  unfold dt_wf; cbn. repeat split; reflexivity || lia.
Qed.

(** Round trip of the extension.  Selecting the first [len(VPos3)]
    rows ([P[np.arange(NVertices), :]]) of [getVPos4(VPos3, ITris3)]
    ([np.vstack((VPos3, V4))]) gives back [VPos3]: the emitted frame drops
    exactly the synthetic vertices. *)
Lemma take_rows_getVPos4 `{SqrtOp} P Tris P4 :
  getVPos4 P Tris = Ok P4 -> take_rows (length P) P4 = Ok P.
Proof.
  intros (V4 & _ & ->)%getVPos4_Ok. apply take_rows_Ok. split.
  - rewrite length_app. lia.
  - rewrite firstn_app, Nat.sub_diag, firstn_O, app_nil_r, firstn_all. reflexivity.
Qed.

Lemma init_Err ov wv :
  length (VPos (m ov)) <> length (VPos (m wv)) ->
  DeformationTranferer_init ov wv = Err AssertionError.
Proof.
  intros Hne. destruct (DeformationTranferer_init ov wv) as [dt|e] eqn:E.
  - exfalso. apply Hne. apply (proj1 (init_Ok_spec ov wv)). eauto.
  - revert E. unfold DeformationTranferer_init, check.
    destruct (_ && _); simpl; [destruct (_ =? _); simpl; congruence | congruence].
Qed.

(** ** Witnesses *)

Definition ex_mesh : PolyMesh := MkMesh ex_pose ex_tris.
(** A source video of two identical frames and a one-frame target video. *)
Definition ex_ov : VideoMesh := MkVideo (MkFrames 4 [ex_pose; ex_pose]) ex_mesh.
Definition ex_wv : VideoMesh := MkVideo (MkFrames 4 [ex_pose]) ex_mesh.
Definition ex_dt : DeformationTranferer :=
  ok_or (MkDT ex_ov ex_wv (MkFrames 0 []) (MkFrames 0 []) 0 0 0 0 0 [] [] [] [])
        (DeformationTranferer_init ex_ov ex_wv).

(** A solver for the example: it returns the axis of the current extended
    target pose that the right-hand side selects. *)
Definition ex_lsqr (A : spmat) (b : list Q) : list Q :=
  map (vcoord (if Qeq_bool (nth 0 b 0%Q) 1 then 0 else if Qeq_bool (nth 1 b 0%Q) 1 then 1 else 2))
      ex_pose4.

Definition ex_st : tstate := MkState ex_pose4 ex_pose4 [ex_pose].
Definition ex_st' : tstate :=
  ok_or ex_st (transfer_step ex_lsqr ex_dt ex_st ex_pose).
Definition ex_out : frames3 := ok_or (MkFrames 0 []) (beginDeformationTransfer ex_lsqr ex_dt).

Lemma transfer_frame0_witness :
  beginDeformationTransfer ex_lsqr ex_dt = Ok ex_out /\
  nth_error (frames (warpedFrames ex_dt)) 0 = Some ex_pose /\ length ex_pose = NVertices ex_dt /\
  nth_error (frames ex_out) 0 = Some ex_pose.
Proof.
  assert (Hb : beginDeformationTransfer ex_lsqr ex_dt = Ok ex_out) by (vm_compute; reflexivity).
  assert (Hw : nth_error (frames (warpedFrames ex_dt)) 0 = Some ex_pose) by (vm_compute; reflexivity).
  assert (Hl : length ex_pose = NVertices ex_dt) by (vm_compute; reflexivity).
  split; [exact Hb|]. split; [exact Hw|]. split; [exact Hl|].
  exact (transfer_frame0 _ _ _ _ Hb Hw Hl).
Defined.

(** The solver meets its contract on the calls of the example step. *)
Lemma ex_lsqr_contract :
  forall A S_, getAMatrix (NFaces ex_dt) (NVertices4 ex_dt) (warpedOldVPos4 ex_st) (warpedTris4 ex_dt) = Ok A ->
  getSMatrix (NFaces ex_dt) (origOldVPos4 ex_st) (origOldVPos4 ex_st') (origTris4 ex_dt) = Ok S_ ->
  forall a, a < 3 -> is_lsq A (srow a S_) (ex_lsqr A (srow a S_)).
Proof.
  intros A S_ HA HS a Ha.
  assert (HA' : getAMatrix (NFaces ex_dt) (NVertices4 ex_dt) (warpedOldVPos4 ex_st) (warpedTris4 ex_dt)
                = Ok ex_A) by (vm_compute; reflexivity).
  assert (HS' : getSMatrix (NFaces ex_dt) (origOldVPos4 ex_st) (origOldVPos4 ex_st') (origTris4 ex_dt)
                = Ok (ok_or szero (getSMatrix (NFaces ex_dt) (origOldVPos4 ex_st) (origOldVPos4 ex_st')
                                                (origTris4 ex_dt)))) by (vm_compute; reflexivity).
  rewrite HA' in HA. injection HA as <-. rewrite HS' in HS. injection HS as <-.
  destruct a as [|[|[|a]]]; [| | | lia]; apply zero_resid_is_lsq; vm_compute; reflexivity.
Qed.

Lemma transfer_step_exact_witness :
  transfer_step ex_lsqr ex_dt ex_st ex_pose = Ok ex_st' /\
  length (warpedOldVPos4 ex_st) = NVertices4 ex_dt /\
  gradient_match (origTris4 ex_dt) (warpedTris4 ex_dt) (origOldVPos4 ex_st) (origOldVPos4 ex_st')
                 (warpedOldVPos4 ex_st) (warpedOldVPos4 ex_st').
Proof.
  assert (Hs : transfer_step ex_lsqr ex_dt ex_st ex_pose = Ok ex_st') by (vm_compute; reflexivity).
  assert (Hl : length (warpedOldVPos4 ex_st) = NVertices4 ex_dt) by (vm_compute; reflexivity).
  assert (HS : getSMatrix (NFaces ex_dt) (origOldVPos4 ex_st) (origOldVPos4 ex_st') (origTris4 ex_dt)
               = Ok (ok_or szero (getSMatrix (NFaces ex_dt) (origOldVPos4 ex_st) (origOldVPos4 ex_st)
                                               (origTris4 ex_dt)))) by (vm_compute; reflexivity).
  assert (HA : getAMatrix (NFaces ex_dt) (NVertices4 ex_dt) (warpedOldVPos4 ex_st) (warpedTris4 ex_dt)
               = Ok ex_A) by (vm_compute; reflexivity).
  assert (Hsame : origOldVPos4 ex_st' = origOldVPos4 ex_st) by (vm_compute; reflexivity).
  split; [exact Hs|]. split; [exact Hl|].
  apply (transfer_step_exact ex_lsqr ex_dt ex_st ex_pose ex_st' Hs Hl ex_lsqr_contract).
  exists (warpedOldVPos4 ex_st). split; [exact Hl|].
  rewrite Hsame in HS |- *. exact (gradient_match_self _ _ _ _ _ _ _ _ _ HS HA eq_refl).
Defined.

Lemma transfer_step_identity_witness :
  transfer_step ex_lsqr ex_dt ex_st ex_pose = Ok ex_st' /\
  origOldVPos4 ex_st' = origOldVPos4 ex_st /\ length (warpedOldVPos4 ex_st) = NVertices4 ex_dt /\
  nth_error (warpedTris4 ex_dt) 1 = Some (T4 1 3 2 5) /\
  exists E E', edges4 (warpedOldVPos4 ex_st) (T4 1 3 2 5) = Ok E /\
    edges4 (warpedOldVPos4 ex_st') (T4 1 3 2 5) = Ok E' /\ meq E' E.
Proof.
  assert (Hs : transfer_step ex_lsqr ex_dt ex_st ex_pose = Ok ex_st') by (vm_compute; reflexivity).
  assert (Hsame : origOldVPos4 ex_st' = origOldVPos4 ex_st) by (vm_compute; reflexivity).
  assert (Hl : length (warpedOldVPos4 ex_st) = NVertices4 ex_dt) by (vm_compute; reflexivity).
  assert (Ht : nth_error (warpedTris4 ex_dt) 1 = Some (T4 1 3 2 5)) by (vm_compute; reflexivity).
  split; [exact Hs|]. split; [exact Hsame|]. split; [exact Hl|]. split; [exact Ht|].
  exact (transfer_step_identity ex_lsqr ex_dt ex_st ex_pose ex_st' Hs Hsame Hl ex_lsqr_contract 1 _ Ht).
Defined.
