(* ===== verification/Video.v ===== *)
(** * Video: the [VideoMesh] class (its second definition, line 232)

    [VideoMesh(initialMeshFilename)] loads a mesh (S3DGLPy's
    [PolyMesh.loadFile], taken here as the argument [loaded]), negates the
    z coordinates of one particular file, and makes a one-frame video of its
    positions ([np.reshape(VPos, (1, N, 3))]).  [loadVideo] replaces the
    frames by an array read from a [.mat] file (the array is the argument);
    [drawFrame(idx, ...)] clamps [idx] to the last frame, points the mesh's
    [VPos] at that frame and renders it.  The rendering flags
    ([needsDisplayUpdate]), the bounding box and the OpenGL call are display
    state and are not modelled.

    [transferVideo] is [beginDeformationTransfer] with its final assignment
    [self.warpedVideo.Frames = resultFrames]: the theorems compose the
    transfer with playback (every index of the transferred video can be
    drawn) and show that a second transfer writes the same frames. *)

From Stdlib Require Import String.
From Stdlib Require Import Arith QArith Lia List.
(** [String] shadows the list [length]; restore it. *)
Import Corelib.Init.Datatypes.
From S2P Require Import Prelude Linalg Sparse Frame Transfer.
Import ListNotations.
Open Scope nat_scope.

(** ** Operations *)

(** [self.m.VPos[:, 2] = -self.m.VPos[:, 2]] on one row. *)
Definition flip_z (v : vec3) : vec3 := V3 (vx v) (vy v) (- vz v).

Definition VideoMesh_init (initialMeshFilename : String.string) (loaded : PolyMesh) : VideoMesh :=
  let m0 := if String.eqb initialMeshFilename "NotreDameFrontHalfMouthCut.off"%string
            then MkMesh (map flip_z (VPos loaded)) (ITris loaded)
            else loaded in
  MkVideo (MkFrames (length (VPos m0)) [VPos m0]) m0.

(** [self.Frames = sio.loadmat(videoFilename)['Frames']] *)
Definition loadVideo (v : VideoMesh) (loadedFrames : frames3) : VideoMesh :=
  MkVideo loadedFrames (m v).

(** [doTransfer] returns [None] and changes nothing. *)
Definition doTransfer (v : VideoMesh) : VideoMesh := v.

(** [drawFrame]: past the end, [idx = self.Frames.shape[0] - 1]; then
    [self.m.VPos = self.Frames[idx, :, :]].  On an empty video Python's
    index is [-1] and the read raises [IndexError]; with [nat] indices the
    clamped index is [0], which raises the same error. *)
Definition drawFrame (v : VideoMesh) (idx : nat) : result VideoMesh :=
  let n := length (frames (Frames v)) in
  let idx := if n <=? idx then n - 1 else idx in
  let* f := get (frames (Frames v)) idx in
  Ok (MkVideo (Frames v) (MkMesh f (ITris (m v)))).

(** The transferer with its [warpedVideo] attribute replaced; every other
    field, [warpedFrames] included, is kept. *)
Definition set_warpedVideo (dt : DeformationTranferer) (v : VideoMesh) : DeformationTranferer :=
  MkDT (origVideo dt) v (origFrames dt) (warpedFrames dt) (NFrames dt) (NFaces dt) (count dt)
       (NVertices dt) (NVertices4 dt) (origTris dt) (warpedTris dt) (origTris4 dt) (warpedTris4 dt).

(** [beginDeformationTransfer] with its last statement,
    [self.warpedVideo.Frames = resultFrames]: the [Frames] attribute of the
    target video object is rebound to the new array.  [self.warpedFrames],
    bound to the old array by [__init__], is not changed by the rebinding. *)
Definition transferVideo `{SqrtOp} (lsqr : spmat -> list Q -> list Q) (dt : DeformationTranferer)
  : result DeformationTranferer :=
  let* F := beginDeformationTransfer lsqr dt in
  Ok (set_warpedVideo dt (MkVideo F (m (warpedVideo dt)))).

(** The first class [VideoMesh] (lines 87-93), which the second class of
    the same name replaces in the module namespace when the module loads.
    [__init__] sets [self.Frames = np.array([])], an empty one-dimensional
    array. *)
Record VideoMesh0 : Type := MkVideo0 { Frames0 : list Q }.

Definition VideoMesh0_init : VideoMesh0 := MkVideo0 [].

(** [v.initStaticVideo(args...)]: the method is declared with the single
    parameter [VPosInitial], which a bound call fills with [v] itself.  An
    explicit argument is one too many and raises [TypeError]; without one,
    [np.array(VPosInitial)] is evaluated and the assignment to
    [self.Frames] raises [NameError], [self] not being bound in the
    method. *)
Definition initStaticVideo0 (v : VideoMesh0) (args : list pose) : result VideoMesh0 :=
  match args with
  | [] => Err NameError
  | _ :: _ => Err TypeError
  end.

(** ** Lemmas *)

Lemma flip_z_involutive v : flip_z (flip_z v) = V3 (vx v) (vy v) (- - vz v).
Proof. reflexivity. Qed.

Lemma VideoMesh_init_mesh f l :
  m (VideoMesh_init f l) =
  if String.eqb f "NotreDameFrontHalfMouthCut.off"%string then MkMesh (map flip_z (VPos l)) (ITris l) else l.
Proof. reflexivity. Qed.

(** No call of the first class's [initStaticVideo] returns. *)
Lemma initStaticVideo0_raises v args : exists e, initStaticVideo0 v args = Err e.
Proof. destruct args; eexists; reflexivity. Qed.

Lemma get_nth {A : Type} (l : list A) i d : i < length l -> get l i = Ok (nth i l d).
Proof. intros Hi. apply get_Ok. apply nth_error_nth'. exact Hi. Qed.

(** ** Properties *)

(** A freshly loaded video has exactly one frame, the positions of its
    mesh, with as many rows as the mesh has vertices; only the file
    [NotreDameFrontHalfMouthCut.off] has its z axis negated. *)
Lemma VideoMesh_init_one_frame f l :
  frames (Frames (VideoMesh_init f l)) = [VPos (m (VideoMesh_init f l))] /\
  shape1 (Frames (VideoMesh_init f l)) = length (VPos l) /\
  ITris (m (VideoMesh_init f l)) = ITris l /\
  (f <> "NotreDameFrontHalfMouthCut.off"%string -> m (VideoMesh_init f l) = l).
Proof.
  unfold VideoMesh_init. destruct (String.eqb_spec f "NotreDameFrontHalfMouthCut.off"%string).
  - cbn. rewrite length_map. repeat split; [reflexivity.. |]. intros Hf. contradiction.
  - cbn. repeat split; reflexivity.
Qed.

Lemma drawFrame_clamp_value v idx :
  frames (Frames v) <> [] ->
  drawFrame v idx =
  Ok (MkVideo (Frames v)
        (MkMesh (nth (Nat.min idx (length (frames (Frames v)) - 1)) (frames (Frames v)) [])
                (ITris (m v)))).
Proof.
  intros Hne. assert (Hn : 0 < length (frames (Frames v)))
    by (destruct (frames (Frames v)); [contradiction | cbn; lia]).
  unfold drawFrame. cbv zeta. destruct (Nat.leb_spec (length (frames (Frames v))) idx) as [Hle|Hlt].
  - rewrite (get_nth (frames (Frames v)) _ []) by lia. cbn [rbind].
    rewrite Nat.min_r by lia. reflexivity.
  - rewrite (get_nth (frames (Frames v)) _ []) by lia. cbn [rbind].
    rewrite Nat.min_l by lia. reflexivity.
Qed.

(** C24: [drawFrame] shows frame [min idx (n - 1)] of a non-empty video:
    an index past the end plays the last frame.  The frames and the
    triangles are unchanged. *)
Theorem drawFrame_clamp v idx :
  frames (Frames v) <> [] ->
  drawFrame v idx =
  Ok (MkVideo (Frames v)
        (MkMesh (nth (Nat.min idx (length (frames (Frames v)) - 1)) (frames (Frames v)) [])
                (ITris (m v)))).
Proof. exact (drawFrame_clamp_value v idx). Qed.

(** [drawFrame] on a video with no frames raises [IndexError]. *)
Lemma drawFrame_empty v idx :
  frames (Frames v) = [] -> drawFrame v idx = Err IndexError.
Proof. intros He. unfold drawFrame. rewrite He. reflexivity. Qed.

(** C29: the transfer composed with playback.  After a completed transfer,
    drawing any index of the target video raises nothing and shows a frame
    of [NVertices] rows: frame [idx] of the transferred array when [idx] is
    a frame, else the last one, with the target mesh's triangles. *)
Theorem transfer_then_draw `{SqrtOp} lsqr dt dt' idx :
  transferVideo lsqr dt = Ok dt' ->
  exists fr, drawFrame (warpedVideo dt') idx =
      Ok (MkVideo (Frames (warpedVideo dt')) (MkMesh fr (ITris (m (warpedVideo dt))))) /\
    length fr = NVertices dt /\
    nth_error (frames (Frames (warpedVideo dt'))) (Nat.min idx (NFrames dt - 1)) = Some fr.
Proof.
  unfold transferVideo. destruct (beginDeformationTransfer lsqr dt) as [out|] eqn:Hb; [|discriminate].
  intros [= <-]. cbn [warpedVideo set_warpedVideo Frames m].
  destruct (beginDeformationTransfer_shape _ _ _ Hb) as (Hn & HF & _).
  destruct (beginDeformationTransfer_Ok _ _ _ Hb) as (_ & _ & _ & _ & _ & _ & _ & H1 & _).
  assert (Hi : Nat.min idx (NFrames dt - 1) < length (frames out)) by lia.
  exists (nth (Nat.min idx (NFrames dt - 1)) (frames out) []).
  rewrite drawFrame_clamp_value by (cbn; intros E; rewrite E in Hn; cbn in Hn; lia).
  cbn [Frames]. rewrite Hn. split; [reflexivity|].
  split; [|apply nth_error_nth'; exact Hi].
  rewrite Forall_forall in HF. apply HF, nth_In. exact Hi.
Qed.

(** The transfer is idempotent.  Running [beginDeformationTransfer]
    again on the transferer it updated writes the same frames: the loop reads
    [self.warpedFrames], the array bound at construction, not the rebound
    [self.warpedVideo.Frames]. *)
Lemma transferVideo_idempotent `{SqrtOp} lsqr dt dt' :
  transferVideo lsqr dt = Ok dt' -> transferVideo lsqr dt' = Ok dt'.
Proof.
  unfold transferVideo. destruct (beginDeformationTransfer lsqr dt) as [out|] eqn:Hb; [|discriminate].
  intros [= <-].
  assert (E : forall v, beginDeformationTransfer lsqr (set_warpedVideo dt v) = beginDeformationTransfer lsqr dt)
    by (intros v; destruct dt; reflexivity).
  rewrite E, Hb. cbn [rbind]. destruct dt. reflexivity.
Qed.

(** ** Witnesses *)

Definition ex_video : VideoMesh := VideoMesh_init "candide.off"%string ex_mesh.

Lemma drawFrame_clamp_witness :
  frames (Frames ex_video) <> [] /\
  drawFrame ex_video 7 =
  Ok (MkVideo (Frames ex_video)
        (MkMesh (nth (Nat.min 7 (length (frames (Frames ex_video)) - 1)) (frames (Frames ex_video)) [])
                (ITris (m ex_video)))).
Proof.
  assert (Hne : frames (Frames ex_video) <> []) by discriminate.
  split; [exact Hne | exact (drawFrame_clamp ex_video 7 Hne)].
Defined.



Lemma transfer_then_draw_witness :
  transferVideo ex_lsqr ex_dt = Ok (ok_or ex_dt (transferVideo ex_lsqr ex_dt)) /\
  exists fr, drawFrame (warpedVideo (ok_or ex_dt (transferVideo ex_lsqr ex_dt))) 5 =
      Ok (MkVideo (Frames (warpedVideo (ok_or ex_dt (transferVideo ex_lsqr ex_dt))))
                  (MkMesh fr (ITris (m (warpedVideo ex_dt))))) /\
    length fr = NVertices ex_dt /\
    nth_error (frames (Frames (warpedVideo (ok_or ex_dt (transferVideo ex_lsqr ex_dt)))))
              (Nat.min 5 (NFrames ex_dt - 1)) = Some fr.
Proof.
  assert (Ht : transferVideo ex_lsqr ex_dt = Ok (ok_or ex_dt (transferVideo ex_lsqr ex_dt)))
    by (vm_compute; reflexivity).
  split; [exact Ht | exact (transfer_then_draw ex_lsqr ex_dt _ 5 Ht)].
Defined.

