(* ===== verification/Script.v ===== *)
(** * Script: the debug output of [__init__] and the [__main__] block

    After its assertions, [DeformationTranferer.__init__] prints ten debug
    lines (lines 123-132) with the shapes it has read; [init_debug_info] is
    that output as a list of lines, and [DeformationTranferer_init_out] is
    [__init__] with its output, so that the output is produced exactly when
    the constructor returns.  The text follows Python 2's [print a, b]: the
    items separated by one space, [str] of an [int] in decimal and of a
    tuple as [(a, b, c)].

    The [__main__] block (lines 264-271) first builds
    [VideoMesh('candide.off')] and then assigns it to [self.origVideo] at
    module level, where [self] is not bound: [main] raises [NameError] there,
    and the rest of the block never runs. *)

From Stdlib Require Import String.
From Stdlib Require Import Arith Lia List.
(** [String] shadows the list [length]; restore it. *)
Import Corelib.Init.Datatypes.
From S2P Require Import Prelude Linalg Transfer Video.
Import ListNotations.
Open Scope nat_scope.

(** ** Definitions *)

(** The decimal digits of an unsigned decimal number. *)
Fixpoint uint_digits (d : Decimal.uint) : string :=
  match d with
  | Decimal.Nil => ""
  | Decimal.D0 d => "0" ++ uint_digits d
  | Decimal.D1 d => "1" ++ uint_digits d
  | Decimal.D2 d => "2" ++ uint_digits d
  | Decimal.D3 d => "3" ++ uint_digits d
  | Decimal.D4 d => "4" ++ uint_digits d
  | Decimal.D5 d => "5" ++ uint_digits d
  | Decimal.D6 d => "6" ++ uint_digits d
  | Decimal.D7 d => "7" ++ uint_digits d
  | Decimal.D8 d => "8" ++ uint_digits d
  | Decimal.D9 d => "9" ++ uint_digits d
  end%string.

(** [str(n)] of a Python [int]. *)
Definition str_nat (n : nat) : string := uint_digits (Nat.to_uint n).

(** [str(shape)] of a numpy shape tuple of two or more dimensions. *)
Definition str_shape (dims : list nat) : string :=
  ("(" ++ String.concat ", " (map str_nat dims) ++ ")")%string.

(** Python 2's [print a, b] with a string [a]: a space separates the two
    items, after the string's own trailing space if it has one. *)
Definition print2 (a b : string) : string := (a ++ " " ++ b)%string.

(** The ten lines [__init__] prints, from the videos and meshes it read. *)
Definition init_debug_info (oF wF : frames3) (om wm : PolyMesh) : list string :=
  [ "#####debug info: initial values#########";
    print2 "origFrame shape (NFrames x NVertices x 3):" (str_shape [length (frames oF); shape1 oF; 3]);
    print2 "warpedFrame shape (NFrames x NVertices x 3): " (str_shape [length (frames wF); shape1 wF; 3]);
    print2 "origMesh number of vertices:" (str_nat (length (VPos om)));
    print2 "warpedMesh number of vertices:" (str_nat (length (VPos wm)));
    print2 "origMesh number of faces:" (str_nat (length (ITris om)));
    print2 "warpedMesh number of faces:" (str_nat (length (ITris wm)));
    print2 "origMesh ITris shape:" (str_shape [length (ITris om); 3]);
    print2 "warpedMesh ITris shape:" (str_shape [length (ITris wm); 3]);
    "#####end: initial values#########" ]%string.

(** [__init__] with its standard output. *)
Definition DeformationTranferer_init_out (ov wv : VideoMesh) : result (DeformationTranferer * list string) :=
  let* dt := DeformationTranferer_init ov wv in
  Ok (dt, init_debug_info (Frames ov) (Frames wv) (m ov) (m wv)).

(** The [__main__] block, given the mesh [PolyMesh.loadFile('candide.off')]
    reads: the video is built, then [self.origVideo = ...] raises. *)
Definition main (candide : PolyMesh) : result unit :=
  let origVideo := VideoMesh_init "candide.off" candide in
  Err NameError.

(** ** Lemmas *)

(** The debug output is printed exactly when the constructor returns, and
    it reports the sizes the transferer stores: [NFrames], [NVertices] and
    [NFaces]. *)
Lemma init_out_reports ov wv dt out :
  DeformationTranferer_init_out ov wv = Ok (dt, out) ->
  DeformationTranferer_init ov wv = Ok dt /\ length out = 10 /\
  nth 1 out ""%string = print2 "origFrame shape (NFrames x NVertices x 3):" (str_shape [NFrames dt; NVertices dt; 3]) /\
  nth 5 out ""%string = print2 "origMesh number of faces:" (str_nat (NFaces dt)).
Proof.
  unfold DeformationTranferer_init_out. destruct (DeformationTranferer_init ov wv) as [dt'|] eqn:Hi;
    [|discriminate]. intros [= <- <-].
  unfold DeformationTranferer_init in Hi. inv_ok. subst. cbn. repeat split; reflexivity.
Qed.

Lemma init_out_Err ov wv : DeformationTranferer_init ov wv = Err AssertionError ->
  DeformationTranferer_init_out ov wv = Err AssertionError.
Proof. unfold DeformationTranferer_init_out. intros ->. reflexivity. Qed.

(** The script stops at its first assignment to [self]. *)
Lemma main_NameError candide : main candide = Err NameError.
Proof. reflexivity. Qed.
