(* ===== verification/Loaders.v ===== *)
(** * Loaders: [loadBaselKeypointMesh] and [loadBUTris]

    The two helpers at the top of [src/DeformationTransfer.py] read files:
    [loadBaselKeypointMesh] unpacks the triple that
    [loadOffFileExternal("BUMesh.off")] returns and keeps the positions and
    the triangles; [loadBUTris] reads [BaselTris.mat] with [sio.loadmat],
    a dictionary from variable names to arrays, and looks up ['ITris'],
    raising [KeyError] when the file has no such variable.  The contents of
    the files are arguments: the parsed triple, and the dictionary as a
    finite map [gmap string matval]. *)

From stdpp Require Import base gmap strings.
From Stdlib Require Import QArith.
From S2P Require Import Prelude Linalg Frame Transfer.

(** ** Definitions *)

(** The arrays of a [.mat] file this program reads: an [(F, 3)] triangle
    array or an [(NFrames, NVertices, 3)] frame array. *)
Inductive matval : Type :=
| MatTris (t : list tri3)
| MatFrames (f : frames3).

(** [sio.loadmat(filename)]: variable names to arrays. *)
Abbreviation matfile := (gmap string matval).

(** [loadBUTris]: [sio.loadmat("BaselTris.mat")['ITris']]. *)
Definition loadBUTris (contents : matfile) : result matval :=
  match contents !! "ITris"%string with
  | Some v => Ok v
  | None => Err KeyError
  end.

(** [loadBaselKeypointMesh]: [(VPos, VColors, ITris) = loadOffFileExternal(...)]
    then [return (VPos, ITris)]. *)
Definition loadBaselKeypointMesh (off : pose * list vec3 * list tri3) : pose * list tri3 :=
  let '(VPos, VColors, ITris) := off in (VPos, ITris).

(** ** Lemmas *)

(** The array stored under ['ITris'] is the one returned. *)
Lemma loadBUTris_insert (contents : matfile) v :
  loadBUTris (<["ITris"%string := v]> contents) = Ok v.
Proof. unfold loadBUTris. rewrite lookup_insert_eq. reflexivity. Qed.

(** Other variables of the file are not read. *)
Lemma loadBUTris_insert_other (contents : matfile) k v :
  k <> "ITris"%string -> loadBUTris (<[k := v]> contents) = loadBUTris contents.
Proof. intros Hk. unfold loadBUTris. rewrite lookup_insert_ne by congruence. reflexivity. Qed.

Lemma loadBUTris_KeyError (contents : matfile) :
  contents !! "ITris"%string = None -> loadBUTris contents = Err KeyError.
Proof. intros H. unfold loadBUTris. rewrite H. reflexivity. Qed.

Lemma loadBaselKeypointMesh_fields VPos VColors ITris :
  loadBaselKeypointMesh (VPos, VColors, ITris) = (VPos, ITris).
Proof. reflexivity. Qed.
