(* ===== verification/Run.v ===== *)
(** * Run: the frame loop of [beginDeformationTransfer] as a state machine

    [for i in range(1, self.NFrames)] is modelled in [Transfer] by the
    function [transfer_loop] over the list of indices.  This file gives the
    same loop as a transition relation [tstep] on configurations
    [(i, state)]: from counter [i < NFrames], read [origFrames[i]], run one
    [transfer_step], and move to [i + 1].  Its reflexive-transitive closure
    [tstar] is the set of runs.

    The theorems: the function and the relation agree ([transfer_loop]
    over [i, ..., i+n-1] returns [st'] exactly when [(i, st)] reaches
    [(i+n, st')]); a configuration has at most one successor (the run is
    deterministic: frame [i] is a function of the earlier frames); there is
    no infinite run ([NFrames - i] decreases); and the shape invariant of the
    output array (one frame of [NVertices] rows per solved index, the
    extended target pose of [NVertices4] rows) holds on every reachable
    configuration, by rule induction; a completed [beginDeformationTransfer]
    is a run; and inside the range a configuration whose source frame is
    non-degenerate and whose target triangles are invertible has a
    successor (progress). *)

From Stdlib Require Import Arith Lia List QArith Relations Wellfounded.
From S2P Require Import Prelude Linalg Sparse Frame Transfer.
Import ListNotations.
Open Scope nat_scope.

(** ** The transition relation *)

(** The loop counter and the state the loop carries. *)
Definition config : Type := (nat * tstate)%type.

Section Run.
Context `{SqrtOp}.
Variable lsqr : spmat -> list Q -> list Q.
Variable dt : DeformationTranferer.

(** One iteration of [for i in range(1, self.NFrames)]. *)
Inductive tstep : config -> config -> Prop :=
| tstep_frame i st f st' :
    i < NFrames dt ->
    get (frames (origFrames dt)) i = Ok f ->
    transfer_step lsqr dt st f = Ok st' ->
    tstep (i, st) (S i, st').

(** Runs of the loop: zero or more iterations. *)
Definition tstar : config -> config -> Prop := clos_refl_trans_1n config tstep.

(** The shape of the output array and of the loop state at counter [i]:
    [i] frames emitted, each of [NVertices] rows, and an extended target
    pose of [NVertices4] rows. *)
Definition run_inv (c : config) : Prop :=
  length (resultFrames (snd c)) = fst c /\
  Forall (fun f => length f = NVertices dt) (resultFrames (snd c)) /\
  length (warpedOldVPos4 (snd c)) = NVertices4 dt.

End Run.

(** ** Lemmas *)

Section Lemmas.
Context `{SqrtOp}.
Variable lsqr : spmat -> list Q -> list Q.
Variable dt : DeformationTranferer.

Lemma tstep_counter c c' : tstep lsqr dt c c' -> fst c' = S (fst c) /\ fst c < NFrames dt.
Proof. intros [i st f st' Hi _ _]. cbn. auto. Qed.

(** The function runs the relation. *)
Lemma transfer_loop_tstar i n st st' :
  i + n <= NFrames dt -> transfer_loop lsqr dt st (seq i n) = Ok st' ->
  tstar lsqr dt (i, st) (i + n, st').
Proof.
  revert i st. induction n as [|n IH]; intros i st Hn Hl.
  - injection Hl as <-. rewrite Nat.add_0_r. constructor.
  - cbn [seq] in Hl. rewrite transfer_loop_cons in Hl.
    destruct (get _ i) as [f|] eqn:Hf; [|discriminate]. cbn [rbind] in Hl.
    destruct (transfer_step lsqr dt st f) as [st1|] eqn:Hs; [|discriminate]. cbn [rbind] in Hl.
    replace (i + S n) with (S i + n) by lia.
    econstructor 2; [exact (tstep_frame lsqr dt i st f st1 ltac:(lia) Hf Hs)|].
    apply IH; [lia | exact Hl].
Qed.

(** The relation is run by the function, by induction on the run. *)
Lemma tstar_transfer_loop c c' :
  tstar lsqr dt c c' ->
  fst c <= fst c' /\ transfer_loop lsqr dt (snd c) (seq (fst c) (fst c' - fst c)) = Ok (snd c').
Proof.
  induction 1 as [c|c c1 c' Hs _ IH].
  - split; [lia|]. rewrite Nat.sub_diag. reflexivity.
  - destruct c' as [j st']. cbn in *.
    inversion Hs as [i st f st1 Hi Hf Hstep]; subst. cbn in IH |- *. destruct IH as [Hle Hl].
    split; [lia|]. replace (j - i) with (S (j - S i)) by lia. cbn [seq].
    rewrite transfer_loop_cons, Hf. cbn [rbind]. rewrite Hstep. exact Hl.
Qed.

Lemma tstep_inv c c' : tstep lsqr dt c c' -> run_inv dt c -> run_inv dt c'.
Proof.
  intros [i st f st' _ _ Hs] (Hn & HF & HW). cbn in *.
  destruct (transfer_step_shape lsqr dt st f st' Hs) as (Hw & fr & Hfr & Hlen).
  unfold run_inv. cbn. rewrite Hfr, length_app, Hn. cbn.
  split; [lia|]. split; [apply Forall_app; split; [exact HF | constructor; [exact Hlen | constructor]]|].
  rewrite Hw. exact HW.
Qed.

End Lemmas.

(** ** Properties *)

(** The function and the state machine agree.  Within the loop's range,
    [transfer_loop] over the counters [i, ..., i+n-1] returns [st'] exactly
    when the run from [(i, st)] reaches [(i+n, st')]. *)
Lemma transfer_loop_iff_tstar `{SqrtOp} lsqr dt i n st st' :
  i + n <= NFrames dt ->
  (transfer_loop lsqr dt st (seq i n) = Ok st' <-> tstar lsqr dt (i, st) (i + n, st')).
Proof.
  intros Hn. split; [apply transfer_loop_tstar; exact Hn|].
  intros (_ & Hl)%tstar_transfer_loop. cbn in Hl.
  replace (i + n - i) with n in Hl by lia. exact Hl.
Qed.

(** The loop is deterministic: a configuration has at most one
    successor, so each solved frame is a function of the earlier ones. *)
Lemma tstep_deterministic `{SqrtOp} lsqr dt c c1 c2 :
  tstep lsqr dt c c1 -> tstep lsqr dt c c2 -> c1 = c2.
Proof.
  intros [i st f st1 _ Hf Hs] H2. inversion H2 as [i' st' f' st2 _ Hf' Hs']; subst.
  rewrite Hf in Hf'. injection Hf' as <-. rewrite Hs in Hs'. injection Hs' as <-. reflexivity.
Qed.

(** The loop terminates: there is no infinite run, since every
    iteration increases the counter, which stays below [NFrames]. *)
Lemma tstep_terminates `{SqrtOp} lsqr dt : well_founded (fun c' c => tstep lsqr dt c c').
Proof.
  apply (wf_incl _ _ (ltof config (fun c => NFrames dt - fst c))).
  - intros c' c Hs. unfold ltof. destruct (tstep_counter _ _ _ _ Hs) as [E Hlt]. lia.
  - apply well_founded_ltof.
Qed.

(** The shape invariant holds on every reachable configuration: from a
    configuration with [i] well-shaped frames and an extended target pose
    of [NVertices4] rows, every run keeps one frame of [NVertices] rows per
    counter value and the pose's length. *)
Lemma tstar_run_inv `{SqrtOp} lsqr dt c c' :
  run_inv dt c -> tstar lsqr dt c c' -> run_inv dt c'.
Proof.
  intros Hc Hr. induction Hr as [c|c c1 c' Hs _ IH]; [exact Hc|].
  apply IH. exact (tstep_inv _ _ _ _ Hs Hc).
Qed.

(** Refinement.  A completed [beginDeformationTransfer] is a run of
    the state machine from counter [1], with frame 0 emitted, to counter
    [NFrames]; its output frames are those of the final configuration. *)
Lemma beginDeformationTransfer_run `{SqrtOp} lsqr dt out :
  beginDeformationTransfer lsqr dt = Ok out ->
  exists st0 st, length (resultFrames st0) = 1 /\ tstar lsqr dt (1, st0) (NFrames dt, st) /\
    frames out = resultFrames st.
Proof.
  intros Hb.
  destruct (beginDeformationTransfer_Ok _ _ _ Hb)
    as (wf0 & r0 & of0 & oo & wo & st & _ & HN & _ & _ & _ & _ & Hloop & ->).
  exists (MkState oo wo [r0]), st. split; [reflexivity|]. split; [|reflexivity].
  replace (NFrames dt) with (1 + (NFrames dt - 1)) by lia.
  apply transfer_loop_tstar; [lia | exact Hloop].
Qed.

(** C28: progress.  A configuration inside the loop's range always has a
    successor when the source video is an array of [NFrames] frames of
    [NVertices] rows, the previous source frame extended without error and
    has no degenerate triangle, every extended target triangle of the current
    pose has an invertible edge matrix, and [lsqr] returns one value per
    unknown: no iteration raises. *)
Theorem tstep_progress `{SqrtOp} lsqr dt i st P :
  dt_wf dt ->
  (forall A b, sp_cols A = NVertices4 dt -> length b = sp_rows A -> length (lsqr A b) = NVertices4 dt) ->
  i < NFrames dt -> Forall (fun f => length f = NVertices dt) (frames (origFrames dt)) ->
  length P = NVertices dt -> forallb (tri_ok P) (origTris dt) = true ->
  getVPos4 P (origTris dt) = Ok (origOldVPos4 st) ->
  length (warpedOldVPos4 st) = NVertices4 dt ->
  Forall (fun t => exists E, edges4 (warpedOldVPos4 st) t = Ok E /\ ~ (mdet E == 0)%Q) (warpedTris4 dt) ->
  exists st', tstep lsqr dt (i, st) (S i, st').
Proof.
  intros Hwf Hl Hi Hshape HP Hok HO HW HE.
  destruct (get_lt (frames (origFrames dt)) i) as [f Hf]; [destruct Hwf as (_ & _ & <- & _); exact Hi|].
  assert (Hlf : length f = NVertices dt)
    by (rewrite Forall_forall in Hshape; apply Hshape, (nth_error_In _ i), get_Ok, Hf).
  destruct (transfer_step_total lsqr dt st f P Hwf Hl HP Hlf Hok HO HW HE) as [st' Hs].
  exists st'. exact (tstep_frame lsqr dt i st f st' Hi Hf Hs).
Qed.

(** ** Witnesses *)

Lemma tstep_progress_witness :
  dt_wf ex_dt /\
  (forall A b, sp_cols A = NVertices4 ex_dt -> length b = sp_rows A -> length (ex_lsqr A b) = NVertices4 ex_dt) /\
  1 < NFrames ex_dt /\ Forall (fun f => length f = NVertices ex_dt) (frames (origFrames ex_dt)) /\
  length ex_pose = NVertices ex_dt /\ forallb (tri_ok ex_pose) (origTris ex_dt) = true /\
  getVPos4 ex_pose (origTris ex_dt) = Ok (origOldVPos4 ex_st) /\
  length (warpedOldVPos4 ex_st) = NVertices4 ex_dt /\
  Forall (fun t => exists E, edges4 (warpedOldVPos4 ex_st) t = Ok E /\ ~ (mdet E == 0)%Q) (warpedTris4 ex_dt) /\
  exists st', tstep ex_lsqr ex_dt (1, ex_st) (2, st').
Proof.
  assert (Hwf : dt_wf ex_dt) by (unfold dt_wf; repeat split; vm_compute; reflexivity).
  assert (Hl : forall A b, sp_cols A = NVertices4 ex_dt -> length b = sp_rows A -> length (ex_lsqr A b) = NVertices4 ex_dt)
    by (intros A b _ _; unfold ex_lsqr; rewrite length_map; vm_compute; reflexivity).
  assert (Hi : 1 < NFrames ex_dt) by (vm_compute; lia).
  assert (Hs : Forall (fun f => length f = NVertices ex_dt) (frames (origFrames ex_dt)))
    by (vm_compute; repeat constructor).
  assert (HP : length ex_pose = NVertices ex_dt) by (vm_compute; reflexivity).
  assert (Hok : forallb (tri_ok ex_pose) (origTris ex_dt) = true) by (vm_compute; reflexivity).
  assert (HO : getVPos4 ex_pose (origTris ex_dt) = Ok (origOldVPos4 ex_st)) by (vm_compute; reflexivity).
  assert (HW : length (warpedOldVPos4 ex_st) = NVertices4 ex_dt) by (vm_compute; reflexivity).
  assert (HE : Forall (fun t => exists E, edges4 (warpedOldVPos4 ex_st) t = Ok E /\ ~ (mdet E == 0)%Q)
                 (warpedTris4 ex_dt)).
  { apply Forall_forall. intros t Ht. vm_compute in Ht. destruct Ht as [<-|[<-|[]]];
      eexists; (split; [vm_compute; reflexivity | vm_compute; discriminate]). }
  do 9 (split; [assumption|]). exact (tstep_progress ex_lsqr ex_dt 1 ex_st ex_pose Hwf Hl Hi Hs HP Hok HO HW HE).
Defined.
