(* ===== verification/SelfTransfer.v ===== *)
(** * SelfTransfer: transferring an animation onto its own mesh

    The spec's end-to-end scenario transfers the animation of a mesh onto
    the same mesh in the same reference pose.  [self_transfer] states what
    [beginDeformationTransfer] then produces, for every solver that meets
    the [lsqr] contract ([Lsq.lsq_solver]): every output frame has, on every
    triangle, the same edge vectors as the source frame of the same index,
    so it is the source frame up to a translation of each connected piece
    (the translation the least-squares solution leaves free).

    The proof is an induction over the frame loop.  Its invariant
    ([edges_match]) is that the current extended target pose and the
    current extended source pose have equal edge matrices on every extended
    triangle.  The step lemma ([self_step]) shows the invariant is kept by
    [Transfer.transfer_step_meets_spec], with the new source pose as the pose
    that meets the step's specification.

    The witness is the spec's scenario: a two-triangle quad whose second
    triangle is bent by 90 degrees about the shared edge in frame 1 and
    flattened again in frame 2, solved by [Lsq.gs_lsqr].

    [self_transfer_completes] shows such a run never raises when every
    source frame is non-degenerate: by the same invariant the target's
    extended edge matrices are the source's, hence invertible, and every
    iteration has a successor ([Transfer.transfer_step_total]).

    [lsq_solver_step] and [emitted_same_edges] are shared with [Invariance]:
    the first reads the solver contract on the systems of a step, the second
    turns equal extended edge matrices into equal edge vectors of the
    emitted frame. *)

From Stdlib Require Import Arith QArith Qfield Lia List Setoid Morphisms.
From S2P Require Import Prelude Linalg Sparse Lsq Frame Affine Coeff Transfer.
Import ListNotations.
Open Scope nat_scope.

(** ** Definitions *)

(** The two edge vectors [v1 - v0] and [v2 - v0] of a triangle in a pose. *)
Definition edge_vecs (P : pose) (t : tri3) : result (vec3 * vec3) :=
  let* p0 := get P (ti0 t) in
  let* p1 := get P (ti1 t) in
  let* p2 := get P (ti2 t) in
  Ok (vsub p1 p0, vsub p2 p0).

(** Two poses with equal edge vectors on every triangle. *)
Definition same_edges (P P' : pose) (Tris : list tri3) : Prop :=
  forall j t, nth_error Tris j = Some t ->
  exists e e', edge_vecs P t = Ok e /\ edge_vecs P' t = Ok e' /\ veq (fst e) (fst e') /\ veq (snd e) (snd e').

(** Two extended poses with equal edge matrices on every extended triangle. *)
Definition edges_match (P Q : pose) (T4 : list tri4) : Prop :=
  forall i t, nth_error T4 i = Some t -> exists E E', edges4 P t = Ok E /\ edges4 Q t = Ok E' /\ meq E E'.

(** ** Lemmas *)

Lemma fourth_vertex_in_range `{SqrtOp} P t p : fourth_vertex P t = Ok p -> tri_in_range (length P) t = true.
Proof.
  unfold fourth_vertex. intros Hf. inv_ok. apply get_Ok in H0, H1, H2. apply tri_in_range_true.
  repeat split; apply nth_error_Some; congruence.
Qed.

(** A pose that extends without error has every triangle in range. *)
Lemma getVPos4_in_range `{SqrtOp} P Tris P4 :
  getVPos4 P Tris = Ok P4 -> Forall (fun t => tri_in_range (length P) t = true) Tris.
Proof.
  intros (V4 & HV & _)%getVPos4_Ok. apply mapM_Ok in HV.
  induction HV as [|t p Tris V4 Ht _ IH]; constructor; [exact (fourth_vertex_in_range _ _ _ Ht) | exact IH].
Qed.

Lemma meq_mcol k A B : meq A B -> veq (mcol k A) (mcol k B).
Proof. intros HAB. unfold mcol. split; [|split]; cbn; rewrite HAB; reflexivity. Qed.

(** The first two columns of an extended edge matrix are the edge vectors
    of the triangle in the real vertices. *)
Lemma edges4_edge_vecs P4 NV t d E : tri_in_range NV t = true ->
  edges4 P4 (T4 (ti0 t) (ti1 t) (ti2 t) d) = Ok E ->
  exists e, edge_vecs (firstn NV P4) t = Ok e /\ veq (fst e) (mcol 0 E) /\ veq (snd e) (mcol 1 E).
Proof.
  intros (H0 & H1 & H2)%tri_in_range_true HE. unfold edges4 in HE. cbn [tj0 tj1 tj2 tj3] in HE. inv_ok.
  subst. apply get_Ok in H, H3, H4.
  assert (Hg : forall i p, i < NV -> nth_error P4 i = Some p -> get (firstn NV P4) i = Ok p)
    by (intros i p Hi Hp; apply get_Ok; rewrite nth_error_firstn, (proj2 (Nat.ltb_lt i NV) Hi); exact Hp).
  unfold edge_vecs. rewrite (Hg _ _ H0 H), (Hg _ _ H1 H3), (Hg _ _ H2 H4). cbn [rbind].
  eexists. split; [reflexivity|]. split; repeat split; cbn; reflexivity.
Qed.

(** Equal extended edge matrices give equal edge vectors on the real
    triangle. *)
Lemma edges_match_same_edges P4 Q4 NV t d E E' : tri_in_range NV t = true ->
  edges4 P4 (T4 (ti0 t) (ti1 t) (ti2 t) d) = Ok E -> edges4 Q4 (T4 (ti0 t) (ti1 t) (ti2 t) d) = Ok E' ->
  meq E E' ->
  exists e e', edge_vecs (firstn NV P4) t = Ok e /\ edge_vecs (firstn NV Q4) t = Ok e' /\
    veq (fst e) (fst e') /\ veq (snd e) (snd e').
Proof.
  intros Hr HE HE' HEE.
  destruct (edges4_edge_vecs _ _ _ _ _ Hr HE) as (e & He & He1 & He2).
  destruct (edges4_edge_vecs _ _ _ _ _ Hr HE') as (e' & He' & He1' & He2').
  exists e, e'. split; [exact He|]. split; [exact He'|].
  split; [rewrite He1, He1'; apply meq_mcol; exact HEE | rewrite He2, He2'; apply meq_mcol; exact HEE].
Qed.

(** One iteration keeps the invariant: the source pose of the new frame
    meets the step's specification when the target and source edge
    matrices agree, so the solved target pose meets it too, and its edge
    matrices are the new source pose's. *)
Lemma self_step `{SqrtOp} lsqr dt st f st' :
  lsq_solver lsqr -> warpedTris4 dt = origTris4 dt ->
  length (warpedOldVPos4 st) = NVertices4 dt -> length (origOldVPos4 st') = NVertices4 dt ->
  transfer_step lsqr dt st f = Ok st' ->
  edges_match (warpedOldVPos4 st) (origOldVPos4 st) (origTris4 dt) ->
  edges_match (warpedOldVPos4 st') (origOldVPos4 st') (origTris4 dt).
Proof.
  intros Hsol HT HlW HlY Hs Hm.
  destruct (transfer_step_Ok _ _ _ _ _ Hs) as (sn & S_ & A & W0 & W1 & fr & _ & HS & _ & _ & _ & _ & _ & Hsn & _).
  rewrite <- Hsn in HS.
  assert (HG : gradient_match (origTris4 dt) (warpedTris4 dt) (origOldVPos4 st) (origOldVPos4 st')
                 (warpedOldVPos4 st) (warpedOldVPos4 st')).
  { apply (transfer_step_meets_spec lsqr dt st f st' Hs HlW).
    - intros A' S' HA' HS' a _. apply Hsol. rewrite (getSMatrix_srow_length _ _ _ _ _ a HS').
      destruct (getAMatrix_shape _ _ _ _ _ HA') as [-> _]. rewrite HT. reflexivity.
    - exists (origOldVPos4 st'). split; [exact HlY|]. rewrite HT.
      apply Forall2_nth_intro; [reflexivity|]. intros i ts tt Hts Htt. rewrite Hts in Htt. injection Htt as <-.
      destruct (getSMatrix_block _ _ _ _ _ _ _ HS Hts) as (Bs & V & W & tV & B & _ & _ & _ & HV & HW & HtV & _).
      destruct (Hm i ts Hts) as (Vt & V' & HVt & HV' & HVV). rewrite HV in HV'. injection HV' as <-.
      destruct (inv3_Proper V Vt W) as (Wt & HWt & HWW); [symmetry; exact HVV | exact HW |].
      exists V, W, tV, Vt, Wt, tV. do 6 (split; [assumption|]). rewrite <- HWW. reflexivity. }
  intros i t Ht. rewrite <- HT in Ht.
  destruct (Forall2_nth_r _ _ _ _ _ HG Ht) as (ts & Hts & Vs & Ws & Vn & Vt & Wt & Et & E1 & E2 & E3 & E4 & E5 & E6 & Hm2).
  rewrite HT in Ht. rewrite Ht in Hts. injection Hts as ->.
  destruct (Hm i ts Ht) as (Vt' & Vs' & F1 & F2 & HVV). rewrite E4 in F1. injection F1 as <-.
  rewrite E1 in F2. injection F2 as <-.
  exists Et, Vn. split; [exact E6|]. split; [exact E3|].
  rewrite <- (mmul_id_r Et), <- (inv3_l _ _ E5), mmul_assoc, Hm2, HVV, <- mmul_assoc, (inv3_l _ _ E2).
  apply mmul_id_r.
Qed.

Lemma edge_vecs_total P t : tri_in_range (length P) t = true -> exists e, edge_vecs P t = Ok e.
Proof.
  intros (H0 & H1 & H2)%tri_in_range_true. unfold edge_vecs.
  destruct (get_lt P _ H0) as [p0 ->], (get_lt P _ H1) as [p1 ->], (get_lt P _ H2) as [p2 ->].
  eexists. reflexivity.
Qed.

(** A pose whose triangles are in range has its own edges. *)
Lemma same_edges_refl P Tris :
  Forall (fun t => tri_in_range (length P) t = true) Tris -> same_edges P P Tris.
Proof.
  intros Hr j t Ht. rewrite Forall_forall in Hr. destruct (edge_vecs_total P t) as [e He].
  - apply Hr. exact (nth_error_In _ _ Ht).
  - exists e, e. split; [exact He|]. split; [exact He | split; reflexivity].
Qed.

Lemma skipn_nth_cons {A : Type} (l : list A) s x : nth_error l s = Some x -> skipn s l = x :: skipn (S s) l.
Proof.
  revert l. induction s as [|s IH]; intros [|a l] H; try discriminate; cbn in *.
  - injection H as ->. reflexivity.
  - apply IH. exact H.
Qed.

(** Frames indexed by [s, ..., s+n-1] are the suffix of the frames from
    [s] on. *)
Lemma Forall2_seq_skipn {A B : Type} (R : A -> B -> Prop) (l : list B) frs s n :
  s + n = length l ->
  Forall2 (fun fo i => exists fs, nth_error l i = Some fs /\ R fo fs) frs (seq s n) ->
  Forall2 R frs (skipn s l).
Proof.
  revert s frs. induction n as [|n IH]; intros s frs Hl HF.
  - inversion HF. subst. rewrite skipn_all2 by lia. constructor.
  - cbn [seq] in HF. inversion HF as [|fo i frs' idx (fs & Hfs & HR) Hrest]. subst.
    rewrite (skipn_nth_cons _ _ _ Hfs). constructor; [exact HR|]. apply IH; [lia | exact Hrest].
Qed.

(** A solver meeting the [lsqr] contract meets it on the three systems of
    every step of a well-formed transferer. *)
Lemma lsq_solver_step `{SqrtOp} lsqr dt st st' : lsq_solver lsqr -> dt_wf dt ->
  forall A S_, getAMatrix (NFaces dt) (NVertices4 dt) (warpedOldVPos4 st) (warpedTris4 dt) = Ok A ->
    getSMatrix (NFaces dt) (origOldVPos4 st) (origOldVPos4 st') (origTris4 dt) = Ok S_ ->
    forall a, a < 3 -> is_lsq A (srow a S_) (lsqr A (srow a S_)).
Proof.
  intros Hsol (_ & _ & _ & HF & HFw & _ & HT4 & HTw4 & _) A S_ HA HS a _. apply Hsol.
  rewrite (getSMatrix_srow_length _ _ _ _ _ a HS). destruct (getAMatrix_shape _ _ _ _ _ HA) as [-> _].
  rewrite HT4, HTw4, !length_tris4. lia.
Qed.

(** The frame a step emits ([P[np.arange(NVertices), :]]) has the edge
    vectors of a pose [P] whose extension has the same edge matrices as the
    extended pose the step solved. *)
Lemma emitted_same_edges `{SqrtOp} W P Tris P4 :
  getVPos4 P Tris = Ok P4 -> edges_match W P4 (tris4 (length P) Tris) ->
  same_edges (firstn (length P) W) P Tris.
Proof.
  intros HP Hm j t Ht. pose proof (getVPos4_in_range _ _ _ HP) as Hr. rewrite Forall_forall in Hr.
  specialize (Hr t (nth_error_In _ _ Ht)).
  destruct (Hm j _ (nth_tris4 (length P) _ j t Ht)) as (E & E' & HE & HE' & HEE).
  destruct (edges_match_same_edges _ _ _ _ _ _ _ Hr HE HE' HEE) as (e & e' & He & He' & Hv).
  exists e, e'. split; [exact He|]. split; [|exact Hv].
  apply getVPos4_Ok in HP as (V4 & _ & ->).
  rewrite firstn_app, Nat.sub_diag, firstn_O, app_nil_r, firstn_all in He'. exact He'.
Qed.

(** The frame loop keeps the invariant, and every frame it emits has the
    edge vectors of the source frame of its index. *)
Lemma self_loop `{SqrtOp} lsqr dt idxs st st' :
  lsq_solver lsqr -> dt_wf dt -> warpedTris dt = origTris dt ->
  Forall (fun f => length f = NVertices dt) (frames (origFrames dt)) ->
  transfer_loop lsqr dt st idxs = Ok st' ->
  length (warpedOldVPos4 st) = NVertices4 dt ->
  edges_match (warpedOldVPos4 st) (origOldVPos4 st) (origTris4 dt) ->
  exists frs, resultFrames st' = resultFrames st ++ frs /\
    Forall2 (fun fo i => exists fs, nth_error (frames (origFrames dt)) i = Some fs /\
                                    same_edges fo fs (origTris dt)) frs idxs.
Proof.
  intros Hsol Hwf HT Hshape Hl HlW Hm. pose proof Hwf as (_ & _ & _ & HF & _ & HN4 & HT4 & HTw4 & _).
  assert (HT' : warpedTris4 dt = origTris4 dt) by (rewrite HTw4, HT4, HT; reflexivity).
  refine (proj2 (transfer_loop_inv lsqr dt
    (fun st => length (warpedOldVPos4 st) = NVertices4 dt /\
               edges_match (warpedOldVPos4 st) (origOldVPos4 st) (origTris4 dt)) _ idxs st st' _
    (conj HlW Hm) Hl)).
  intros st0 i f st1 [HlW0 Hm0] Hf Hs.
  assert (Hlf : length f = NVertices dt)
    by (rewrite Forall_forall in Hshape; apply Hshape, (nth_error_In _ i), Hf).
  destruct (transfer_step_Ok _ _ _ _ _ Hs)
    as (sn & S_ & A & W0 & W1 & fr & Hsn & _ & _ & _ & _ & _ & Hfr & Hso & Hres).
  assert (HlY : length (origOldVPos4 st1) = NVertices4 dt)
    by (rewrite Hso, (getVPos4_length _ _ _ Hsn), Hlf, HF, HN4; reflexivity).
  pose proof (self_step lsqr dt st0 f st1 Hsol HT' HlW0 HlY Hs Hm0) as Hm1.
  split; [split; [destruct (transfer_step_shape _ _ _ _ _ Hs) as [E _]; rewrite E; exact HlW0 | exact Hm1]|].
  exists fr. split; [exact Hres|]. exists f. split; [exact Hf|].
  apply take_rows_Ok in Hfr as [_ ->]. rewrite <- Hlf. apply (emitted_same_edges _ _ _ sn Hsn).
  rewrite Hlf, <- HT4, <- Hso. exact Hm1.
Qed.

(** An extended pose has its own edge matrices. *)
Lemma edges_match_refl `{SqrtOp} P Tris P4 :
  getVPos4 P Tris = Ok P4 -> edges_match P4 P4 (tris4 (length P) Tris).
Proof.
  intros HP i t Ht. destruct (extended_edges_exist _ _ _ HP (getVPos4_in_range _ _ _ HP)) as [Es HEs].
  apply mapM_Ok in HEs. destruct (Forall2_nth_l _ _ _ _ _ HEs Ht) as (E & _ & HE).
  exists E, E. split; [exact HE|]. split; [exact HE | reflexivity].
Qed.

(** A target pose whose edge matrices are those of a non-degenerate source
    pose has invertible edge matrices. *)
Lemma edges_match_nonsingular `{SqrtOp} W P Tris P4 :
  getVPos4 P Tris = Ok P4 -> forallb (tri_ok P) Tris = true ->
  edges_match W P4 (tris4 (length P) Tris) ->
  Forall (fun t => exists E, edges4 W t = Ok E /\ ~ (mdet E == 0)%Q) (tris4 (length P) Tris).
Proof.
  intros HP Hok Hm. destruct (extended_edges_exist _ _ _ HP (tris_ok_in_range _ _ Hok)) as [Es HEs].
  pose proof (extended_edges_nonsingular _ _ _ _ HP Hok HEs) as HnS. rewrite Forall_forall in HnS.
  apply mapM_Ok in HEs. apply Forall_forall. intros t Ht. apply In_nth_error in Ht as [i Hi].
  destruct (Hm i t Hi) as (E & E' & HE & HE' & HEE).
  destruct (Forall2_nth_l _ _ _ _ _ HEs Hi) as (E'' & Hi' & HE''). rewrite HE' in HE''. injection HE'' as <-.
  exists E. split; [exact HE|]. rewrite HEE. exact (HnS E' (nth_error_In _ _ Hi')).
Qed.

(** The frame loop of a self-transfer over non-degenerate source frames
    runs to completion. *)
Lemma self_loop_total `{SqrtOp} lsqr dt idxs st P :
  lsq_solver lsqr -> dt_wf dt -> warpedTris dt = origTris dt ->
  Forall (fun f => length f = NVertices dt /\ forallb (tri_ok f) (origTris dt) = true) (frames (origFrames dt)) ->
  Forall (fun i => i < NFrames dt) idxs ->
  length P = NVertices dt -> forallb (tri_ok P) (origTris dt) = true ->
  getVPos4 P (origTris dt) = Ok (origOldVPos4 st) ->
  length (warpedOldVPos4 st) = NVertices4 dt ->
  edges_match (warpedOldVPos4 st) (origOldVPos4 st) (origTris4 dt) ->
  exists st', transfer_loop lsqr dt st idxs = Ok st'.
Proof.
  intros Hsol Hwf HT Hfr. pose proof Hwf as (_ & _ & HNF & HF & _ & HN4 & HT4 & HTw4 & _).
  assert (HT' : warpedTris4 dt = origTris4 dt) by (rewrite HTw4, HT4, HT; reflexivity).
  assert (Hl : forall A b, sp_cols A = NVertices4 dt -> length b = sp_rows A -> length (lsqr A b) = NVertices4 dt)
    by (intros A b Hc Hb; destruct (Hsol A b Hb) as [Hx _]; lia).
  rewrite Forall_forall in Hfr. revert st P.
  induction idxs as [|i idxs IH]; intros st P Hidx HlP HokP HO HlW Hm; [exists st; reflexivity|].
  inversion Hidx as [|? ? Hi Hidx']. subst.
  destruct (get_lt (frames (origFrames dt)) i) as [f Hf]; [rewrite <- HNF; exact Hi|].
  destruct (Hfr f (nth_error_In _ _ (proj1 (get_Ok _ _ _) Hf))) as [Hlf Hokf].
  assert (HE : Forall (fun t => exists E, edges4 (warpedOldVPos4 st) t = Ok E /\ ~ (mdet E == 0)%Q)
                 (warpedTris4 dt)).
  { rewrite HT', HT4, <- HlP. apply (edges_match_nonsingular _ _ _ _ HO HokP). rewrite HlP, <- HT4. exact Hm. }
  destruct (transfer_step_total lsqr dt st f P Hwf Hl HlP Hlf HokP HO HlW HE) as [st1 Hs].
  destruct (transfer_step_Ok _ _ _ _ _ Hs) as (sn & _ & _ & _ & _ & _ & Hsn & _ & _ & _ & _ & _ & _ & Hso & _).
  assert (HlY : length (origOldVPos4 st1) = NVertices4 dt)
    by (rewrite Hso, (getVPos4_length _ _ _ Hsn), Hlf, HF, HN4; reflexivity).
  assert (HlW1 : length (warpedOldVPos4 st1) = NVertices4 dt)
    by (destruct (transfer_step_shape _ _ _ _ _ Hs) as [E _]; rewrite E; exact HlW).
  rewrite <- Hso in Hsn.
  destruct (IH st1 f Hidx' Hlf Hokf Hsn HlW1 (self_step lsqr dt st f st1 Hsol HT' HlW HlY Hs Hm)) as [st' Hl'].
  exists st'. rewrite transfer_loop_cons, Hf. cbn [rbind]. rewrite Hs. exact Hl'.
Qed.

(** ** Properties *)

(** C2: self-transfer.  When the target mesh has the source's triangles
    and the source's frame 0 as its reference pose, every completed
    [beginDeformationTransfer] with a solver meeting the [lsqr] contract
    emits, for each source frame, a frame with the same edge vectors on
    every triangle: the source animation up to a translation. *)
Theorem self_transfer `{SqrtOp} lsqr dt out :
  lsq_solver lsqr -> dt_wf dt -> warpedTris dt = origTris dt ->
  nth_error (frames (warpedFrames dt)) 0 = nth_error (frames (origFrames dt)) 0 ->
  Forall (fun f => length f = NVertices dt) (frames (origFrames dt)) ->
  beginDeformationTransfer lsqr dt = Ok out ->
  Forall2 (fun fo fs => same_edges fo fs (origTris dt)) (frames out) (frames (origFrames dt)).
Proof.
  intros Hsol Hwf HT H0 Hshape Hb. pose proof Hwf as (_ & _ & HNF & HF & _ & HN4 & HT4 & _ & _).
  destruct (beginDeformationTransfer_Ok _ _ _ Hb)
    as (wf0 & r0 & of0 & oo & wo & st & Hw & HN & Hr0 & Ho & Hoo & Hwo & Hloop & ->).
  rewrite H0, Ho in Hw. injection Hw as <-. rewrite HT, Hoo in Hwo. injection Hwo as <-.
  assert (Hl0 : length of0 = NVertices dt)
    by (rewrite Forall_forall in Hshape; apply Hshape, (nth_error_In _ 0), Ho).
  unfold assign_frame in Hr0. rewrite Hl0, Nat.eqb_refl in Hr0. injection Hr0 as <-.
  pose proof (getVPos4_in_range _ _ _ Hoo) as Hr.
  assert (Hm0 : edges_match oo oo (origTris4 dt)) by (rewrite HT4, <- Hl0; exact (edges_match_refl _ _ _ Hoo)).
  assert (HlW : length oo = NVertices4 dt) by (rewrite (getVPos4_length _ _ _ Hoo), Hl0, HF, HN4; reflexivity).
  destruct (self_loop lsqr dt _ _ _ Hsol Hwf HT Hshape Hloop HlW Hm0) as (frs & Hfrs & HF2).
  cbn [frames resultFrames] in *. rewrite Hfrs.
  destruct (frames (origFrames dt)) as [|f0 rest] eqn:Efr; [discriminate Ho|]. cbn in Ho. injection Ho as ->.
  constructor; [exact (same_edges_refl _ _ Hr)|].
  apply (Forall2_seq_skipn _ (of0 :: rest) frs 1 (NFrames dt - 1)); [cbn in HNF |- *; lia | exact HF2].
Qed.

(** C3: a self-transfer runs to completion.  When the target mesh has the
    source's triangles and the source's frame 0 as reference pose, the
    source video has a frame and every source frame has [NVertices] rows
    and no degenerate triangle, [beginDeformationTransfer] raises nothing
    with any solver meeting the [lsqr] contract: the target's extended
    triangles stay invertible on every iteration. *)
Theorem self_transfer_completes `{SqrtOp} lsqr dt :
  lsq_solver lsqr -> dt_wf dt -> warpedTris dt = origTris dt ->
  nth_error (frames (warpedFrames dt)) 0 = nth_error (frames (origFrames dt)) 0 -> 1 <= NFrames dt ->
  Forall (fun f => length f = NVertices dt /\ forallb (tri_ok f) (origTris dt) = true) (frames (origFrames dt)) ->
  exists out, beginDeformationTransfer lsqr dt = Ok out.
Proof.
  intros Hsol Hwf HT H0 HN Hfr. pose proof Hwf as (_ & _ & HNF & HF & _ & HN4 & HT4 & _ & _).
  destruct (get_lt (frames (origFrames dt)) 0) as [of0 Ho]; [rewrite <- HNF; exact HN|].
  assert (Hw : get (frames (warpedFrames dt)) 0 = Ok of0) by (unfold get in *; rewrite H0; exact Ho).
  pose proof Hfr as Hfr'. rewrite Forall_forall in Hfr'.
  destruct (Hfr' of0 (nth_error_In _ _ (proj1 (get_Ok _ _ _) Ho))) as [Hl0 Hok0].
  destruct (get4thVertex_total _ _ (tris_ok_in_range _ _ Hok0)) as [V4 HV4].
  assert (HO : getVPos4 of0 (origTris dt) = Ok (of0 ++ V4)) by (apply getVPos4_Ok; eauto).
  assert (HlW : length (of0 ++ V4) = NVertices4 dt)
    by (rewrite (getVPos4_length _ _ _ HO), Hl0, HF, HN4; reflexivity).
  destruct (self_loop_total lsqr dt (seq 1 (NFrames dt - 1)) (MkState (of0 ++ V4) (of0 ++ V4) [of0]) of0
              Hsol Hwf HT Hfr) as [st Hloop]; cbn [origOldVPos4 warpedOldVPos4];
    [apply Forall_forall; intros i Hi%in_seq; lia | exact Hl0 | exact Hok0 | exact HO | exact HlW
    | rewrite HT4, <- Hl0; exact (edges_match_refl _ _ _ HO) |].
  eexists. unfold beginDeformationTransfer, check. rewrite Hw. cbn [rbind].
  rewrite (proj2 (Nat.leb_le _ _) HN). cbn [rbind]. unfold assign_frame. rewrite Hl0, Nat.eqb_refl.
  cbn [rbind]. rewrite Ho. cbn [rbind]. rewrite HO. cbn [rbind]. rewrite HT, HO. cbn [rbind].
  rewrite Hloop. reflexivity.
Qed.

(** ** Witnesses: the end-to-end scenario of the spec *)

(** A quad of two triangles sharing the edge from vertex 0 to vertex 2
    (the y axis); in frame 1 vertex 3 is rotated by 90 degrees about that
    edge, out of the plane. *)
Definition quad0 : pose := [V3 0 (-1) 0; V3 1 0 0; V3 0 1 0; V3 (-1) 0 0].
Definition quad_bent : pose := [V3 0 (-1) 0; V3 1 0 0; V3 0 1 0; V3 0 0 1].
Definition quad_tris : list tri3 := [T3 0 1 2; T3 0 2 3].
Definition quad_mesh : PolyMesh := MkMesh quad0 quad_tris.
Definition quad_ov : VideoMesh := MkVideo (MkFrames 4 [quad0; quad_bent; quad0]) quad_mesh.
Definition quad_wv : VideoMesh := MkVideo (MkFrames 4 [quad0]) quad_mesh.
Definition quad_dt : DeformationTranferer :=
  ok_or (MkDT quad_ov quad_wv (MkFrames 0 []) (MkFrames 0 []) 0 0 0 0 0 [] [] [] [])
        (DeformationTranferer_init quad_ov quad_wv).
Definition quad_out : frames3 := ok_or (MkFrames 0 []) (beginDeformationTransfer gs_lsqr quad_dt).

Lemma self_transfer_witness :
  lsq_solver gs_lsqr /\ dt_wf quad_dt /\ warpedTris quad_dt = origTris quad_dt /\
  nth_error (frames (warpedFrames quad_dt)) 0 = nth_error (frames (origFrames quad_dt)) 0 /\
  Forall (fun f => length f = NVertices quad_dt) (frames (origFrames quad_dt)) /\
  beginDeformationTransfer gs_lsqr quad_dt = Ok quad_out /\
  Forall2 (fun fo fs => same_edges fo fs (origTris quad_dt)) (frames quad_out) (frames (origFrames quad_dt)).
Proof.
  assert (Hwf : dt_wf quad_dt) by (unfold dt_wf; repeat split; vm_compute; reflexivity).
  assert (HT : warpedTris quad_dt = origTris quad_dt) by (vm_compute; reflexivity).
  assert (H0 : nth_error (frames (warpedFrames quad_dt)) 0 = nth_error (frames (origFrames quad_dt)) 0)
    by (vm_compute; reflexivity).
  assert (Hs : Forall (fun f => length f = NVertices quad_dt) (frames (origFrames quad_dt)))
    by (vm_compute; repeat constructor).
  assert (Hb : beginDeformationTransfer gs_lsqr quad_dt = Ok quad_out) by (vm_compute; reflexivity).
  split; [exact gs_lsqr_lsq_solver|]. do 5 (split; [assumption|]).
  exact (self_transfer gs_lsqr quad_dt quad_out gs_lsqr_lsq_solver Hwf HT H0 Hs Hb).
Defined.

Lemma self_transfer_completes_witness :
  lsq_solver gs_lsqr /\ dt_wf quad_dt /\ warpedTris quad_dt = origTris quad_dt /\
  nth_error (frames (warpedFrames quad_dt)) 0 = nth_error (frames (origFrames quad_dt)) 0 /\
  1 <= NFrames quad_dt /\
  Forall (fun f => length f = NVertices quad_dt /\ forallb (tri_ok f) (origTris quad_dt) = true)
         (frames (origFrames quad_dt)) /\
  exists out, beginDeformationTransfer gs_lsqr quad_dt = Ok out.
Proof.
  assert (Hwf : dt_wf quad_dt) by (unfold dt_wf; repeat split; vm_compute; reflexivity).
  assert (HT : warpedTris quad_dt = origTris quad_dt) by (vm_compute; reflexivity).
  assert (H0 : nth_error (frames (warpedFrames quad_dt)) 0 = nth_error (frames (origFrames quad_dt)) 0)
    by (vm_compute; reflexivity).
  assert (HN : 1 <= NFrames quad_dt) by (vm_compute; lia).
  assert (Hs : Forall (fun f => length f = NVertices quad_dt /\ forallb (tri_ok f) (origTris quad_dt) = true)
                 (frames (origFrames quad_dt))).
  { assert (Hb : forallb (fun f => (length f =? NVertices quad_dt) && forallb (tri_ok f) (origTris quad_dt))
                   (frames (origFrames quad_dt)) = true) by (vm_compute; reflexivity).
    rewrite forallb_forall in Hb. apply Forall_forall. intros f Hf.
    destruct (andb_prop _ _ (Hb f Hf)) as [H1 H2]. split; [apply Nat.eqb_eq; exact H1 | exact H2]. }
  split; [exact gs_lsqr_lsq_solver|]. do 5 (split; [assumption|]).
  exact (self_transfer_completes gs_lsqr quad_dt gs_lsqr_lsq_solver Hwf HT H0 HN Hs).
Defined.
