(* ===== verification/Invariance.v ===== *)
(** * Invariance: source motion the transfer does not see

    [beginDeformationTransfer] reads the source frames only through [S],
    the affine maps between consecutive extended source poses, and [S]
    depends on edge differences only.  This file states two consequences
    for the whole run.

    [static_source_rest]: when the source does not move (every source frame
    equals frame 0), every frame the run emits has the edge vectors of the
    target's reference pose, for every solver that meets the [lsqr]
    contract: the target stays at rest up to a translation.  The proof is an
    induction over the frame loop ([Transfer.transfer_loop_inv]) with the
    invariant that the extended target pose keeps the edge matrices of the
    extended reference pose ([Transfer.transfer_step_keeps_edges]).

    [transfer_source_translation]: translating each source frame by its own
    vector leaves the result of [beginDeformationTransfer] unchanged,
    exceptions included, for every solver that depends only on the values
    of its right-hand side ([Lsq.lsq_ext]).  The proof runs the two
    transfers side by side: the relation [tstate_rel] between their loop
    states (equal target poses and frames, shifted source poses) is kept by
    every step ([transfer_step_rel]), because [getSMatrix] of shifted poses
    raises the same exception or gives equal rows ([Affine.getSMatrix_rel]).
    A source that moves by translations is transferred as a source at rest:
    the spec's rigid-motion equivariance does not hold for translations. *)

From Stdlib Require Import Arith QArith Lia List Setoid Morphisms.
From S2P Require Import Prelude Linalg Sparse Lsq Frame Affine Coeff Transfer SelfTransfer.
Import ListNotations.
Open Scope nat_scope.

(** ** Definitions *)

(** Frame [k] moved by the [k]-th vector; frames past the vectors stay. *)
Fixpoint translate_each (vs : list vec3) (fs : list pose) : list pose :=
  match vs, fs with
  | v :: vs', f :: fs' => translate v f :: translate_each vs' fs'
  | _, _ => fs
  end.

(** The same transferer with other source frames. *)
Definition with_origFrames (dt : DeformationTranferer) (F : frames3) : DeformationTranferer :=
  MkDT (origVideo dt) (warpedVideo dt) F (warpedFrames dt) (NFrames dt) (NFaces dt) (count dt)
       (NVertices dt) (NVertices4 dt) (origTris dt) (warpedTris dt) (origTris4 dt) (warpedTris4 dt).

(** Two loop states of runs whose sources differ by translations: the same
    target pose and frames, and source poses that differ by a shift. *)
Definition tstate_rel (st st' : tstate) : Prop :=
  warpedOldVPos4 st = warpedOldVPos4 st' /\ resultFrames st = resultFrames st' /\
  exists c, shifted c (origOldVPos4 st) (origOldVPos4 st').

(** ** A source at rest *)

(** A step whose new source frame extends to the current source pose keeps
    the target's edge matrices equal to those of [W0]. *)
Lemma static_step `{SqrtOp} lsqr dt st f st1 P4 W0 :
  lsq_solver lsqr -> dt_wf dt -> getVPos4 f (origTris dt) = Ok P4 -> origOldVPos4 st = P4 ->
  length (warpedOldVPos4 st) = NVertices4 dt -> edges_match (warpedOldVPos4 st) W0 (warpedTris4 dt) ->
  transfer_step lsqr dt st f = Ok st1 ->
  origOldVPos4 st1 = P4 /\ length (warpedOldVPos4 st1) = NVertices4 dt /\
  edges_match (warpedOldVPos4 st1) W0 (warpedTris4 dt).
Proof.
  intros Hsol Hwf HP HO HlW Hm Hs.
  destruct (transfer_step_Ok _ _ _ _ _ Hs) as (sn & _ & _ & _ & _ & _ & Hsn & _ & _ & _ & _ & _ & _ & Hso & _).
  assert (Hso1 : origOldVPos4 st1 = P4) by congruence.
  split; [exact Hso1|]. split; [destruct (transfer_step_shape _ _ _ _ _ Hs) as [E _]; rewrite E; exact HlW|].
  intros i t Ht.
  destruct (transfer_step_keeps_edges lsqr dt st f st1 Hs ltac:(congruence) HlW
              (lsq_solver_step lsqr dt st st1 Hsol Hwf) i t Ht) as (E & E' & HE & HE' & HEE).
  destruct (Hm i t Ht) as (E0 & E1 & HE0 & HE1 & H01). rewrite HE in HE0. injection HE0 as <-.
  exists E', E1. split; [exact HE'|]. split; [exact HE1|]. rewrite HEE. exact H01.
Qed.

(** C4: a source at rest leaves the target at rest.  When every source
    frame equals frame 0 and the target's reference pose has [NVertices]
    rows, every frame a completed [beginDeformationTransfer] emits has, on
    every target triangle, the edge vectors of the reference pose, for
    every solver that meets the [lsqr] contract: the output is the
    reference pose up to a translation of each connected piece. *)
Theorem static_source_rest `{SqrtOp} lsqr dt out wf0 :
  lsq_solver lsqr -> dt_wf dt ->
  Forall (fun f => nth_error (frames (origFrames dt)) 0 = Some f) (frames (origFrames dt)) ->
  nth_error (frames (warpedFrames dt)) 0 = Some wf0 -> length wf0 = NVertices dt ->
  beginDeformationTransfer lsqr dt = Ok out ->
  Forall (fun fo => same_edges fo wf0 (warpedTris dt)) (frames out).
Proof.
  intros Hsol Hwf Hst Hw0 Hl0 Hb. pose proof Hwf as (_ & _ & _ & _ & HFw & HN4 & _ & HTw4 & _).
  destruct (beginDeformationTransfer_Ok _ _ _ Hb)
    as (wf0' & r0 & of0 & oo & wo & st & Hw & _ & Hr0 & Ho & Hoo & Hwo & Hloop & ->).
  rewrite Hw0 in Hw. injection Hw as <-.
  unfold assign_frame in Hr0. rewrite Hl0, Nat.eqb_refl in Hr0. injection Hr0 as <-.
  assert (HlW : length wo = NVertices4 dt)
    by (rewrite (getVPos4_length _ _ _ Hwo), Hl0, HFw, HN4; reflexivity).
  assert (Hm0 : edges_match wo wo (warpedTris4 dt)) by (rewrite HTw4, <- Hl0; exact (edges_match_refl _ _ _ Hwo)).
  destruct (transfer_loop_inv lsqr dt
              (fun st => origOldVPos4 st = oo /\ length (warpedOldVPos4 st) = NVertices4 dt /\
                         edges_match (warpedOldVPos4 st) wo (warpedTris4 dt))
              (fun fo _ => same_edges fo wf0 (warpedTris dt)) (seq 1 (NFrames dt - 1)) (MkState oo wo [wf0]) st)
    as [_ (frs & Hfrs & HF)]; [| exact (conj eq_refl (conj HlW Hm0)) | exact Hloop |].
  - intros st0 i f st1 (HO & HlW0 & Hm) Hf Hs.
    assert (Ef : f = of0)
      by (rewrite Forall_forall in Hst; pose proof (Hst f (nth_error_In _ _ Hf)); congruence).
    subst f.
    destruct (static_step lsqr dt st0 of0 st1 oo wo Hsol Hwf Hoo HO HlW0 Hm Hs) as (HO1 & HlW1 & Hm1).
    split; [auto|].
    destruct (transfer_step_Ok _ _ _ _ _ Hs) as (_ & _ & _ & _ & _ & fr & _ & _ & _ & _ & _ & _ & Hfr & _ & Hres).
    exists fr. split; [exact Hres|]. apply take_rows_Ok in Hfr as [_ ->]. rewrite <- Hl0.
    apply (emitted_same_edges _ _ _ wo Hwo). rewrite Hl0, <- HTw4. exact Hm1.
  - cbn [frames resultFrames] in *. rewrite Hfrs. constructor.
    + exact (same_edges_refl _ _ (getVPos4_in_range _ _ _ Hwo)).
    + clear - HF. induction HF; constructor; assumption.
Qed.

(** ** A translated source *)

Lemma shifted_zero P : shifted vzero P P.
Proof. induction P as [|p P IH]; constructor; [vec_ring | exact IH]. Qed.

Lemma translate_each_shifted vs fs :
  Forall2 (fun f f' => exists d, shifted d f f') fs (translate_each vs fs).
Proof.
  assert (Hrefl : forall fs, Forall2 (fun f f' => exists d, shifted d f f') fs fs)
    by (induction fs0; constructor; [exists vzero; apply shifted_zero | assumption]).
  revert fs. induction vs as [|v vs IH]; intros [|f fs]; cbn; try apply Hrefl.
  constructor; [exists v; apply shifted_translate | apply IH].
Qed.

(** One step of the two runs: the same exception, or related states.  [S]
    has equal rows on both sides, so a solver that reads values returns
    the same solutions. *)
Lemma transfer_step_rel `{SqrtOp} lsqr dt st st' f f' d :
  lsq_ext lsqr -> tstate_rel st st' -> shifted d f f' ->
  res_rel tstate_rel (transfer_step lsqr dt st f) (transfer_step lsqr dt st' f').
Proof.
  intros Hext (HW & HR & c & Hc) Hf. unfold transfer_step. rewrite <- HW, <- HR.
  apply (res_rel_bind (shifted d)); [exact (getVPos4_rel _ _ _ _ Hf)|]. intros sn sn' Hsn.
  apply (res_rel_bind smat_rel); [exact (getSMatrix_rel _ _ _ _ _ _ _ _ Hc Hsn)|]. intros S S' HS.
  apply res_rel_bind_same. intros A.
  rewrite (Hext A _ _ (HS 0)), (Hext A _ _ (HS 1)), (Hext A _ _ (HS 2)).
  do 4 (apply res_rel_bind_same; intros ?). cbn.
  split; [reflexivity|]. split; [reflexivity|]. exists d. exact Hsn.
Qed.

Lemma transfer_loop_rel `{SqrtOp} lsqr dt F idxs st st' :
  lsq_ext lsqr -> Forall2 (fun f f' => exists d, shifted d f f') (frames (origFrames dt)) (frames F) ->
  tstate_rel st st' ->
  res_rel tstate_rel (transfer_loop lsqr dt st idxs) (transfer_loop lsqr (with_origFrames dt F) st' idxs).
Proof.
  intros Hext HF. revert st st'. induction idxs as [|i idxs IH]; intros st st' Hst; [exact Hst|].
  rewrite !transfer_loop_cons.
  apply (res_rel_bind (fun f f' => exists d, shifted d f f')); [apply get_rel; exact HF|].
  intros f f' [d Hd].
  apply (res_rel_bind tstate_rel); [exact (transfer_step_rel lsqr dt st st' f f' d Hext Hst Hd)|].
  intros st1 st1' H1. exact (IH _ _ H1).
Qed.

(** The whole transfer on source frames that are, frame by frame, shifts
    of those of [dt]. *)
Lemma beginDeformationTransfer_rel `{SqrtOp} lsqr dt F :
  lsq_ext lsqr -> Forall2 (fun f f' => exists d, shifted d f f') (frames (origFrames dt)) (frames F) ->
  beginDeformationTransfer lsqr (with_origFrames dt F) = beginDeformationTransfer lsqr dt.
Proof.
  intros Hext HF. symmetry. apply res_rel_eq. unfold beginDeformationTransfer.
  apply res_rel_bind_same; intros wf0. apply res_rel_bind_same; intros _.
  apply res_rel_bind_same; intros r0.
  apply (res_rel_bind (fun f f' => exists d, shifted d f f')); [apply get_rel; exact HF|].
  intros of0 of0' [d Hd].
  apply (res_rel_bind (shifted d)); [exact (getVPos4_rel _ _ _ _ Hd)|]. intros oo oo' Hoo.
  apply res_rel_bind_same; intros wo.
  apply (res_rel_bind tstate_rel).
  - apply transfer_loop_rel; [exact Hext | exact HF |].
    split; [reflexivity|]. split; [reflexivity|]. exists d. exact Hoo.
  - intros st st' (_ & HR & _). cbn. rewrite HR. reflexivity.
Qed.

(** C5: translations of the source are not transferred.  Moving every
    source frame by a vector of its own (frame [k] by [vs[k]]) leaves the
    result of [beginDeformationTransfer] unchanged, the exception it raises
    included, for every solver that depends only on the values of its
    right-hand side: a source animation that translates is transferred as
    one that does not. *)
Theorem transfer_source_translation `{SqrtOp} lsqr dt vs :
  lsq_ext lsqr ->
  beginDeformationTransfer lsqr
    (with_origFrames dt (MkFrames (shape1 (origFrames dt)) (translate_each vs (frames (origFrames dt)))))
  = beginDeformationTransfer lsqr dt.
Proof. intros Hext. apply beginDeformationTransfer_rel; [exact Hext | apply translate_each_shifted]. Qed.

(** ** Witnesses *)

(** A source at rest (three copies of [ex_pose]) and the quad as target:
    the two meshes have different triangles. *)
Definition rest_ov : VideoMesh := MkVideo (MkFrames 4 [ex_pose; ex_pose; ex_pose]) ex_mesh.
Definition rest_dt : DeformationTranferer :=
  ok_or (MkDT rest_ov quad_wv (MkFrames 0 []) (MkFrames 0 []) 0 0 0 0 0 [] [] [] [])
        (DeformationTranferer_init rest_ov quad_wv).
Definition rest_out : frames3 := ok_or (MkFrames 0 []) (beginDeformationTransfer gs_lsqr rest_dt).

Lemma static_source_rest_witness :
  lsq_solver gs_lsqr /\ dt_wf rest_dt /\
  Forall (fun f => nth_error (frames (origFrames rest_dt)) 0 = Some f) (frames (origFrames rest_dt)) /\
  nth_error (frames (warpedFrames rest_dt)) 0 = Some quad0 /\ length quad0 = NVertices rest_dt /\
  beginDeformationTransfer gs_lsqr rest_dt = Ok rest_out /\
  Forall (fun fo => same_edges fo quad0 (warpedTris rest_dt)) (frames rest_out).
Proof.
  assert (Hwf : dt_wf rest_dt) by (unfold dt_wf; repeat split; vm_compute; reflexivity).
  assert (Hst : Forall (fun f => nth_error (frames (origFrames rest_dt)) 0 = Some f) (frames (origFrames rest_dt))).
  { assert (Hfr : frames (origFrames rest_dt) = [ex_pose; ex_pose; ex_pose]) by (vm_compute; reflexivity).
    rewrite Hfr. repeat constructor. }
  assert (Hw : nth_error (frames (warpedFrames rest_dt)) 0 = Some quad0) by (vm_compute; reflexivity).
  assert (Hl : length quad0 = NVertices rest_dt) by (vm_compute; reflexivity).
  assert (Hb : beginDeformationTransfer gs_lsqr rest_dt = Ok rest_out) by (vm_compute; reflexivity).
  split; [exact gs_lsqr_lsq_solver|]. do 5 (split; [assumption|]).
  exact (static_source_rest gs_lsqr rest_dt rest_out quad0 gs_lsqr_lsq_solver Hwf Hst Hw Hl Hb).
Defined.

Lemma transfer_source_translation_witness :
  lsq_ext gs_lsqr /\
  beginDeformationTransfer gs_lsqr
    (with_origFrames quad_dt (MkFrames (shape1 (origFrames quad_dt))
       (translate_each [V3 0 0 0; V3 1 2 3; V3 (-5) 0 (1 # 2)] (frames (origFrames quad_dt)))))
  = beginDeformationTransfer gs_lsqr quad_dt.
Proof.
  split; [exact gs_lsqr_ext|].
  exact (transfer_source_translation gs_lsqr quad_dt [V3 0 0 0; V3 1 2 3; V3 (-5) 0 (1 # 2)] gs_lsqr_ext).
Defined.
