(* ===== verification/Laplacian.v ===== *)
(** * Laplacian: the cotangent Laplacian and the anchor solver

    [getLaplacianMatrixCotangent(mesh, anchorsIdx, anchorWeights)] builds
    the cotangent weight matrix [W] of a mesh (for every triangle and every
    one of its three vertex pairs, the cotangent of the angle at the third
    vertex, written at [(i, j)] and at [(j, i)]), turns it into
    [L = diag(row sums of W) - W], and appends one row per anchor that
    selects the anchored vertex with weight [anchorWeights].
    [solveLaplacianMesh(mesh, anchors, anchorsIdx)] solves [L x = delta] in
    the least-squares sense for the three axes, where [delta] is [L VPos]
    with its anchor rows replaced by the anchors' target positions, and
    writes the solutions into [mesh.VPos].

    The triplet list of [L] is the concatenation of its diagonal, the
    negated weights and the anchor rows: [.tocsr()] / [.tocoo()] change the
    storage order and merge duplicates but not the matrix, and everything
    downstream ([L.dot], [lsqr]) reads only the matrix.  The incident areas
    [IA], [VA], [VC] of the code are computed and never read, so they are
    left out.  [mesh.saveFile] is I/O and is not modelled. *)

From Stdlib Require Import Arith QArith Qfield Lqa Lia List Setoid Morphisms.
From S2P Require Import Prelude Linalg Sparse Frame Transfer.
Import ListNotations.
Open Scope nat_scope.

(** ** Definitions *)

(** Column [k] of an [N x 3] array of triangle indices, [ITris[:, k]]. *)
Definition tri_idx (k : nat) (t : tri3) : nat :=
  match k with 0 => ti0 t | 1 => ti1 t | _ => ti2 t end.

(** Column [k] of an [N x 3] array of positions, [P[:, k]]. *)
Definition col (k : nat) (P : pose) : list Q := map (vcoord k) P.

(** The transpose of a stored entry: [(j, i, v)] for [(i, j, v)]. *)
Definition trip_swap (t : triplet) : triplet := (trip_col t, trip_row t, trip_val t).

(** The negated entry, for [- L]. *)
Definition neg_trip (t : triplet) : triplet := (trip_row t, trip_col t, - trip_val t)%Q.

Section WithSqrt.
Context `{SqrtOp}.

(** One triangle's entry for one value of [shift]:
    [[i, j, k] = [shift, (shift+1)%3, (shift+2)%3]], the edges
    [dV1 = VPos[i] - VPos[k]], [dV2 = VPos[j] - VPos[k]], and
    [cotAlpha = sum(dV1*dV2) / sqrt(sum(cross(dV1, dV2)**2))].  The fancy
    index [VPos[ITris[:, i], :]] raises [IndexError] on an index past the
    vertices. *)
Definition cot_entry (VPos : pose) (shift : nat) (t : tri3) : result triplet :=
  let i := tri_idx shift t in
  let j := tri_idx ((shift + 1) mod 3) t in
  let k := tri_idx ((shift + 2) mod 3) t in
  let* pi := get VPos i in
  let* pk := get VPos k in
  let* pj := get VPos j in
  let dV1 := vsub pi pk in
  let dV2 := vsub pj pk in
  let Normal := cross dV1 dV2 in
  let NMag := qsqrt (sumsq Normal) in
  Ok (i, j, dot dV1 dV2 / NMag)%Q.

(** The block [shift*M*2 : shift*M*2 + 2*M] of [I], [J], [V]: the entries
    [(i, j, cot)] of all triangles, then their transposes [(j, i, cot)]. *)
Definition cot_shift (VPos : pose) (ITris : list tri3) (shift : nat) : result (list triplet) :=
  let* cs := mapM (cot_entry VPos shift) ITris in
  Ok (cs ++ map trip_swap cs).

(** [for shift in range(3)]: the [6 M] weights. *)
Definition cot_weights (VPos : pose) (ITris : list tri3) : result (list triplet) :=
  let* s0 := cot_shift VPos ITris 0 in
  let* s1 := cot_shift VPos ITris 1 in
  let* s2 := cot_shift VPos ITris 2 in
  Ok (s0 ++ s1 ++ s2).

(** [sparse.dia_matrix((L.sum(1).flatten(), 0), L.shape) - L] for the
    [N x N] matrix [W]. *)
Definition dia_minus (N : nat) (W : list triplet) : list triplet :=
  map (fun r => (r, r, row_sum W r)) (seq 0 N) ++ map neg_trip W.

(** [range(N, N+len(anchorsIdx))], [anchorsIdx] and
    [[anchorWeights]*len(anchorsIdx)] zipped: one row per anchor. *)
Definition anchor_trips (N : nat) (anchorsIdx : list nat) (w : Q) : list triplet :=
  combine (combine (seq N (length anchorsIdx)) anchorsIdx) (repeat w (length anchorsIdx)).

Definition getLaplacianMatrixCotangent (mesh : PolyMesh) (anchorsIdx : list nat)
    (anchorWeights : Q) : result spmat :=
  let P := VPos mesh in
  let N := length P in
  let* W := cot_weights P (ITris mesh) in
  let* L := coo_matrix W N N in
  let L := dia_minus N (sp_trip L) in
  coo_matrix (L ++ anchor_trips N anchorsIdx anchorWeights) (N + length anchorsIdx) N.

End WithSqrt.

(** [L.dot(P)] for an [N x 3] array [P]. *)
Definition spmm (A : spmat) (P : pose) : pose :=
  map (fun r => V3 (row_dot (sp_trip A) r (col 0 P)) (row_dot (sp_trip A) r (col 1 P))
                   (row_dot (sp_trip A) r (col 2 P)))
      (seq 0 (sp_rows A)).

(** [D[N:, :] = X]: numpy takes [X] of the slice's length, broadcasts a
    single row, and raises [ValueError] otherwise. *)
Definition set_rows_from (N : nat) (X D : pose) : result pose :=
  let K := length D - N in
  if length X =? K then Ok (firstn N D ++ X)
  else if length X =? 1 then Ok (firstn N D ++ repeat (hd vzero X) K)
  else Err ValueError.

Section Solve.
Context `{SqrtOp}.
Variable lsqr : spmat -> list Q -> list Q.

(** [solveLaplacianMesh]: the mesh is updated in place; the model returns
    it.  [delta] is computed before the loop, so the three solves read the
    original positions. *)
Definition solveLaplacianMesh (mesh : PolyMesh) (anchors : pose) (anchorsIdx : list nat)
    : result PolyMesh :=
  let N := length (VPos mesh) in
  let* L := getLaplacianMatrixCotangent mesh anchorsIdx 1 in
  let* delta := set_rows_from N anchors (spmm L (VPos mesh)) in
  let* P0 := set_col 0 (lsqr L (col 0 delta)) (VPos mesh) in
  let* P1 := set_col 1 (lsqr L (col 1 delta)) P0 in
  let* P2 := set_col 2 (lsqr L (col 2 delta)) P1 in
  Ok (MkMesh P2 (ITris mesh)).

End Solve.

(** ** Indices and bounds *)

Lemma tri_idx_lt N t k : tri_in_range N t = true -> tri_idx k t < N.
Proof. intros (H0 & H1 & H2)%tri_in_range_true. destruct k as [|[|k]]; assumption. Qed.

Lemma get_Err {A : Type} (l : list A) i e : get l i = Err e -> e = IndexError.
Proof. unfold get. destruct (nth_error l i); congruence. Qed.

Lemma get_Ok_lt {A : Type} (l : list A) i x : get l i = Ok x -> i < length l.
Proof. intros Hx%get_Ok. apply nth_error_Some. congruence. Qed.

Lemma cot_entry_Ok `{SqrtOp} P s t e :
  cot_entry P s t = Ok e ->
  trip_row e = tri_idx s t /\ trip_col e = tri_idx ((s + 1) mod 3) t /\
  tri_idx s t < length P /\ tri_idx ((s + 1) mod 3) t < length P.
Proof.
  unfold cot_entry. cbv zeta.
  destruct (get P (tri_idx s t)) eqn:Ei; [|intros ?; discriminate]. cbn [rbind].
  destruct (get P (tri_idx ((s + 2) mod 3) t)) eqn:Ek; [|intros ?; discriminate]. cbn [rbind].
  destruct (get P (tri_idx ((s + 1) mod 3) t)) eqn:Ej; [|intros ?; discriminate]. cbn [rbind].
  intros [= <-]. apply get_Ok_lt in Ei, Ej. auto.
Qed.

Lemma cot_entry_total `{SqrtOp} P s t :
  tri_in_range (length P) t = true -> exists e, cot_entry P s t = Ok e.
Proof.
  intros Ht. unfold cot_entry.
  destruct (get_lt P (tri_idx s t)) as [pi ->]; [exact (tri_idx_lt _ _ _ Ht)|].
  destruct (get_lt P (tri_idx ((s + 2) mod 3) t)) as [pk ->]; [exact (tri_idx_lt _ _ _ Ht)|].
  destruct (get_lt P (tri_idx ((s + 1) mod 3) t)) as [pj ->]; [exact (tri_idx_lt _ _ _ Ht)|].
  eexists. reflexivity.
Qed.

(** For [shift = 0] the three gathers read the three corners of the
    triangle, so an index out of range raises [IndexError]. *)
Lemma cot_entry_0_Err `{SqrtOp} P t :
  tri_in_range (length P) t = false -> cot_entry P 0 t = Err IndexError.
Proof.
  intros Ht. unfold cot_entry. cbv zeta.
  change (tri_idx ((0 + 2) mod 3) t) with (ti2 t). change (tri_idx ((0 + 1) mod 3) t) with (ti1 t).
  change (tri_idx 0 t) with (ti0 t).
  destruct (get P (ti0 t)) eqn:E0; [|apply get_Err in E0; subst; reflexivity].
  cbn [rbind]. destruct (get P (ti2 t)) eqn:E2; [|apply get_Err in E2; subst; reflexivity].
  cbn [rbind]. destruct (get P (ti1 t)) eqn:E1; [|apply get_Err in E1; subst; reflexivity].
  apply get_Ok_lt in E0, E1, E2.
  assert (tri_in_range (length P) t = true) by (apply tri_in_range_true; auto). congruence.
Qed.

Definition in_square (N : nat) (t : triplet) : Prop := trip_row t < N /\ trip_col t < N.

Lemma Forall_in_square_swap N cs :
  Forall (in_square N) cs -> Forall (in_square N) (map trip_swap cs).
Proof.
  intros Hcs. apply Forall_map. eapply Forall_impl; [|exact Hcs].
  intros t [H1 H2]. split; assumption.
Qed.

Lemma cot_shift_Ok `{SqrtOp} P T s W :
  cot_shift P T s = Ok W ->
  exists cs, W = cs ++ map trip_swap cs /\ Forall (in_square (length P)) cs.
Proof.
  unfold cot_shift. intros HW. inv_ok. subst. exists x. split; [reflexivity|].
  apply mapM_Ok in H0. induction H0 as [|t e T cs He _ IH]; constructor; [|exact IH].
  unfold in_square. destruct (cot_entry_Ok _ _ _ _ He) as (-> & -> & ? & ?). split; assumption.
Qed.

(** The weights are three blocks, each a list of entries followed by their
    transposes, all inside the [N x N] square. *)
Lemma cot_weights_Ok `{SqrtOp} P T W :
  cot_weights P T = Ok W ->
  exists c0 c1 c2, W = (c0 ++ map trip_swap c0) ++ (c1 ++ map trip_swap c1) ++
                       (c2 ++ map trip_swap c2) /\
    Forall (in_square (length P)) c0 /\ Forall (in_square (length P)) c1 /\
    Forall (in_square (length P)) c2.
Proof.
  unfold cot_weights.
  destruct (cot_shift P T 0) as [s0|] eqn:E0; [|discriminate]. cbn [rbind].
  destruct (cot_shift P T 1) as [s1|] eqn:E1; [|discriminate]. cbn [rbind].
  destruct (cot_shift P T 2) as [s2|] eqn:E2; [|discriminate]. cbn [rbind]. intros [= <-].
  destruct (cot_shift_Ok _ _ _ _ E0) as (c0 & -> & H0').
  destruct (cot_shift_Ok _ _ _ _ E1) as (c1 & -> & H1').
  destruct (cot_shift_Ok _ _ _ _ E2) as (c2 & -> & H2').
  exists c0, c1, c2. repeat split; assumption.
Qed.

Lemma cot_weights_square `{SqrtOp} P T W :
  cot_weights P T = Ok W -> Forall (in_square (length P)) W.
Proof.
  intros (c0 & c1 & c2 & -> & H0 & H1 & H2)%cot_weights_Ok.
  pose proof (Forall_in_square_swap _ _ H0). pose proof (Forall_in_square_swap _ _ H1).
  pose proof (Forall_in_square_swap _ _ H2). rewrite !Forall_app. tauto.
Qed.

Lemma cot_shift_total `{SqrtOp} P T s :
  Forall (fun t => tri_in_range (length P) t = true) T -> exists W, cot_shift P T s = Ok W.
Proof.
  intros HT. unfold cot_shift.
  destruct (mapM_total (cot_entry P s) T) as [cs ->].
  - intros t Ht. apply cot_entry_total. rewrite Forall_forall in HT. auto.
  - eexists. reflexivity.
Qed.

Lemma cot_weights_total `{SqrtOp} P T :
  Forall (fun t => tri_in_range (length P) t = true) T -> exists W, cot_weights P T = Ok W.
Proof.
  intros HT. unfold cot_weights.
  destruct (cot_shift_total P T 0 HT) as [s0 ->]. destruct (cot_shift_total P T 1 HT) as [s1 ->].
  destruct (cot_shift_total P T 2 HT) as [s2 ->]. eexists. reflexivity.
Qed.

Lemma cot_weights_Err `{SqrtOp} P T :
  ~ Forall (fun t => tri_in_range (length P) t = true) T -> cot_weights P T = Err IndexError.
Proof.
  intros HT. unfold cot_weights, cot_shift.
  rewrite (mapM_Err (cot_entry P 0) T IndexError); [reflexivity| |].
  - intros t e He. destruct (tri_in_range (length P) t) eqn:Ht.
    + destruct (cot_entry_total P 0 t Ht) as [e' He']. congruence.
    + rewrite (cot_entry_0_Err _ _ Ht) in He. congruence.
  - destruct (not_Forall_true _ _ HT) as (t & Ht & Hf). exists t. split; [exact Ht|].
    intros y. rewrite (cot_entry_0_Err _ _ Hf). discriminate.
Qed.

(** ** The assembled operator *)

Lemma length_anchor_trips N idx w : length (anchor_trips N idx w) = length idx.
Proof. unfold anchor_trips, triplet. rewrite !length_combine, length_seq, repeat_length. lia. Qed.

Lemma anchor_trips_cons N a idx w :
  anchor_trips N (a :: idx) w = (N, a, w) :: anchor_trips (S N) idx w.
Proof. reflexivity. Qed.

(** Anchor [k] is row [N + k]: it selects column [anchorsIdx[k]]. *)
Lemma anchor_trips_rows N idx w :
  Forall (fun t => N <= trip_row t /\ trip_row t < N + length idx) (anchor_trips N idx w).
Proof.
  revert N. induction idx as [|a idx IH]; intros N; [constructor|].
  rewrite anchor_trips_cons. constructor; [cbn; lia|].
  eapply Forall_impl; [|exact (IH (S N))]. cbn. lia.
Qed.

Lemma anchor_trips_col N idx w : map trip_col (anchor_trips N idx w) = idx.
Proof.
  revert N. induction idx as [|a idx IH]; intros N; [reflexivity|].
  rewrite anchor_trips_cons. cbn [map]. rewrite IH. reflexivity.
Qed.

Lemma anchor_trips_cols N idx w (Pr : nat -> Prop) :
  Forall (fun t => Pr (trip_col t)) (anchor_trips N idx w) <-> Forall Pr idx.
Proof. rewrite <- (anchor_trips_col N idx w) at 2. rewrite Forall_map. reflexivity. Qed.

Lemma dia_minus_square N W :
  Forall (in_square N) W -> Forall (in_square N) (dia_minus N W).
Proof.
  intros HW. apply Forall_app. split.
  - apply Forall_map, Forall_forall. intros r Hr%in_seq. unfold in_square; cbn. lia.
  - apply Forall_map. eapply Forall_impl; [|exact HW]. intros t [H1 H2]. split; assumption.
Qed.

(** What a successful construction returns: the diagonal and negated
    weights of the [N] first rows, then one row per anchor. *)
Lemma getLaplacian_Ok `{SqrtOp} mesh idx w L :
  getLaplacianMatrixCotangent mesh idx w = Ok L ->
  exists W, cot_weights (VPos mesh) (ITris mesh) = Ok W /\
    Forall (in_square (length (VPos mesh))) W /\ Forall (fun a => a < length (VPos mesh)) idx /\
    L = SpMat (length (VPos mesh) + length idx) (length (VPos mesh))
              (dia_minus (length (VPos mesh)) W ++ anchor_trips (length (VPos mesh)) idx w).
Proof.
  unfold getLaplacianMatrixCotangent.
  destruct (cot_weights _ _) as [W|] eqn:EW; [|discriminate]. cbn [rbind].
  pose proof (cot_weights_square _ _ _ EW) as HW.
  rewrite (proj2 (coo_matrix_Ok W _ _ _) (conj eq_refl HW)). cbn [rbind sp_trip].
  intros [-> HL]%coo_matrix_Ok. exists W.
  split; [reflexivity|]. split; [exact HW|]. split; [|reflexivity].
  apply Forall_app in HL as [_ HA].
  apply (anchor_trips_cols (length (VPos mesh)) idx w (fun c => c < length (VPos mesh))).
  eapply Forall_impl; [|exact HA]. intros t [_ Ht]. exact Ht.
Qed.

Lemma getLaplacian_shape `{SqrtOp} mesh idx w L :
  getLaplacianMatrixCotangent mesh idx w = Ok L ->
  sp_rows L = length (VPos mesh) + length idx /\ sp_cols L = length (VPos mesh).
Proof. intros (W & _ & _ & _ & ->)%getLaplacian_Ok. split; reflexivity. Qed.

(** An index of a triangle past the vertices raises [IndexError] in the
    first gather, before any matrix is built. *)
Lemma getLaplacian_bad_tri `{SqrtOp} mesh idx w :
  ~ Forall (fun t => tri_in_range (length (VPos mesh)) t = true) (ITris mesh) ->
  getLaplacianMatrixCotangent mesh idx w = Err IndexError.
Proof. intros HT. unfold getLaplacianMatrixCotangent. rewrite (cot_weights_Err _ _ HT). reflexivity. Qed.

Lemma getLaplacian_weights `{SqrtOp} mesh idx w W :
  cot_weights (VPos mesh) (ITris mesh) = Ok W ->
  getLaplacianMatrixCotangent mesh idx w =
  coo_matrix (dia_minus (length (VPos mesh)) W ++ anchor_trips (length (VPos mesh)) idx w)
             (length (VPos mesh) + length idx) (length (VPos mesh)).
Proof.
  intros EW. unfold getLaplacianMatrixCotangent. rewrite EW. cbn [rbind].
  rewrite (proj2 (coo_matrix_Ok W _ _ _) (conj eq_refl (cot_weights_square _ _ _ EW))).
  reflexivity.
Qed.

(** ** Rows of the operator *)

Lemma row_dot_diag (f : nat -> Q) s n r x :
  s <= r < s + n -> (row_dot (map (fun r => (r, r, f r)) (seq s n)) r x == f r * nth r x 0)%Q.
Proof.
  revert s. induction n as [|n IH]; intros s Hr; [lia|]. cbn [seq map].
  destruct (Nat.eq_dec s r) as [<-|Hne].
  - rewrite row_dot_cons_eq by reflexivity. cbn [trip_val trip_col fst snd].
    rewrite row_dot_none; [ring|]. apply Forall_map, Forall_forall.
    intros r' Hr'%in_seq. cbn. lia.
  - rewrite row_dot_cons_ne by (cbn; exact Hne). apply IH. lia.
Qed.

Lemma row_dot_neg T r x : (row_dot (map neg_trip T) r x == - row_dot T r x)%Q.
Proof.
  induction T as [|t T IH]; cbn [map]; [reflexivity|].
  assert (Er : trip_row (neg_trip t) = trip_row t) by reflexivity.
  destruct (Nat.eq_dec (trip_row t) r) as [E|E].
  - rewrite !row_dot_cons_eq by congruence. rewrite IH.
    unfold neg_trip, trip_val, trip_col. cbn. ring.
  - rewrite !row_dot_cons_ne by congruence. exact IH.
Qed.

(** The rows of [diag(W.sum(1)) - W]. *)
Lemma row_dot_dia_minus N W r x :
  r < N -> (row_dot (dia_minus N W) r x == row_sum W r * nth r x 0 - row_dot W r x)%Q.
Proof.
  intros Hr. unfold dia_minus. rewrite row_dot_app, row_dot_neg.
  rewrite (row_dot_diag (row_sum W) 0 N r x) by lia. ring.
Qed.

Lemma dia_minus_rows N W :
  Forall (in_square N) W -> Forall (fun t => trip_row t < N) (dia_minus N W).
Proof.
  intros HW. eapply Forall_impl; [|exact (dia_minus_square N W HW)]. intros t [H1 _]. exact H1.
Qed.

Lemma row_sum_cons_eq t T r : trip_row t = r -> row_sum (t :: T) r = (trip_val t + row_sum T r)%Q.
Proof. intros <-. simpl. rewrite Nat.eqb_refl. reflexivity. Qed.

Lemma row_sum_cons_ne t T r : trip_row t <> r -> row_sum (t :: T) r = row_sum T r.
Proof. intros H. simpl. apply Nat.eqb_neq in H. rewrite H. reflexivity. Qed.

Lemma row_dot_repeat T r c N :
  Forall (fun t => trip_col t < N) T -> (row_dot T r (repeat c N) == c * row_sum T r)%Q.
Proof.
  induction 1 as [|t T Ht _ IH]; [cbn; ring|].
  destruct (Nat.eq_dec (trip_row t) r) as [E|E].
  - rewrite row_dot_cons_eq, row_sum_cons_eq by exact E. rewrite IH, nth_repeat_lt by exact Ht. ring.
  - rewrite row_dot_cons_ne, row_sum_cons_ne by exact E. exact IH.
Qed.

(** Row [s + a] of the anchor block selects anchor [a] with weight [w]. *)
Lemma row_dot_anchor s idx w a x :
  a < length idx -> (row_dot (anchor_trips s idx w) (s + a) x == w * nth (nth a idx 0%nat) x 0)%Q.
Proof.
  revert s a. induction idx as [|i idx IH]; intros s a Ha; cbn [length] in Ha; [lia|].
  rewrite anchor_trips_cons. destruct a as [|a].
  - rewrite row_dot_cons_eq by (cbn; lia). cbn [trip_val trip_col fst snd nth].
    rewrite row_dot_none; [ring|].
    eapply Forall_impl; [|exact (anchor_trips_rows (S s) idx w)]. cbn. lia.
  - rewrite row_dot_cons_ne by (cbn; lia). replace (s + S a) with (S s + a) by lia.
    apply IH. lia.
Qed.

Lemma row_dot_lower T r x :
  Forall (fun t => trip_row t < r) T -> (row_dot T r x == 0)%Q.
Proof. intros HT. apply row_dot_none. eapply Forall_impl; [|exact HT]. intros t Ht. cbv beta in *. lia. Qed.

Lemma row_dot_upper N T r x :
  Forall (fun t => N <= trip_row t) T -> r < N -> (row_dot T r x == 0)%Q.
Proof. intros HT Hr. apply row_dot_none. eapply Forall_impl; [|exact HT]. intros t Ht. cbv beta in *. lia. Qed.

(** Row [r < N] of the operator: the Laplacian row of vertex [r]. *)
Lemma getLaplacian_row `{SqrtOp} mesh idx w L r x W :
  getLaplacianMatrixCotangent mesh idx w = Ok L ->
  cot_weights (VPos mesh) (ITris mesh) = Ok W -> r < length (VPos mesh) ->
  (row_dot (sp_trip L) r x == row_sum W r * nth r x 0 - row_dot W r x)%Q.
Proof.
  intros HL EW Hr. destruct (getLaplacian_Ok _ _ _ _ HL) as (W' & EW' & _ & _ & ->).
  rewrite EW in EW'. injection EW' as <-. cbn [sp_trip].
  rewrite row_dot_app, row_dot_dia_minus by exact Hr.
  assert (HA : (row_dot (anchor_trips (length (VPos mesh)) idx w) r x == 0)%Q).
  { apply (row_dot_upper (length (VPos mesh))); [|exact Hr].
    eapply Forall_impl; [|apply anchor_trips_rows]. intros t [Ht _]. exact Ht. }
  rewrite HA. ring.
Qed.

(** ** Entries and symmetry *)

Definition trip_sym (T : list triplet) : Prop := forall i j, (trip_entry T i j == trip_entry T j i)%Q.

Lemma trip_entry_swap T i j : (trip_entry (map trip_swap T) i j == trip_entry T j i)%Q.
Proof.
  induction T as [|t T IH]; [reflexivity|]. cbn [map]. rewrite !trip_entry_cons, IH.
  unfold trip_swap, trip_row, trip_col, trip_val; cbn. rewrite andb_comm. reflexivity.
Qed.

Lemma trip_entry_neg T i j : (trip_entry (map neg_trip T) i j == - trip_entry T i j)%Q.
Proof.
  induction T as [|t T IH]; [reflexivity|]. cbn [map]. rewrite !trip_entry_cons, IH.
  unfold neg_trip, trip_row, trip_col, trip_val; cbn. destruct (_ && _); ring.
Qed.

Lemma trip_sym_app T1 T2 : trip_sym T1 -> trip_sym T2 -> trip_sym (T1 ++ T2).
Proof. intros H1 H2 i j. rewrite !trip_entry_app, (H1 i j), (H2 i j). reflexivity. Qed.

Lemma trip_sym_neg T : trip_sym T -> trip_sym (map neg_trip T).
Proof. intros HT i j. rewrite !trip_entry_neg, (HT i j). reflexivity. Qed.

(** A list followed by its transposes is symmetric. *)
Lemma trip_sym_pair c : trip_sym (c ++ map trip_swap c).
Proof. intros i j. rewrite !trip_entry_app, !trip_entry_swap. ring. Qed.

Lemma trip_sym_diag (f : nat -> Q) l : trip_sym (map (fun r => (r, r, f r)) l).
Proof.
  intros i j. destruct (Nat.eq_dec i j) as [<-|Hij]; [reflexivity|].
  induction l as [|r l IH]; [reflexivity|]. cbn [map]. rewrite !trip_entry_cons, IH.
  unfold trip_row, trip_col; cbn.
  destruct (Nat.eqb_spec r i), (Nat.eqb_spec r j); subst; try contradiction; reflexivity.
Qed.

#[export] Hint Resolve trip_sym_app trip_sym_neg trip_sym_pair trip_sym_diag : dt.

Lemma cot_weights_sym `{SqrtOp} P T W : cot_weights P T = Ok W -> trip_sym W.
Proof. intros (c0 & c1 & c2 & -> & _)%cot_weights_Ok. auto 6 with dt. Qed.

Lemma dia_minus_sym N W : trip_sym W -> trip_sym (dia_minus N W).
Proof. unfold dia_minus. auto with dt. Qed.

Lemma getLaplacian_cols `{SqrtOp} mesh idx w L :
  getLaplacianMatrixCotangent mesh idx w = Ok L ->
  Forall (fun t => trip_col t < length (VPos mesh)) (sp_trip L).
Proof.
  intros HL. destruct (getLaplacian_Ok _ _ _ _ HL) as (W & _ & HW & Hidx & ->). cbn [sp_trip].
  apply Forall_app. split.
  - eapply Forall_impl; [|exact (dia_minus_square _ _ HW)]. intros t [_ Ht]. exact Ht.
  - exact (proj2 (anchor_trips_cols _ idx w (fun c => c < length (VPos mesh))) Hidx).
Qed.

(** The first [N] rows of the operator sum to zero. *)
Lemma getLaplacian_row_sum `{SqrtOp} mesh idx w L r :
  getLaplacianMatrixCotangent mesh idx w = Ok L -> r < length (VPos mesh) ->
  (row_sum (sp_trip L) r == 0)%Q.
Proof.
  intros HL Hr. destruct (getLaplacian_Ok _ _ _ _ HL) as (W & EW & HW & _ & _).
  assert (HWc : Forall (fun t => trip_col t < length (VPos mesh)) W)
    by (eapply Forall_impl; [|exact HW]; intros t [_ Ht]; exact Ht).
  pose proof (row_dot_repeat _ r 1 _ (getLaplacian_cols _ _ _ _ HL)) as E.
  rewrite (getLaplacian_row _ _ _ _ _ _ _ HL EW Hr), nth_repeat_lt, (row_dot_repeat _ _ _ _ HWc)
    in E by exact Hr.
  rewrite <- (Qmult_1_l (row_sum _ r)), <- E. ring.
Qed.

(** ** Properties of [getLaplacianMatrixCotangent] *)

(** C10: the discrete Laplace-Beltrami property.  Every one of the first
    [N] rows of the returned operator sums to zero: it maps a constant
    vector to zero, whatever the anchors and their weight. *)
Theorem getLaplacian_rows_sum_zero `{SqrtOp} mesh idx w L r c :
  getLaplacianMatrixCotangent mesh idx w = Ok L -> r < length (VPos mesh) ->
  (row_dot (sp_trip L) r (repeat c (length (VPos mesh))) == 0)%Q.
Proof.
  intros HL Hr. rewrite (row_dot_repeat _ _ _ _ (getLaplacian_cols _ _ _ _ HL)).
  rewrite (getLaplacian_row_sum _ _ _ _ _ HL Hr). ring.
Qed.

(** C11: the Laplacian block of the operator is symmetric: the weight of
    edge [(i, j)] is stored at [(i, j)] and at [(j, i)]. *)
Theorem getLaplacian_symmetric `{SqrtOp} mesh idx w L i j :
  getLaplacianMatrixCotangent mesh idx w = Ok L ->
  i < length (VPos mesh) -> j < length (VPos mesh) ->
  (sp_entry L i j == sp_entry L j i)%Q.
Proof.
  intros HL Hi Hj. destruct (getLaplacian_Ok _ _ _ _ HL) as (W & EW & _ & _ & ->).
  change (trip_entry (dia_minus (length (VPos mesh)) W ++ anchor_trips (length (VPos mesh)) idx w) i j
          == trip_entry (dia_minus (length (VPos mesh)) W ++ anchor_trips (length (VPos mesh)) idx w) j i)%Q.
  rewrite !trip_entry_app, (dia_minus_sym _ _ (cot_weights_sym _ _ _ EW) i j).
  rewrite !(trip_entry_none (anchor_trips _ _ _)); [reflexivity| |];
    (eapply Forall_impl; [|apply anchor_trips_rows]); intros t [Ht _]; lia.
Qed.

Lemma getLaplacian_anchor_row_value `{SqrtOp} mesh idx w L a x :
  getLaplacianMatrixCotangent mesh idx w = Ok L -> a < length idx ->
  (row_dot (sp_trip L) (length (VPos mesh) + a) x == w * nth (nth a idx 0%nat) x 0)%Q.
Proof.
  intros HL Ha. destruct (getLaplacian_Ok _ _ _ _ HL) as (W & _ & HW & _ & ->).
  cbn [sp_trip]. rewrite row_dot_app, (row_dot_anchor _ _ _ _ _ Ha).
  assert (HD : (row_dot (dia_minus (length (VPos mesh)) W) (length (VPos mesh) + a) x == 0)%Q).
  { apply row_dot_lower. eapply Forall_impl; [|exact (dia_minus_rows _ _ HW)].
    intros t Ht. cbv beta in *. lia. }
  rewrite HD. ring.
Qed.

(** C19: anchor rows.  Row [N + a] of the operator reads the anchored
    vertex [anchorsIdx[a]] with weight [anchorWeights] and nothing else. *)
Theorem getLaplacian_anchor_row `{SqrtOp} mesh idx w L a x :
  getLaplacianMatrixCotangent mesh idx w = Ok L -> a < length idx ->
  (row_dot (sp_trip L) (length (VPos mesh) + a) x == w * nth (nth a idx 0%nat) x 0)%Q.
Proof. exact (@getLaplacian_anchor_row_value H mesh idx w L a x). Qed.

(** C22: totality.  When every triangle's indices are vertices and every
    anchor is a vertex, the operator is built, with [N + K] rows and [N]
    columns. *)
Theorem getLaplacian_total `{SqrtOp} mesh idx w :
  Forall (fun t => tri_in_range (length (VPos mesh)) t = true) (ITris mesh) ->
  Forall (fun a => a < length (VPos mesh)) idx ->
  exists L, getLaplacianMatrixCotangent mesh idx w = Ok L /\
    sp_rows L = length (VPos mesh) + length idx /\ sp_cols L = length (VPos mesh).
Proof.
  intros HT Hidx. destruct (cot_weights_total _ _ HT) as [W EW].
  rewrite (getLaplacian_weights _ _ _ _ EW).
  exists (SpMat (length (VPos mesh) + length idx) (length (VPos mesh))
            (dia_minus (length (VPos mesh)) W ++ anchor_trips (length (VPos mesh)) idx w)).
  split; [|split; reflexivity].
  apply coo_matrix_Ok. split; [reflexivity|]. apply Forall_app. split.
  - eapply Forall_impl; [|exact (dia_minus_square _ _ (cot_weights_square _ _ _ EW))].
    intros t [H1 H2]. split; lia.
  - apply Forall_forall. intros t Ht. split.
    + pose proof (proj1 (Forall_forall _ _) (anchor_trips_rows (length (VPos mesh)) idx w) t Ht).
      cbv beta in *. lia.
    + exact (proj1 (Forall_forall _ _)
               (proj2 (anchor_trips_cols _ idx w (fun c => c < length (VPos mesh))) Hidx) t Ht).
Qed.

(** C23: an invalid anchor.  On a well-indexed mesh, an anchor index that is
    not a vertex makes [sparse.coo_matrix] raise [ValueError]. *)
Theorem getLaplacian_invalid_anchor `{SqrtOp} mesh idx w :
  Forall (fun t => tri_in_range (length (VPos mesh)) t = true) (ITris mesh) ->
  ~ Forall (fun a => a < length (VPos mesh)) idx ->
  getLaplacianMatrixCotangent mesh idx w = Err ValueError.
Proof.
  intros HT Hidx. destruct (cot_weights_total _ _ HT) as [W EW].
  destruct (getLaplacianMatrixCotangent mesh idx w) as [L|e] eqn:E.
  - exfalso. apply Hidx. destruct (getLaplacian_Ok _ _ _ _ E) as (_ & _ & _ & ? & _). assumption.
  - rewrite (getLaplacian_weights _ _ _ _ EW) in E. unfold coo_matrix in E.
    destruct (forallb _ _); congruence.
Qed.

(** ** The anchor solve *)

Lemma nth_col k i P : nth i (col k P) 0%Q = vcoord k (nth i P vzero).
Proof.
  unfold col. rewrite <- map_nth with (d := vzero).
  destruct k as [|[|k]]; reflexivity.
Qed.

Lemma length_col k P : length (col k P) = length P.
Proof. apply length_map. Qed.

Lemma col_spmm k A P : col k (spmm A P) = spmv A (col k P).
Proof.
  unfold col, spmm, spmv. rewrite map_map. apply map_ext. intros r.
  destruct k as [|[|k]]; reflexivity.
Qed.

Lemma length_spmm A P : length (spmm A P) = sp_rows A.
Proof. unfold spmm. rewrite length_map, length_seq. reflexivity. Qed.

Lemma set_rows_from_exact N X D :
  length X = length D - N -> set_rows_from N X D = Ok (firstn N D ++ X).
Proof. intros HX. unfold set_rows_from. rewrite HX, Nat.eqb_refl. reflexivity. Qed.

(** The three solves of [solveLaplacianMesh], unfolded. *)
Lemma solveLaplacian_Ok `{SqrtOp} lsqr mesh X idx mesh' :
  solveLaplacianMesh lsqr mesh X idx = Ok mesh' ->
  exists L delta P0 P1, getLaplacianMatrixCotangent mesh idx 1 = Ok L /\
    set_rows_from (length (VPos mesh)) X (spmm L (VPos mesh)) = Ok delta /\
    set_col 0 (lsqr L (col 0 delta)) (VPos mesh) = Ok P0 /\
    set_col 1 (lsqr L (col 1 delta)) P0 = Ok P1 /\
    set_col 2 (lsqr L (col 2 delta)) P1 = Ok (VPos mesh') /\ ITris mesh' = ITris mesh.
Proof.
  unfold solveLaplacianMesh. intros Hs. inv_ok. subst. cbn. eauto 10.
Qed.

(** The solved columns are written where they belong. *)
Lemma solveLaplacian_columns `{SqrtOp} lsqr mesh X idx mesh' L delta :
  solveLaplacianMesh lsqr mesh X idx = Ok mesh' ->
  getLaplacianMatrixCotangent mesh idx 1 = Ok L ->
  set_rows_from (length (VPos mesh)) X (spmm L (VPos mesh)) = Ok delta ->
  (forall k, k < 3 -> length (lsqr L (col k delta)) = length (VPos mesh)) ->
  length (VPos mesh') = length (VPos mesh) /\
  forall k, k < 3 -> col k (VPos mesh') = lsqr L (col k delta).
Proof.
  intros Hs HL Hd Hlx.
  destruct (solveLaplacian_Ok _ _ _ _ _ Hs) as (L' & d' & P0 & P1 & HL' & Hd' & H0 & H1 & H2 & _).
  rewrite HL in HL'. injection HL' as <-. rewrite Hd in Hd'. injection Hd' as <-.
  destruct (set_cols_coords _ _ _ _ _ _ _ (Hlx 0 ltac:(lia)) (Hlx 1 ltac:(lia)) (Hlx 2 ltac:(lia))
              H0 H1 H2) as (Hl & C0 & C1 & C2).
  split; [exact Hl|]. intros k Hk. destruct k as [|[|[|k]]]; [assumption.. | lia].
Qed.

(** When [lsqr] meets its contract and the system of an axis has an exact
    solution, the solved column is exact too. *)
Lemma solveLaplacian_consistent `{SqrtOp} lsqr mesh X idx mesh' L delta :
  solveLaplacianMesh lsqr mesh X idx = Ok mesh' ->
  getLaplacianMatrixCotangent mesh idx 1 = Ok L ->
  set_rows_from (length (VPos mesh)) X (spmm L (VPos mesh)) = Ok delta ->
  (forall k, k < 3 -> is_lsq L (col k delta) (lsqr L (col k delta))) ->
  length delta = sp_rows L ->
  (forall k, k < 3 -> exists Y, length Y = sp_cols L /\ qleq (spmv L Y) (col k delta)) ->
  length (VPos mesh') = length (VPos mesh) /\
  forall k, k < 3 -> qleq (spmv L (col k (VPos mesh'))) (col k delta).
Proof.
  intros Hs HL Hd Hls Hdl HY. pose proof (getLaplacian_shape _ _ _ _ HL) as [_ Hc].
  destruct (solveLaplacian_columns _ _ _ _ _ _ _ Hs HL Hd) as [Hl Hcols];
    [intros k Hk; rewrite (proj1 (Hls k Hk)); exact Hc|].
  split; [exact Hl|]. intros k Hk. rewrite (Hcols k Hk).
  destruct (HY k Hk) as (Y & HYl & HYs).
  apply (lsq_consistent _ _ _ Y); [rewrite length_col; exact Hdl | exact (Hls k Hk) | exact HYl | exact HYs].
Qed.

Definition own_anchors (P : pose) (idx : list nat) : pose := map (fun a => nth a P vzero) idx.

(** [delta] when the anchors are the anchored vertices' own positions:
    [L VPos] on the first [N] rows, the anchored positions below. *)
Lemma own_delta `{SqrtOp} mesh idx L delta :
  getLaplacianMatrixCotangent mesh idx 1 = Ok L ->
  set_rows_from (length (VPos mesh)) (own_anchors (VPos mesh) idx) (spmm L (VPos mesh)) = Ok delta ->
  length delta = sp_rows L /\
  (forall k r, r < length (VPos mesh) ->
     nth r (col k delta) 0%Q = row_dot (sp_trip L) r (col k (VPos mesh))) /\
  (forall k a, a < length idx ->
     nth (length (VPos mesh) + a) (col k delta) 0%Q = vcoord k (nth (nth a idx 0) (VPos mesh) vzero)).
Proof.
  intros HL Hd. pose proof (getLaplacian_shape _ _ _ _ HL) as [Hr Hc].
  assert (HX : length (own_anchors (VPos mesh) idx) = length (spmm L (VPos mesh)) - length (VPos mesh))
    by (unfold own_anchors; rewrite length_map, length_spmm; lia).
  rewrite (set_rows_from_exact _ _ _ HX) in Hd. injection Hd as <-.
  assert (Hf : length (firstn (length (VPos mesh)) (spmm L (VPos mesh))) = length (VPos mesh))
    by (rewrite length_firstn, length_spmm; lia).
  split; [rewrite length_app, Hf; unfold own_anchors; rewrite length_map; lia|]. split.
  - intros k r Hrn. unfold col. rewrite map_app, app_nth1 by (rewrite length_map; lia).
    rewrite <- firstn_map, nth_firstn.
    assert (E : (r <? length (VPos mesh)) = true) by (apply Nat.ltb_lt; exact Hrn). rewrite E.
    fold (col k (spmm L (VPos mesh))). rewrite col_spmm, nth_spmv by lia. reflexivity.
  - intros k a Ha. unfold col. rewrite map_app, app_nth2 by (rewrite length_map; lia).
    rewrite length_map, Hf, Nat.add_comm, Nat.add_sub. fold (col k (own_anchors (VPos mesh) idx)).
    rewrite nth_col. unfold own_anchors. rewrite nth_indep with (d' := nth 0 (VPos mesh) vzero)
      by (rewrite length_map; exact Ha).
    rewrite (map_nth (fun a => nth a (VPos mesh) vzero)). reflexivity.
Qed.

(** With its own positions as anchors, the current pose solves every axis
    of the anchored system exactly. *)
Lemma own_delta_solved `{SqrtOp} mesh idx L delta k :
  getLaplacianMatrixCotangent mesh idx 1 = Ok L ->
  set_rows_from (length (VPos mesh)) (own_anchors (VPos mesh) idx) (spmm L (VPos mesh)) = Ok delta ->
  qleq (spmv L (col k (VPos mesh))) (col k delta).
Proof.
  intros HL Hd. destruct (own_delta _ _ _ _ HL Hd) as (Hl & Hlow & Hhigh).
  pose proof (getLaplacian_shape _ _ _ _ HL) as [Hr _].
  apply qleq_nth_iff; [rewrite length_spmv, length_col; lia|].
  intros i Hi. rewrite length_spmv in Hi. rewrite nth_spmv by exact Hi.
  destruct (Nat.lt_ge_cases i (length (VPos mesh))) as [Hin|Hin]; [rewrite Hlow by exact Hin; reflexivity|].
  replace i with (length (VPos mesh) + (i - length (VPos mesh))) by lia.
  rewrite Hhigh by lia. rewrite (getLaplacian_anchor_row_value _ _ _ _ _ _ HL) by lia.
  rewrite nth_col. ring.
Qed.

(** C8: anchor exactness.  When every anchor is set to its vertex's own
    position and [lsqr] returns least-squares solutions of the three axes,
    [solveLaplacianMesh] keeps the triangles and the number of vertices,
    leaves every anchored vertex exactly where it was, and preserves the
    Laplacian coordinates [L VPos] of every vertex. *)
Theorem solveLaplacianMesh_anchor_exact `{SqrtOp} lsqr mesh idx mesh' :
  solveLaplacianMesh lsqr mesh (own_anchors (VPos mesh) idx) idx = Ok mesh' ->
  (forall L delta, getLaplacianMatrixCotangent mesh idx 1 = Ok L ->
     set_rows_from (length (VPos mesh)) (own_anchors (VPos mesh) idx) (spmm L (VPos mesh)) = Ok delta ->
     forall k, k < 3 -> is_lsq L (col k delta) (lsqr L (col k delta))) ->
  ITris mesh' = ITris mesh /\ length (VPos mesh') = length (VPos mesh) /\
  (forall a, In a idx -> veq (nth a (VPos mesh') vzero) (nth a (VPos mesh) vzero)) /\
  (forall L, getLaplacianMatrixCotangent mesh idx 1 = Ok L ->
     forall k r, r < length (VPos mesh) ->
     (row_dot (sp_trip L) r (col k (VPos mesh')) == row_dot (sp_trip L) r (col k (VPos mesh)))%Q).
Proof.
  intros Hs Hls.
  destruct (solveLaplacian_Ok _ _ _ _ _ Hs) as (L & delta & _ & _ & HL & Hd & _ & _ & _ & HT).
  pose proof (getLaplacian_shape _ _ _ _ HL) as [Hr Hc].
  destruct (own_delta _ _ _ _ HL Hd) as (Hdl & Hlow & Hhigh).
  destruct (solveLaplacian_consistent _ _ _ _ _ _ _ Hs HL Hd (Hls _ _ HL Hd) Hdl) as [Hl Hsol];
    [intros k _; exists (col k (VPos mesh)); split;
       [rewrite length_col; lia | exact (own_delta_solved _ _ _ _ k HL Hd)]|].
  assert (Hk : forall k, k < 3 -> forall i, i < sp_rows L ->
            (row_dot (sp_trip L) i (col k (VPos mesh')) == nth i (col k delta) 0)%Q)
    by (intros k Hk i Hi; rewrite <- nth_spmv by exact Hi; exact (qleq_nth _ _ (Hsol k Hk) i)).
  split; [exact HT|]. split; [exact Hl|]. split.
  - intros a Ha. apply In_nth with (d := 0) in Ha as (j & Hj & <-).
    assert (Ha : forall k, k < 3 -> (vcoord k (nth (nth j idx 0%nat) (VPos mesh') vzero)
                                     == vcoord k (nth (nth j idx 0%nat) (VPos mesh) vzero))%Q).
    { intros k Hk'. rewrite <- Hhigh, <- Hk, <- nth_col by (exact Hj || lia).
      rewrite (getLaplacian_anchor_row_value _ _ _ _ _ _ HL Hj). ring. }
    exact (conj (Ha 0 ltac:(lia)) (conj (Ha 1 ltac:(lia)) (Ha 2 ltac:(lia)))).
  - intros L' HL' k r Hrn. rewrite HL in HL'. injection HL' as <-.
    rewrite <- Hlow by exact Hrn. destruct k as [|[|[|k]]]; (apply Hk; [lia|lia]) || idtac.
    change (col (S (S (S k))) (VPos mesh')) with (col 2 (VPos mesh')).
    change (col (S (S (S k))) delta) with (col 2 delta). apply Hk; lia.
Qed.

(** A system whose rows all sum to zero cannot see a common shift of the
    unknowns. *)
Lemma spmv_shift_zero_rows A c x :
  Forall (fun t => trip_col t < length x) (sp_trip A) ->
  (forall r, r < sp_rows A -> (row_sum (sp_trip A) r == 0)%Q) ->
  qleq (spmv A (qshift c x)) (spmv A x).
Proof.
  intros Hc Hr. apply qleq_nth_iff; [rewrite !length_spmv; reflexivity|].
  intros i Hi. rewrite length_spmv in Hi. rewrite !nth_spmv by exact Hi.
  rewrite (row_dot_shift _ _ _ _ Hc), (Hr i Hi). ring.
Qed.

(** C14: with no anchors the solve does not keep the mesh.  If [lsqr]
    returns the minimum-norm least-squares solution (as it does from its
    zero starting point), every coordinate of the solved positions sums to
    zero: the mesh is moved so that its centroid is at the origin, so a
    mesh whose centroid is elsewhere is not returned unchanged. *)
Theorem solveLaplacianMesh_no_anchors_centered `{SqrtOp} lsqr mesh mesh' :
  solveLaplacianMesh lsqr mesh [] [] = Ok mesh' ->
  (forall L delta, getLaplacianMatrixCotangent mesh [] 1 = Ok L ->
     set_rows_from (length (VPos mesh)) [] (spmm L (VPos mesh)) = Ok delta ->
     forall k, k < 3 -> is_minnorm_lsq L (col k delta) (lsqr L (col k delta))) ->
  forall k, k < 3 -> (qsum (col k (VPos mesh')) == 0)%Q.
Proof.
  intros Hs Hls k Hk.
  destruct (solveLaplacian_Ok _ _ _ _ _ Hs) as (L & delta & _ & _ & HL & Hd & _).
  pose proof (getLaplacian_shape _ _ _ _ HL) as [Hr Hc]. cbn [length] in Hr.
  specialize (Hls L delta HL Hd).
  destruct (solveLaplacian_columns _ _ _ _ _ _ _ Hs HL Hd) as [Hl Hcols];
    [intros j Hj; rewrite (proj1 (proj1 (Hls j Hj))); exact Hc|].
  rewrite (Hcols k Hk). apply (minnorm_shift_invariant L (col k delta)); [exact (Hls k Hk)|].
  intros c. apply spmv_shift_zero_rows.
  - rewrite (proj1 (proj1 (Hls k Hk))), Hc. exact (getLaplacian_cols _ _ _ _ HL).
  - intros r Hr'. apply (getLaplacian_row_sum _ _ _ _ _ HL). lia.
Qed.

(** ** Witnesses *)

(** A tetrahedron-like mesh whose fourth vertex [(1, 2, 3)] has three
    distinct coordinates, anchored at that vertex. *)
Definition lap_mesh : PolyMesh :=
  MkMesh [V3 0 0 0; V3 2 0 0; V3 0 2 0; V3 1 2 3] [T3 0 1 2; T3 1 3 2; T3 0 3 1].

Definition lap_L : spmat := ok_or (SpMat 0 0 []) (getLaplacianMatrixCotangent lap_mesh [3] 1).

(** A solver for the example: it returns the column of the current pose
    whose anchor coordinate the right-hand side ends with. *)
Definition lap_lsqr (A : spmat) (b : list Q) : list Q :=
  let z := last b 0%Q in
  col (if Qeq_bool z 1 then 0 else if Qeq_bool z 2 then 1 else 2) (VPos lap_mesh).

Definition lap_out : PolyMesh :=
  ok_or lap_mesh (solveLaplacianMesh lap_lsqr lap_mesh (own_anchors (VPos lap_mesh) [3]) [3]).

Lemma getLaplacian_rows_sum_zero_witness :
  getLaplacianMatrixCotangent lap_mesh [3] 1 = Ok lap_L /\ 1 < length (VPos lap_mesh) /\
  (row_dot (sp_trip lap_L) 1 (repeat 5%Q (length (VPos lap_mesh))) == 0)%Q.
Proof.
  assert (HL : getLaplacianMatrixCotangent lap_mesh [3] 1 = Ok lap_L) by (vm_compute; reflexivity).
  split; [exact HL|]. split; [cbn; lia|].
  exact (getLaplacian_rows_sum_zero _ _ _ _ 1 5 HL ltac:(cbn; lia)).
Defined.

Lemma getLaplacian_symmetric_witness :
  getLaplacianMatrixCotangent lap_mesh [3] 1 = Ok lap_L /\
  0 < length (VPos lap_mesh) /\ 3 < length (VPos lap_mesh) /\
  (sp_entry lap_L 0 3 == sp_entry lap_L 3 0)%Q.
Proof.
  assert (HL : getLaplacianMatrixCotangent lap_mesh [3] 1 = Ok lap_L) by (vm_compute; reflexivity).
  split; [exact HL|]. split; [cbn; lia|]. split; [cbn; lia|].
  exact (getLaplacian_symmetric _ _ _ _ 0 3 HL ltac:(cbn; lia) ltac:(cbn; lia)).
Defined.

Lemma getLaplacian_anchor_row_witness :
  getLaplacianMatrixCotangent lap_mesh [3] 1 = Ok lap_L /\ 0 < length [3] /\
  (row_dot (sp_trip lap_L) (length (VPos lap_mesh) + 0) [1; 2; 3; 4]%Q == 1 * 4)%Q.
Proof.
  assert (HL : getLaplacianMatrixCotangent lap_mesh [3] 1 = Ok lap_L) by (vm_compute; reflexivity).
  split; [exact HL|]. split; [cbn; lia|].
  exact (getLaplacian_anchor_row _ _ _ _ 0 [1; 2; 3; 4]%Q HL ltac:(cbn; lia)).
Defined.

Lemma getLaplacian_total_witness :
  Forall (fun t => tri_in_range (length (VPos lap_mesh)) t = true) (ITris lap_mesh) /\
  Forall (fun a => a < length (VPos lap_mesh)) [3] /\
  exists L, getLaplacianMatrixCotangent lap_mesh [3] 1 = Ok L /\
    sp_rows L = length (VPos lap_mesh) + length [3] /\ sp_cols L = length (VPos lap_mesh).
Proof.
  assert (HT : Forall (fun t => tri_in_range (length (VPos lap_mesh)) t = true) (ITris lap_mesh))
    by (repeat constructor).
  assert (Hi : Forall (fun a => a < length (VPos lap_mesh)) [3]) by (repeat constructor; cbn; lia).
  split; [exact HT|]. split; [exact Hi|]. exact (getLaplacian_total lap_mesh [3] 1 HT Hi).
Defined.

Lemma getLaplacian_invalid_anchor_witness :
  Forall (fun t => tri_in_range (length (VPos lap_mesh)) t = true) (ITris lap_mesh) /\
  ~ Forall (fun a => a < length (VPos lap_mesh)) [3; 4] /\
  getLaplacianMatrixCotangent lap_mesh [3; 4] 1 = Err ValueError.
Proof.
  assert (HT : Forall (fun t => tri_in_range (length (VPos lap_mesh)) t = true) (ITris lap_mesh))
    by (repeat constructor).
  assert (Hi : ~ Forall (fun a => a < length (VPos lap_mesh)) [3; 4])
    by (intros H; inversion H as [|? ? _ H']; inversion H'; cbn in *; lia).
  split; [exact HT|]. split; [exact Hi|]. exact (getLaplacian_invalid_anchor lap_mesh [3; 4] 1 HT Hi).
Defined.

(** The example solver meets its contract on the three anchored systems. *)
Lemma lap_lsqr_contract :
  forall L delta, getLaplacianMatrixCotangent lap_mesh [3] 1 = Ok L ->
  set_rows_from (length (VPos lap_mesh)) (own_anchors (VPos lap_mesh) [3]) (spmm L (VPos lap_mesh))
    = Ok delta ->
  forall k, k < 3 -> is_lsq L (col k delta) (lap_lsqr L (col k delta)).
Proof.
  intros L delta HL Hd k Hk.
  assert (HL' : getLaplacianMatrixCotangent lap_mesh [3] 1 = Ok lap_L) by (vm_compute; reflexivity).
  rewrite HL' in HL. injection HL as <-.
  assert (Hd' : set_rows_from (length (VPos lap_mesh)) (own_anchors (VPos lap_mesh) [3])
                  (spmm lap_L (VPos lap_mesh))
                = Ok (ok_or [] (set_rows_from (length (VPos lap_mesh)) (own_anchors (VPos lap_mesh) [3])
                                  (spmm lap_L (VPos lap_mesh))))) by (vm_compute; reflexivity).
  rewrite Hd' in Hd. injection Hd as <-.
  destruct k as [|[|[|k]]]; [| | | lia]; apply zero_resid_is_lsq; vm_compute; reflexivity.
Qed.

Lemma solveLaplacianMesh_anchor_exact_witness :
  solveLaplacianMesh lap_lsqr lap_mesh (own_anchors (VPos lap_mesh) [3]) [3] = Ok lap_out /\
  ITris lap_out = ITris lap_mesh /\ length (VPos lap_out) = length (VPos lap_mesh) /\
  (forall a, In a [3] -> veq (nth a (VPos lap_out) vzero) (nth a (VPos lap_mesh) vzero)) /\
  (forall L, getLaplacianMatrixCotangent lap_mesh [3] 1 = Ok L ->
     forall k r, r < length (VPos lap_mesh) ->
     (row_dot (sp_trip L) r (col k (VPos lap_out)) == row_dot (sp_trip L) r (col k (VPos lap_mesh)))%Q).
Proof.
  assert (Hs : solveLaplacianMesh lap_lsqr lap_mesh (own_anchors (VPos lap_mesh) [3]) [3] = Ok lap_out)
    by (vm_compute; reflexivity).
  split; [exact Hs|].
  exact (solveLaplacianMesh_anchor_exact lap_lsqr lap_mesh [3] lap_out Hs lap_lsqr_contract).
Defined.

(** A degenerate mesh at the origin, whose minimum-norm solution is zero. *)
Definition lap_zero_mesh : PolyMesh := MkMesh [vzero; vzero; vzero] [T3 0 1 2].

Definition lap_zero_lsqr (A : spmat) (b : list Q) : list Q := repeat 0%Q (sp_cols A).

Definition lap_zero_L : spmat :=
  ok_or (SpMat 0 0 []) (getLaplacianMatrixCotangent lap_zero_mesh [] 1).

Definition lap_zero_delta : pose :=
  ok_or [] (set_rows_from (length (VPos lap_zero_mesh)) [] (spmm lap_zero_L (VPos lap_zero_mesh))).

Lemma solveLaplacianMesh_no_anchors_centered_witness :
  solveLaplacianMesh lap_zero_lsqr lap_zero_mesh [] [] = Ok lap_zero_mesh /\
  (forall L delta, getLaplacianMatrixCotangent lap_zero_mesh [] 1 = Ok L ->
     set_rows_from (length (VPos lap_zero_mesh)) [] (spmm L (VPos lap_zero_mesh)) = Ok delta ->
     forall k, k < 3 -> is_minnorm_lsq L (col k delta) (lap_zero_lsqr L (col k delta))) /\
  (qsum (col 0 (VPos lap_zero_mesh)) == 0)%Q.
Proof.
  assert (Hs : solveLaplacianMesh lap_zero_lsqr lap_zero_mesh [] [] = Ok lap_zero_mesh)
    by (vm_compute; reflexivity).
  assert (Hls : forall L delta, getLaplacianMatrixCotangent lap_zero_mesh [] 1 = Ok L ->
     set_rows_from (length (VPos lap_zero_mesh)) [] (spmm L (VPos lap_zero_mesh)) = Ok delta ->
     forall k, k < 3 -> is_minnorm_lsq L (col k delta) (lap_zero_lsqr L (col k delta))).
  { intros L delta HL Hd k Hk.
    assert (HL' : getLaplacianMatrixCotangent lap_zero_mesh [] 1 = Ok lap_zero_L)
      by (vm_compute; reflexivity).
    rewrite HL' in HL. injection HL as <-.
    assert (Hd' : set_rows_from (length (VPos lap_zero_mesh)) [] (spmm lap_zero_L (VPos lap_zero_mesh))
                  = Ok lap_zero_delta) by (vm_compute; reflexivity).
    rewrite Hd' in Hd. injection Hd as <-.
    split; [destruct k as [|[|[|k]]]; [| | | lia]; apply zero_resid_is_lsq; vm_compute; reflexivity|].
    intros y _. assert (E : (norm2 (lap_zero_lsqr lap_zero_L (col k lap_zero_delta)) == 0)%Q)
      by (vm_compute; reflexivity).
    rewrite E. apply norm2_nonneg. }
  split; [exact Hs|]. split; [exact Hls|].
  exact (solveLaplacianMesh_no_anchors_centered lap_zero_lsqr lap_zero_mesh lap_zero_mesh Hs Hls 0
           ltac:(lia)).
Defined.
